(** * Nomad-Manager: the per-file decision engine, relocation and season
      consolidation of [NomadManager.py], embedded over an in-memory file store.

    The Python program threads three pieces of mutable state through every
    call: the file system, the sqlite status table and the terminal.  They are
    modelled as one [World] record passed through a small state-and-exception
    monad.  External tools (ffprobe, HandBrakeCLI, the TMDb lookup, the
    download client writing while the program sleeps) are Section variables. *)

From Stdlib Require Import ZArith Strings.Byte Strings.Ascii.
From stdpp Require Import gmap strings list fin_maps pretty.

Open Scope string_scope.
Open Scope list_scope.

(** ** Python [str] methods used by the program *)
Module Str.

Definition lower_ascii (c : ascii) : ascii :=
  let n := nat_of_ascii c in
  if (65 <=? n)%nat && (n <=? 90)%nat then ascii_of_nat (n + 32) else c.

(** [s.lower()] *)
Fixpoint lower (s : string) : string :=
  match s with
  | EmptyString => EmptyString
  | String c t => String (lower_ascii c) (lower t)
  end.

(** [s.startswith(p)] *)
Definition startswith (s p : string) : bool := String.prefix p s.

(** [s.endswith(p)] *)
Fixpoint endswith (s p : string) : bool :=
  String.eqb s p ||
  match s with
  | EmptyString => false
  | String _ t => endswith t p
  end.

(** [p in s] *)
Fixpoint contains (p s : string) : bool :=
  String.prefix p s ||
  match s with
  | EmptyString => false
  | String _ t => contains p t
  end.

Definition is_space (c : ascii) : bool :=
  let n := nat_of_ascii c in
  (n =? 32)%nat || ((9 <=? n)%nat && (n <=? 13)%nat).

Fixpoint lstrip (s : string) : string :=
  match s with
  | EmptyString => EmptyString
  | String c t => if is_space c then lstrip t else s
  end.

(** [s.strip()] *)
Definition strip (s : string) : string :=
  String.rev (lstrip (String.rev (lstrip s))).

(** [s.rfind('.')], [None] standing for -1 *)
Fixpoint rfind_dot (s : string) : option nat :=
  match s with
  | EmptyString => None
  | String c t =>
      match rfind_dot t with
      | Some i => Some (S i)
      | None => if Ascii.eqb c "." then Some 0%nat else None
      end
  end.

(** [s[:i]] and [s[i:]] *)
Definition take (i : nat) (s : string) : string := String.substring 0 i s.
Definition drop (i : nat) (s : string) : string :=
  String.substring i (String.length s - i) s.

End Str.

(** ** [pathlib.PurePosixPath]: an absolute path is the list of its parts *)
Module Pathlib.

Abbreviation Path := (list string).

(** [p.name]; the root has the empty name *)
Definition name (p : Path) : string := List.last p "".

(** [p.parent]; the root is its own parent *)
Definition parent (p : Path) : Path := removelast p.

(** [p / s] for a string [s] ([p / ''] is [p]) *)
Definition div (p : Path) (s : string) : Path :=
  if String.eqb s "" then p else p ++ [s].

(** the index at which [name.rfind('.')] splits the name, when
    [0 < i < len(name) - 1] *)
Definition split_at (nm : string) : option nat :=
  match Str.rfind_dot nm with
  | Some i => if (0 <? i)%nat && (i <? String.length nm - 1)%nat
              then Some i else None
  | None => None
  end.

Definition suffix_of (nm : string) : string :=
  match split_at nm with Some i => Str.drop i nm | None => "" end.

Definition stem_of (nm : string) : string :=
  match split_at nm with Some i => Str.take i nm | None => nm end.

(** [p.suffix] and [p.stem] *)
Definition suffix (p : Path) : string := suffix_of (name p).
Definition stem (p : Path) : string := stem_of (name p).

(** [p.with_name(nm)]: ValueError ([None]) on a path with an empty name *)
Definition with_name (p : Path) (nm : string) : option Path :=
  if String.eqb (name p) "" then None else Some (parent p ++ [nm]).

(** [p.with_suffix(suf)] for a well-formed [suf] (starts with a dot) *)
Definition with_suffix (p : Path) (suf : string) : option Path :=
  if String.eqb (name p) "" then None
  else Some (parent p ++ [stem p +:+ suf]).

(** [p.relative_to(base)]: ValueError ([None]) unless [base] is a prefix *)
Fixpoint relative_to (p base : Path) : option Path :=
  match base, p with
  | [], _ => Some p
  | b :: base', x :: p' => if String.eqb b x then relative_to p' base' else None
  | _ :: _, [] => None
  end.

(** [str(p)] *)
Definition str (p : Path) : string := "/" +:+ String.concat "/" p.

(** all ancestors of [p], the root first, [p] itself excluded *)
Fixpoint ancestors (p : Path) : list Path :=
  match p with
  | [] => []
  | x :: p' => [] :: List.map (cons x) (ancestors p')
  end.

End Pathlib.
Import Pathlib.

(** ** The file store *)

(** A regular file carries its bytes; a directory is a key whose children are
    the keys one part longer.  Well-formed stores are prefix closed. *)
Inductive node :=
  | File (data : list byte)
  | Dir.

Abbreviation FS := (gmap Path node).

Module Fs.

Definition is_file (fs : FS) (p : Path) : bool :=
  match fs !! p with Some (File _) => true | _ => false end.

Definition is_dir (fs : FS) (p : Path) : bool :=
  match fs !! p with Some Dir => true | _ => false end.

Definition exists_ (fs : FS) (p : Path) : bool :=
  match fs !! p with Some _ => true | None => false end.

(** [st_size]: the length of a file; a directory reports one block *)
Definition size_of (n : node) : Z :=
  match n with
  | File data => Z.of_nat (length data)
  | Dir => 4096
  end.

(** the entries below [d], keyed by their path relative to [d]
    ([d] itself has the empty relative path) *)
Definition subtree (fs : FS) (d : Path) : list (Path * node) :=
  omap (fun '(p, n) => rel ← relative_to p d; Some (rel, n)) (map_to_list fs).

(** [d.iterdir()] *)
Definition children (fs : FS) (d : Path) : list Path :=
  omap (fun '(rel, _) => match rel with [x] => Some (d ++ [x]) | _ => None end)
       (subtree fs d).

(** [d.rglob("*")] *)
Definition descendants (fs : FS) (d : Path) : list Path :=
  omap (fun '(rel, _) => match rel with [] => None | _ => Some (d ++ rel) end)
       (subtree fs d).

(** the store without [d] and everything below it *)
Definition prune (fs : FS) (d : Path) : FS :=
  filter (fun '(p, _) => relative_to p d = None) fs.

(** the entries of [ents] re-rooted at [dst], laid over [fs] *)
Definition graft (fs : FS) (dst : Path) (ents : list (Path * node)) : FS :=
  list_to_map (List.map (fun '(rel, n) => (dst ++ rel, n)) ents) ∪ fs.

(** [mkdir -p]: every missing ancestor and [p] itself become directories *)
Definition mkdirs (fs : FS) (p : Path) : FS :=
  foldr (fun q f => <[q := Dir]> f) fs (ancestors p ++ [p]).

(** no regular file stands where [mkdir -p] needs a directory *)
Definition can_mkdirs (fs : FS) (p : Path) : bool :=
  negb (existsb (is_file fs) (ancestors p)) && negb (is_file fs p).

Definition comparable (a b : Path) : bool :=
  match relative_to a b, relative_to b a with
  | None, None => false
  | _, _ => true
  end.

(** a regular file stands somewhere above [p] *)
Definition below_file (fs : FS) (p : Path) : bool :=
  existsb (is_file fs) (ancestors p).

(** the walk of a tree at [src] reaches the entry at [rel]: everything
    above it in the tree is a directory *)
Definition visited (fs : FS) (src rel : Path) : bool :=
  forallb (fun q => is_dir fs (src ++ q)) (ancestors rel).

(** where the copy of the entry at [rel] is written: a file that meets a
    directory is written inside it, under its own name *)
Definition landing (fs : FS) (dst rel : Path) (n : node) : Path :=
  match n with
  | File _ => if is_dir fs (dst ++ rel) then dst ++ rel ++ [name rel] else dst ++ rel
  | Dir => dst ++ rel
  end.

(** the entry at [rel] cannot be copied: a directory meets a regular file,
    a file would have to replace a directory, or a directory above the entry
    could not be made *)
Definition blocked (fs : FS) (dst : Path) (rel : Path) (n : node) : bool :=
  match n with
  | Dir => is_file fs (dst ++ rel)
  | File _ => is_dir fs (landing fs dst rel n)
  end ||
  existsb (fun q => is_file fs (dst ++ q)) (ancestors rel).

(** the entries the walk of the tree at [src] reaches, keyed by their path
    relative to [src] *)
Definition walk (fs : FS) (src : Path) : list (Path * node) :=
  List.filter (fun '(rel, _) => visited fs src rel) (subtree fs src).

(** the entries of [ents] written below [dst], each where it lands, over
    [fs] *)
Definition lay (fs : FS) (dst : Path) (ents : list (Path * node)) : FS :=
  list_to_map (List.map (fun '(rel, n) => (landing fs dst rel n, n)) ents) ∪ fs.

End Fs.

(** ** The status store *)

Inductive status :=
  | queued | processing | done_moved | skipped_moved | kept_original_moved
  | copied_season | skipped_by_user | error.

#[global] Instance status_eq_dec : EqDecision status.
Proof. solve_decision. Defined.

(** one row of table [files]; the key [path] is the key of the map *)
Record FileRecord := mkRecord {
  rec_status : status;
  added_at : Z;
  updated_at : Z;
  note : option string
}.

(** ** The world and the monad of the program *)

Record World := mkWorld {
  files : FS;                       (* the file system *)
  table : gmap Path FileRecord;     (* sqlite table [files] *)
  clock : Z;                        (* [time.time()] in seconds *)
  stdin : list string;              (* lines the operator will type *)
  stdout : list string              (* lines printed so far, oldest first *)
}.

Definition set_files (f : FS -> FS) (w : World) : World :=
  mkWorld (f (files w)) (table w) (clock w) (stdin w) (stdout w).
Definition set_table (f : gmap Path FileRecord -> gmap Path FileRecord) (w : World) : World :=
  mkWorld (files w) (f (table w)) (clock w) (stdin w) (stdout w).
Definition set_clock (f : Z -> Z) (w : World) : World :=
  mkWorld (files w) (table w) (f (clock w)) (stdin w) (stdout w).
Definition set_stdin (f : list string -> list string) (w : World) : World :=
  mkWorld (files w) (table w) (clock w) (f (stdin w)) (stdout w).
Definition set_stdout (f : list string -> list string) (w : World) : World :=
  mkWorld (files w) (table w) (clock w) (stdin w) (f (stdout w)).

Inductive exn :=
  | FileNotFoundError | FileExistsError | IsADirectoryError | NotADirectoryError
  | CrossDeviceError                (* OSError EXDEV *)
  | OSError | SameFileError | ShutilError | ValueError | EOFError.

Definition exn_text (e : exn) : string :=
  match e with
  | FileNotFoundError => "FileNotFoundError"
  | FileExistsError => "FileExistsError"
  | IsADirectoryError => "IsADirectoryError"
  | NotADirectoryError => "NotADirectoryError"
  | CrossDeviceError => "Invalid cross-device link"
  | OSError => "OSError"
  | SameFileError => "SameFileError"
  | ShutilError => "shutil.Error"
  | ValueError => "ValueError"
  | EOFError => "EOFError"
  end.

(** The result of running a piece of the program: a value, a raised
    exception (both with the world they leave), or [Stuck] where the model
    does not describe the run. *)
Inductive Res (A : Type) :=
  | Val (a : A) (w : World)
  | Exc (e : exn) (w : World)
  | Stuck.
Arguments Val {A} a w.
Arguments Exc {A} e w.
Arguments Stuck {A}.

Definition M (A : Type) : Type := World -> Res A.

#[global] Instance M_ret : MRet M := fun A a w => Val a w.
#[global] Instance M_bind : MBind M := fun A B k m w =>
  match m w with
  | Val a w' => k a w'
  | Exc e w' => Exc e w'
  | Stuck => Stuck
  end.

#[global] Instance M_fmap : FMap M := fun A B f m w =>
  match m w with
  | Val a w' => Val (f a) w'
  | Exc e w' => Exc e w'
  | Stuck => Stuck
  end.

Definition raise {A} (e : exn) : M A := fun w => Exc e w.

(** [try: m except Exception as e: h e] *)
Definition try_except {A} (m : M A) (h : exn -> M A) : M A := fun w =>
  match m w with
  | Exc e w' => h e w'
  | r => r
  end.

Definition gets {A} (f : World -> A) : M A := fun w => Val (f w) w.
Definition modify (f : World -> World) : M unit := fun w => Val tt (f w).

(** lift a path computation that raises ValueError *)
Definition or_value_error {A} (o : option A) : M A :=
  match o with Some a => mret a | None => raise ValueError end.

(** [for x in xs: body x] *)
Fixpoint for_each {A} (xs : list A) (body : A -> M unit) : M unit :=
  match xs with
  | [] => mret tt
  | x :: xs' => body x ;; for_each xs' body
  end.

(** ** Configuration and external collaborators *)

(** the flags of [ARGS] the core reads *)
Record Args := mkArgs {
  dry_run : bool;
  confirm : bool;
  no_posters : bool;
  posters_only : bool
}.

(** what [probe_video] parses out of ffprobe's JSON *)
Record ProbeInfo := mkProbe {
  vcodec : option string;
  width : Z;
  height : Z;
  format_name : option string;
  probe_size : Z                     (* key "size" *)
}.

(** what the TMDb search and download come to *)
Inductive PosterResult :=
  | NoMatch
  | NoBytes
  | PosterBytes (data : list byte)
  | PosterError (msg : string).

Definition TEMP_SUFFIX : string := ".transcoding".
Definition VIDEO_EXTS : list string :=
  [".mp4"; ".mkv"; ".avi"; ".m4v"; ".ts"; ".flv"; ".mov"].
Definition TEMP_PATTERNS : list string :=
  [".part"; ".crdownload"; ".!qB"; ".partial"; ".downloading"].
Definition SIZE_STABLE_SECONDS : Z := 30.
Definition HANDBRAKE_PRESET : string := "Fast 480p30".

(** membership of a string in a tuple or set of strings *)
Definition str_in (s : string) (l : list string) : bool :=
  existsb (String.eqb s) l.

(** [status in (...)] for the optional status [status_of] returns *)
Definition status_in (s : option status) (l : list status) : bool :=
  match s with
  | Some x => bool_decide (x ∈ l)
  | None => false
  end.

(** lexicographic order on parts, the order of [sorted] on paths *)
Fixpoint path_leb (p q : Path) : bool :=
  match p, q with
  | [], _ => true
  | _ :: _, [] => false
  | x :: p', y :: q' =>
      match String.compare x y with
      | Lt => true
      | Gt => false
      | Eq => path_leb p' q'
      end
  end.

Fixpoint insert_sorted (p : Path) (l : list Path) : list Path :=
  match l with
  | [] => [p]
  | q :: l' => if path_leb p q then p :: l else q :: insert_sorted p l'
  end.

(** [sorted(paths)] *)
Definition sorted (l : list Path) : list Path := foldr insert_sorted [] l.

(** [d[k] = v] on an insertion-ordered dict *)
Fixpoint dict_set {V} (k : string) (v : V) (d : list (string * V)) : list (string * V) :=
  match d with
  | [] => [(k, v)]
  | (k', v') :: d' => if String.eqb k k' then (k, v) :: d' else (k', v') :: dict_set k v d'
  end.

(** [d.get(k)] *)
Fixpoint dict_get {V} (k : string) (d : list (string * V)) : option V :=
  match d with
  | [] => None
  | (k', v) :: d' => if String.eqb k k' then Some v else dict_get k d'
  end.

(** ** Sample data for the closing examples *)
Module Demo.

Definition bytes (s : string) : list byte := String.list_byte_of_string s.

(** a normal run, a dry run and a run with --confirm, all with
    --no-posters *)
Definition args_run : Args := mkArgs false false true false.
Definition args_dry : Args := mkArgs true false true false.
Definition args_confirm : Args := mkArgs false true true false.

Definition one_device : Path -> nat := fun _ => 0%nat.

(** no other process writes *)
Definition idle : Z -> FS -> FS := fun _ fs => fs.

(** a download client that is still appending to [p] *)
Definition growing (p : Path) : Z -> FS -> FS := fun _ fs =>
  alter (fun n => match n with
                  | File data => File (data ++ bytes "....")
                  | Dir => Dir
                  end) p fs.

Definition probe_unknown : FS -> Path -> option ProbeInfo := fun _ _ => None.
Definition probe_480p : FS -> Path -> option ProbeInfo := fun _ _ =>
  Some (mkProbe (Some "h264") 720 480 (Some "mov,mp4,m4a,3gp,3g2,mj2") 5).
Definition probe_1080p : FS -> Path -> option ProbeInfo := fun _ _ =>
  Some (mkProbe (Some "hevc") 1920 1080 (Some "matroska,webm") 5).

(** an ffprobe that reads mp4 files only *)
Definition probe_mp4 : FS -> Path -> option ProbeInfo := fun _ p =>
  if String.eqb (suffix p) ".mp4"
  then Some (mkProbe (Some "h264") 720 480 (Some "mov,mp4,m4a,3gp,3g2,mj2") 5)
  else None.

(** encoders: one that halves the file, one that inflates it, one that fails *)
Definition encoder_small : FS -> Path -> Path -> Z * option (list byte) :=
  fun _ _ _ => (0%Z, Some (bytes "ab")).
Definition encoder_large : FS -> Path -> Path -> Z * option (list byte) :=
  fun _ _ _ => (0%Z, Some (bytes "abcdefghijkl")).
Definition encoder_fails : FS -> Path -> Path -> Z * option (list byte) :=
  fun _ _ _ => (3%Z, Some (bytes "a")).

Definition no_tmdb : string -> string -> PosterResult := fun _ _ => NoMatch.

(** sets iterated in the order of their elements *)
Definition in_order : World -> gset string -> list string := fun _ s => elements s.

Definition downloads : Path := ["in"].
Definition output : Path := ["out"].
Definition movie : Path := ["in"; "movie.mp4"].
Definition show_dir : Path := ["in"; "ShowA"].
Definition ep1 : Path := ["in"; "ShowA"; "Season 1"; "ep1.avi"].
Definition ep2 : Path := ["in"; "ShowA"; "Season 1"; "ep2.mkv"].

(** the input root holds one movie and one show with a season of two
    episodes and a subtitle file; the output root already holds a
    [movie.mp4] *)
Definition store : FS :=
  list_to_map
    [ ([], Dir); (["in"], Dir); (["out"], Dir);
      (["in"; "movie.mp4"], File (bytes "hello"));
      (["out"; "movie.mp4"], File (bytes "taken"));
      (["in"; "ShowA"], Dir);
      (["in"; "ShowA"; "Season 1"], Dir);
      (["in"; "ShowA"; "Season 1"; "ep1.avi"], File (bytes "episode1"));
      (["in"; "ShowA"; "Season 1"; "ep1.srt"], File (bytes "subs"));
      (["in"; "ShowA"; "Season 1"; "ep2.mkv"], File (bytes "episode2")) ].

Definition world : World := mkWorld store ∅ 1000 [] [].

(** the world once the encoder has left [data] at the temporary path *)
Definition artifact : Path := ["out"; "movie.mp4.transcoding"].
Definition world_encoded (data : list byte) : World :=
  mkWorld (<[artifact := File data]> store) ∅ 1000 [] [].

(** the same world with a status already recorded for the movie *)
Definition world_with (s : status) : World :=
  mkWorld store {[ movie := mkRecord s 900 900 None ]} 1000 [] [].

(** an earlier pass transcoded [ep1.avi]; the file is there again *)
Definition world_later : World :=
  mkWorld store {[ ep1 := mkRecord done_moved 900 900 None ]} 1000 [] [].

(** the operator will type these lines *)
Definition world_typing (lines : list string) : World :=
  mkWorld store ∅ 1000 lines [].

(** a show with a video directly in it and another in a season *)
Definition show_b : Path := ["in"; "ShowB"].
Definition pilot : Path := ["in"; "ShowB"; "pilot.mp4"].
Definition ep_b : Path := ["in"; "ShowB"; "S1"; "ep.avi"].

Definition store_b : FS :=
  list_to_map
    [ ([], Dir); (["in"], Dir); (["out"], Dir);
      (["in"; "ShowB"], Dir);
      (["in"; "ShowB"; "pilot.mp4"], File (bytes "pilot"));
      (["in"; "ShowB"; "S1"], Dir);
      (["in"; "ShowB"; "S1"; "ep.avi"], File (bytes "episode")) ].

Definition world_b : World := mkWorld store_b ∅ 1000 [] [].

(** a tree with a file [a], copied over a target that holds a directory
    [a] *)
Definition store_c : FS :=
  list_to_map
    [ ([], Dir); (["src"], Dir); (["src"; "a"], File (bytes "new"));
      (["dst"], Dir); (["dst"; "a"], Dir) ].

Definition world_c : World := mkWorld store_c ∅ 1000 [] [].

End Demo.

Section NomadManager.

(** the global [ARGS] *)
Variable ARGS : Args.
(** the mounted file system a directory lives on *)
Variable device : Path -> nat.
(** what other processes (the download client) do to the store during a
    sleep that starts at the given time *)
Variable downloader : Z -> FS -> FS.
(** [probe_video]: ffprobe run on a file and parsed; [None] is "unknown" *)
Variable ffprobe : FS -> Path -> option ProbeInfo.
(** HandBrakeCLI run on source and target: its exit code and the bytes it
    leaves at the target, if any *)
Variable HandBrakeCLI : FS -> Path -> Path -> Z * option (list byte).
(** the TMDb search and poster download for an API key and a title *)
Variable tmdb : string -> string -> PosterResult.
(** the order in which Python iterates a set of strings at a point of the
    run: some order of its elements, fixed by the hashes *)
Variable set_order : World -> gset string -> list string.

(** *** Operating system primitives *)

(** the world with one more line on the terminal (the time stamp that
    [log] puts in front of the line is left out) *)
Definition logged (msg : string) (w : World) : World :=
  set_stdout (fun o => o ++ [msg]) w.

Definition log (msg : string) : M unit := modify (logged msg).

(** the world after a sleep: the clock has advanced and the other
    processes have done their writing *)
Definition slept (secs : Z) (w : World) : World :=
  set_clock (Z.add secs) (set_files (downloader (clock w)) w).

(** [time.sleep(secs)]: ValueError for a negative length *)
Definition sleep (secs : Z) : M unit :=
  if (secs <? 0)%Z then raise ValueError else modify (slept secs).

(** [input(prompt)] *)
Definition input (prompt : string) : M string := fun w =>
  let w1 := set_stdout (fun o => o ++ [prompt]) w in
  match stdin w with
  | [] => Exc EOFError w1
  | l :: ls => Val l (set_stdin (fun _ => ls) w1)
  end.

(** [p.stat().st_size]: a missing path below a regular file is ENOTDIR,
    any other missing path ENOENT *)
Definition stat_size (p : Path) : M Z := fun w =>
  match files w !! p with
  | Some n => Val (Fs.size_of n) w
  | None =>
      if Fs.below_file (files w) p then Exc NotADirectoryError w
      else Exc FileNotFoundError w
  end.

Definition path_exists (p : Path) : M bool := gets (fun w => Fs.exists_ (files w) p).

(** [p.unlink()] *)
Definition unlink (p : Path) : M unit := fun w =>
  match files w !! p with
  | Some (File _) => Val tt (set_files (delete p) w)
  | Some Dir => Exc IsADirectoryError w
  | None => Exc FileNotFoundError w
  end.

(** [src.rename(dst)], POSIX rename(2) *)
Definition rename (src dst : Path) : M unit := fun w =>
  let fs := files w in
  match fs !! src with
  | None => Exc FileNotFoundError w
  | Some n =>
      if negb (Fs.is_dir fs (parent dst)) then Exc FileNotFoundError w
      else if negb (device (parent src) =? device (parent dst))%nat then Exc CrossDeviceError w
      else
        match n, fs !! dst with
        | File _, Some Dir => Exc IsADirectoryError w
        | Dir, Some (File _) => Exc NotADirectoryError w
        | File _, _ => Val tt (set_files (fun f => <[dst := n]> (delete src f)) w)
        | Dir, _ =>
            if bool_decide (src = dst) then Val tt w
            else if Fs.comparable src dst then Exc OSError w
            else if negb (bool_decide (Fs.children fs dst = [])) then Exc OSError w
            else Val tt (set_files (fun f => Fs.graft (Fs.prune f src) dst (Fs.subtree f src)) w)
        end
  end.

(** [shutil.copy2(src, dst)] *)
Definition copy2 (src dst : Path) : M unit := fun w =>
  let fs := files w in
  let dst := if Fs.is_dir fs dst then div dst (name src) else dst in
  match fs !! src with
  | None => Exc FileNotFoundError w
  | Some Dir => Exc IsADirectoryError w
  | Some (File data) =>
      if bool_decide (src = dst) then Exc SameFileError w
      else if Fs.is_dir fs dst then Exc IsADirectoryError w
      else if negb (Fs.is_dir fs (parent dst)) then Exc FileNotFoundError w
      else Val tt (set_files (insert dst (File data)) w)
  end.

(** [p.mkdir(parents=True, exist_ok=True)] *)
Definition ensure_dir (p : Path) : M unit := fun w =>
  let fs := files w in
  if existsb (Fs.is_file fs) (ancestors p) then Exc NotADirectoryError w
  else if Fs.is_file fs p then Exc FileExistsError w
  else Val tt (set_files (fun f => Fs.mkdirs f p) w).

(** [shutil.copytree(src, dst, dirs_exist_ok=True)].  The walk descends
    into directories only; a directory is made where none is, a file is
    written by [copy2] (over a file, or inside a directory that stands in
    its place); what cannot be copied is collected and raised as
    [shutil.Error] after everything else was copied.  The tree is read as
    it stands at the call, which is what shutil does when neither path lies
    inside the other; the overlapping case is not modelled. *)
Definition copytree (src dst : Path) : M unit := fun w =>
  let fs := files w in
  match fs !! src with
  | None => Exc FileNotFoundError w
  | Some (File _) => Exc NotADirectoryError w
  | Some Dir =>
      if Fs.comparable src dst then Stuck
      else if existsb (Fs.is_file fs) (ancestors dst) then Exc NotADirectoryError w
      else if Fs.is_file fs dst then Exc FileExistsError w
      else
        let ents := Fs.walk fs src in
        let free := fun '(rel, n) => negb (Fs.blocked (Fs.mkdirs fs dst) dst rel n) in
        let w' := set_files (fun f => Fs.lay (Fs.mkdirs f dst) dst (List.filter free ents)) w in
        if forallb free ents then Val tt w' else Exc ShutilError w'
  end.

(** [p.iterdir()] *)
Definition iterdir (d : Path) : M (list Path) := fun w =>
  match files w !! d with
  | Some Dir => Val (Fs.children (files w) d) w
  | Some (File _) => Exc NotADirectoryError w
  | None => Exc FileNotFoundError w
  end.

(** [p.rglob("*")] *)
Definition rglob (d : Path) : M (list Path) :=
  gets (fun w => if Fs.is_dir (files w) d then Fs.descendants (files w) d else []).

Definition is_file (p : Path) : M bool := gets (fun w => Fs.is_file (files w) p).
Definition is_dir (p : Path) : M bool := gets (fun w => Fs.is_dir (files w) p).

(** [p.is_file() and p.suffix.lower() in VIDEO_EXTS] *)
Definition is_video (fs : FS) (p : Path) : bool :=
  Fs.is_file fs p && str_in (Str.lower (suffix p)) VIDEO_EXTS.

(** *** UTIL *)

(** [dest.with_name(f"{base}_{i}{suf}")] with [base], [suf] the stem and
    the suffix of [dest] *)
Definition candidate (dest : Path) (i : nat) : Path :=
  parent dest ++ [stem dest +:+ "_" +:+ pretty i +:+ suffix dest].

(** the [while True] of [unique_dest], entered with counter [i] *)
Fixpoint unique_dest_loop (fs : FS) (dest : Path) (fuel i : nat) : option Path :=
  match fuel with
  | O => None
  | S k =>
      let cand := candidate dest i in
      if negb (Fs.exists_ fs cand) then Some cand
      else unique_dest_loop fs dest k (S i)
  end.

(** a store of [n] entries leaves one of the first [n + 1] candidates free,
    so [n + 1] rounds are enough (lemma [unique_dest_loop_total]) *)
Definition unique_dest (dest : Path) : M Path := fun w =>
  let fs := files w in
  if negb (Fs.exists_ fs dest) then Val dest w
  else if String.eqb (name dest) "" then Exc ValueError w
  else
    match unique_dest_loop fs dest (S (size fs)) 1 with
    | Some cand => Val cand w
    | None => Stuck
    end.

Definition is_temporary_name (nm : string) : bool :=
  existsb (fun p => Str.endswith nm p || Str.contains p nm) TEMP_PATTERNS.

(** *** DB *)

(** the INSERT ... ON CONFLICT(path) DO UPDATE of [mark] *)
Definition upsert (path : Path) (s : status) (nt : option string) (w : World) : World :=
  let ts := clock w in
  set_table (fun t =>
    match t !! path with
    | Some r => <[path := mkRecord s (added_at r) ts nt]> t
    | None => <[path := mkRecord s ts ts nt]> t
    end) w.

Definition mark (path : Path) (s : status) (nt : option string) : M unit :=
  modify (upsert path s nt).

Definition status_of (path : Path) : M (option status) :=
  gets (fun w => rec_status <$> table w !! path).

(** *** probing and transcode *)

Definition catch_not_found {A} (a : A) (e : exn) : M A :=
  match e with
  | FileNotFoundError => mret a
  | _ => raise e
  end.

Definition file_is_stable (p : Path) (wait : Z) : M bool :=
  o1 ← try_except (Some <$> stat_size p) (catch_not_found None);
  match o1 with
  | None => mret false
  | Some s1 =>
      sleep wait ;;
      o2 ← try_except (Some <$> stat_size p) (catch_not_found None);
      match o2 with
      | None => mret false
      | Some s2 => mret ((s1 =? s2)%Z && (0 <? s1)%Z)
      end
  end.

Definition probe_video (path : Path) : M (option ProbeInfo) :=
  gets (fun w => ffprobe (files w) path).

Definition should_skip_by_probe (info : option ProbeInfo) : bool :=
  match info with
  | None => false
  | Some info =>
      let fmt := Str.lower (default "" (format_name info)) in
      let v := Str.lower (default "" (vcodec info)) in
      let w := width info in
      Str.contains "mp4" fmt && str_in v ["h264"; "avc1"] && (w <=? 854)%Z
  end.

(** the external encoder at work: it may leave bytes at the target *)
Definition run_handbrake (src dest_tmp : Path) : M Z := fun w =>
  let fs := files w in
  let '(rc, out) := HandBrakeCLI fs src dest_tmp in
  match out with
  | Some data =>
      if Fs.is_dir fs (parent dest_tmp) && negb (Fs.is_dir fs dest_tmp)
      then Val rc (set_files (insert dest_tmp (File data)) w)
      else Val rc w
  | None => Val rc w
  end.

Definition transcode_with_handbrake (src dest_tmp : Path) : M Z :=
  let cmd := ["HandBrakeCLI"; "-i"; str src; "-o"; str dest_tmp;
              "--preset"; HANDBRAKE_PRESET; "-O"] in
  if dry_run ARGS then
    log ("[DRY-RUN] Would run: " +:+ String.concat " " cmd) ;;
    mret 0%Z
  else
    log ("HandBrakeCLI -> " +:+ name src) ;;
    run_handbrake src dest_tmp.

Definition move_safe (src dest_dir : Path) : M Path :=
  ensure_dir dest_dir ;;
  dest ← unique_dest (div dest_dir (name src));
  if dry_run ARGS then
    log ("[DRY-RUN] Would move " +:+ str src +:+ " -> " +:+ str dest) ;;
    mret dest
  else
    try_except (rename src dest)
      (fun _ => copy2 src dest ;;
                try_except (unlink src) (fun _ => mret tt)) ;;
    mret dest.

Definition copy_tree_safe (src_dir dest_dir : Path) : M unit :=
  ensure_dir dest_dir ;;
  if dry_run ARGS then
    log ("[DRY-RUN] Would copy tree " +:+ str src_dir +:+ " -> " +:+ str dest_dir)
  else copytree src_dir dest_dir.

(** *** TMDb poster *)

(** [open(dest, "wb").write(data)] *)
Definition write_file (dest : Path) (data : list byte) : M unit := fun w =>
  if Fs.is_dir (files w) dest then Exc IsADirectoryError w
  else if negb (Fs.is_dir (files w) (parent dest)) then Exc FileNotFoundError w
  else Val tt (set_files (insert dest (File data)) w).

Definition fetch_and_save_show_poster (show_name : string) (out_root : Path)
    (api_key : option string) (downloads_root : Path) (only : bool) : M bool :=
  match api_key with
  | Some key =>
      if String.eqb key "" then
        log ("TMDb key not found; skipping poster for '" +:+ show_name +:+ "'") ;;
        mret false
      else
        match tmdb key show_name with
        | PosterError msg =>
            log ("Poster fetch error for '" +:+ show_name +:+ "': " +:+ msg) ;;
            mret false
        | NoMatch => log ("No TMDb match for '" +:+ show_name +:+ "'") ;; mret false
        | NoBytes => log ("No poster bytes for '" +:+ show_name +:+ "'") ;; mret false
        | PosterBytes data =>
            let dest := div (if only then downloads_root else out_root)
                            (show_name +:+ ".jpg") in
            if dry_run ARGS then
              log ("[DRY-RUN] Would write poster " +:+ str dest) ;; mret true
            else
              try_except
                (ensure_dir (parent dest) ;;
                 write_file dest data ;;
                 log ("Saved poster for '" +:+ show_name +:+ "' -> " +:+ str dest) ;;
                 mret true)
                (fun e =>
                   log ("Poster fetch error for '" +:+ show_name +:+ "': " +:+ exn_text e) ;;
                   mret false)
        end
  | None =>
      log ("TMDb key not found; skipping poster for '" +:+ show_name +:+ "'") ;;
      mret false
  end.

(** *** multi-depth collector *)

(** the videos of one season directory: its own video files, and for each
    of its sub-directories every video file below it *)
Definition season_videos (fs : FS) (d : Path) : list Path :=
  flat_map (fun f =>
              if is_video fs f then [f]
              else if Fs.is_dir fs f then List.filter (is_video fs) (Fs.descendants fs f)
              else [])
           (Fs.children fs d).

Definition collect (fs : FS) (top : Path) : list (string * list Path) :=
  let direct := List.filter (is_video fs) (Fs.children fs top) in
  let out := match direct with [] => [] | _ => dict_set "" direct [] end in
  foldl (fun out d =>
           match season_videos fs d with
           | [] => out
           | vids => dict_set (name d) vids out
           end)
        out (List.filter (Fs.is_dir fs) (Fs.children fs top)).

Definition collect_videos_two_depth (top : Path) : M (list (string * list Path)) :=
  iterdir top ;;
  gets (fun w => collect (files w) top).

(** *** file processing *)

(** [rel_output_path]: the mirror of [src] below the output root, with the
    directory that will hold it made *)
Definition rel_output_path (downloads_root src output_root : Path) : M Path :=
  rel ← or_value_error (relative_to src downloads_root);
  let dest := output_root ++ rel in
  ensure_dir (parent dest) ;;
  mret dest.

(** the [while True] of [ask_confirm]; every round reads one line *)
Fixpoint ask_confirm_loop (fuel : nat) (prompt : string) : M bool :=
  match fuel with
  | O => fun _ => Stuck
  | S k =>
      line ← input (prompt +:+ " [y/N]: ");
      let ans := Str.lower (Str.strip line) in
      if str_in ans ["y"; "yes"] then mret true
      else if str_in ans ["n"; "no"; ""] then mret false
      else ask_confirm_loop k prompt
  end.

Definition ask_confirm (prompt : string) : M bool :=
  if dry_run ARGS then
    log ("[DRY-RUN] would ask: " +:+ prompt +:+ " -> auto-YES") ;;
    mret true
  else fun w => ask_confirm_loop (S (length (stdin w))) prompt w.

(** [output_root / src.relative_to(downloads_root)] *)
Definition mirrored (src downloads_root output_root : Path) : M Path :=
  rel ← or_value_error (relative_to src downloads_root);
  mret (output_root ++ rel).

Definition swallow (m : M unit) : M unit := try_except m (fun _ => mret tt).

(** [process_movie_file] is given block by block, last block first *)

(** lines 289-315: compare the sizes and relocate *)
Definition size_comparison_step (src downloads_root output_root dest_tmp : Path) : M unit :=
  sizes ← try_except
             (orig_size ← stat_size src;
              new_size ← stat_size dest_tmp;
              mret (Some (orig_size, new_size)))
             (fun _ => mark src error (Some "stat_failed") ;; mret None);
  match sizes with
  | None => mret tt
  | Some (orig_size, new_size) =>
      if (orig_size <=? new_size)%Z then
        (if negb (dry_run ARGS) then swallow (unlink dest_tmp) else mret tt) ;;
        m ← mirrored src downloads_root output_root;
        let dest_dir := parent m in
        moved ← move_safe src dest_dir;
        mark src kept_original_moved (Some ("moved original to " +:+ str moved)) ;;
        log ("Kept ORIGINAL (smaller/equal) -> moved to " +:+ str moved)
      else
        m ← mirrored src downloads_root output_root;
        dest_final ← or_value_error (with_suffix m ".mp4");
        taken ← path_exists dest_final;
        dest_final ← (if (taken : bool) then unique_dest dest_final else mret dest_final);
        try_except
          ((if negb (dry_run ARGS) then
              rename dest_tmp dest_final ;;
              swallow (unlink src)
            else mret tt) ;;
           mark src done_moved (Some ("moved transcode to " +:+ str dest_final)) ;;
           log ("Transcode COMPLETE -> " +:+ str dest_final))
          (fun e =>
             mark src error (Some ("move_failed:" +:+ exn_text e)) ;;
             log ("Error moving transcode: " +:+ exn_text e))
  end.

(** lines 273-288: queue, transcode, and handle the encoder's failure *)
Definition transcode_step (src downloads_root output_root : Path) : M unit :=
  mark src queued (Some "ready") ;;
  m ← mirrored src downloads_root output_root;
  dest_tmp ← or_value_error (with_suffix m (".mp4" +:+ TEMP_SUFFIX));
  ensure_dir (parent dest_tmp) ;;
  rc ← transcode_with_handbrake src dest_tmp;
  if negb ((rc : Z) =? 0)%Z then
    mark src error (Some ("handbrake_exit_" +:+ pretty rc)) ;;
    log ("HandBrake failed for " +:+ name src) ;;
    present ← path_exists dest_tmp;
    if (present : bool) then swallow (unlink dest_tmp) else mret tt
  else
    present ← path_exists dest_tmp;
    if negb (present : bool) then
      mark src error (Some "no_output") ;;
      log ("No transcode output for " +:+ name src)
    else size_comparison_step src downloads_root output_root dest_tmp.

(** lines 265-272: probe, and move the original when the skip policy holds *)
Definition probe_step (src downloads_root output_root : Path) : M unit :=
  info ← probe_video src;
  if should_skip_by_probe info then
    m ← mirrored src downloads_root output_root;
    let dest_dir := parent m in
    moved ← move_safe src dest_dir;
    mark src skipped_moved (Some ("moved to " +:+ str moved)) ;;
    log ("SKIPPED BY PROBE -> moved original to " +:+ str moved)
  else transcode_step src downloads_root output_root.

(** lines 261-264: the stability gate *)
Definition stability_gate (src downloads_root output_root : Path) : M unit :=
  log ("Processing file: " +:+ str src) ;;
  stable ← file_is_stable src SIZE_STABLE_SECONDS;
  if negb (stable : bool) then log ("File not stable yet: " +:+ str src)
  else probe_step src downloads_root output_root.

(** line 257: [ARGS.confirm and not ask_confirm(...)] *)
Definition operator_declines (src : Path) : M bool :=
  if confirm ARGS
  then negb <$> ask_confirm ("Process file: " +:+ str src +:+ "?")
  else mret false.

(** lines 254-260: the temp-name gate and the operator's confirmation *)
Definition confirmation_gate (src downloads_root output_root : Path) : M unit :=
  if is_temporary_name (name src) then log ("Skipping temp file " +:+ name src)
  else
    declined ← operator_declines src;
    if (declined : bool) then
      mark src skipped_by_user (Some "user skipped") ;;
      log ("User skipped " +:+ name src)
    else stability_gate src downloads_root output_root.

(** the statuses line 252 returns on *)
Definition gated : list status :=
  [processing; done_moved; skipped_moved; kept_original_moved; copied_season].

Definition process_movie_file (src downloads_root output_root : Path) : M unit :=
  s ← status_of src;
  if status_in s gated then mret tt
  else confirmation_gate src downloads_root output_root.

(** [for x in xs: acc = body acc x], for a loop that updates a local *)
Fixpoint fold_each {A S} (xs : list A) (acc : S) (body : S -> A -> M S) : M S :=
  match xs with
  | [] => mret acc
  | x :: xs' => acc' ← body acc x; fold_each xs' acc' body
  end.

(** the body of both decision loops of [process_show_topdir]: decide one
    video and flag its season when the original was relocated *)
Definition decide_and_flag (downloads_root output_root : Path) (key : string)
    (season_needs_copy : gset string) (vid : Path) : M (gset string) :=
  process_movie_file vid downloads_root output_root ;;
  st ← status_of vid;
  if status_in st [skipped_moved; kept_original_moved]
  then mret ({[key]} ∪ season_needs_copy)
  else mret season_needs_copy.

(** the body of the loop over [mapping.items()] *)
Definition decide_season (downloads_root output_root : Path)
    (season_needs_copy : gset string) (item : string * list Path) : M (gset string) :=
  let '(season_name, videos) := item in
  if String.eqb season_name "" then mret season_needs_copy
  else fold_each videos season_needs_copy
         (decide_and_flag downloads_root output_root season_name).

(** lines 323-338: every video of the grouping goes through the engine *)
Definition decide_all (mapping : list (string * list Path))
    (downloads_root output_root : Path) : M (gset string) :=
  flags ← match dict_get "" mapping with
          | Some vids => fold_each vids ∅ (decide_and_flag downloads_root output_root "")
          | None => mret ∅
          end;
  fold_each mapping flags (decide_season downloads_root output_root).

Definition season_dirs (topdir downloads_root output_root : Path) (sk : string)
    : M (Path * Path) :=
  rel ← or_value_error (relative_to topdir downloads_root);
  if String.eqb sk "" then mret (topdir, output_root ++ rel)
  else mret (div topdir sk, output_root ++ div rel sk).

(** lines 351-352: a video found in the copied tree is stamped *)
Definition stamp (dest_dir f : Path) : M unit :=
  v ← gets (fun w => is_video (files w) f);
  if (v : bool) then mark f copied_season (Some ("season copied to " +:+ str dest_dir))
  else mret tt.

(** lines 340-352, the body for one flagged season *)
Definition copy_season (topdir downloads_root output_root : Path) (sk : string) : M unit :=
  '(src_dir, dest_dir) ← season_dirs topdir downloads_root output_root sk;
  present ← path_exists src_dir;
  if (present : bool) then
    log ("Season-level copy: " +:+ str src_dir +:+ " -> " +:+ str dest_dir) ;;
    copy_tree_safe src_dir dest_dir ;;
    fs ← rglob src_dir;
    for_each fs (stamp dest_dir)
  else mret tt.

Definition consolidate (topdir downloads_root output_root : Path)
    (season_needs_copy : gset string) : M unit := fun w =>
  for_each (set_order w season_needs_copy)
           (copy_season topdir downloads_root output_root) w.

Definition process_show_topdir (topdir downloads_root output_root : Path)
    (tmdb_key : option string) : M unit :=
  log ("Processing show topdir: " +:+ str topdir) ;;
  mapping ← collect_videos_two_depth topdir;
  match mapping with
  | [] => log "No videos found inside; skipping."
  | _ =>
      season_needs_copy ← decide_all mapping downloads_root output_root;
      consolidate topdir downloads_root output_root season_needs_copy ;;
      if negb (no_posters ARGS) && negb (posters_only ARGS) then
        fetch_and_save_show_poster (name topdir) output_root tmdb_key downloads_root false ;;
        mret tt
      else mret tt
  end.

(** *** main scan loop *)

(** the video sampled for a show: the first one of the first group that
    has a video *)
Fixpoint sample_of (mapping : list (string * list Path)) : option Path :=
  match mapping with
  | [] => None
  | (_, v) :: rest =>
      match v with
      | x :: _ => Some x
      | [] => sample_of rest
      end
  end.

(** lines 378-390: a top-level directory *)
Definition scan_show (entry downloads output : Path) (tmdb_key : option string)
    (any_found : bool) : M bool :=
  mapping ← collect_videos_two_depth entry;
  match mapping with
  | [] => mret any_found
  | _ =>
      unstable ← match sample_of mapping with
                 | Some sample => negb <$> file_is_stable sample SIZE_STABLE_SECONDS
                 | None => mret false
                 end;
      if (unstable : bool) then
        log ("Topdir " +:+ name entry +:+ " has unstable files; skipping this pass.") ;;
        mret true
      else
        process_show_topdir entry downloads output tmdb_key ;;
        mret true
  end.

(** lines 367-394: the body of the loop over the sorted top-level entries;
    the local [any_found] is passed through *)
Definition scan_entry (downloads output : Path) (tmdb_key : option string)
    (any_found : bool) (entry : Path) : M bool :=
  if Str.startswith (name entry) "." then mret any_found
  else if posters_only ARGS then
    d ← is_dir entry;
    if (d : bool) then
      declined ← (if confirm ARGS
                  then negb <$> ask_confirm ("Fetch poster for " +:+ name entry +:+ "?")
                  else mret false);
      if (declined : bool) then mret true
      else
        fetch_and_save_show_poster (name entry) output tmdb_key downloads true ;;
        mret true
    else mret any_found
  else if is_temporary_name (name entry) then mret any_found
  else
    d ← is_dir entry;
    if (d : bool) then scan_show entry downloads output tmdb_key any_found
    else
      f ← is_file entry;
      if (f : bool) then
        if negb (str_in (Str.lower (suffix entry)) VIDEO_EXTS) then mret any_found
        else
          process_movie_file entry downloads output ;;
          mret true
      else mret any_found.

(** one round of the [while True] of [scan_and_process], up to the test of
    [one_shot] *)
Definition scan_pass (downloads output : Path) (tmdb_key : option string) : M bool :=
  entries ← iterdir downloads;
  fold_each (sorted entries) false (scan_entry downloads output tmdb_key).

Fixpoint scan_loop (passes : nat) (downloads output : Path) (poll_interval : Z)
    (one_shot : bool) (tmdb_key : option string) : M unit :=
  match passes with
  | O => fun _ => Stuck
  | S k =>
      any_found ← scan_pass downloads output tmdb_key;
      if one_shot then log "One-shot: exiting."
      else
        (if negb (any_found : bool)
         then log ("No candidates found. Sleeping " +:+ pretty poll_interval +:+ "s.")
         else mret tt) ;;
        sleep poll_interval ;;
        scan_loop k downloads output poll_interval one_shot tmdb_key
  end.

(** [scan_and_process]; [passes] bounds the rounds of a loop that
    otherwise only an interrupt ends *)
Definition scan_and_process (passes : nat) (downloads output : Path)
    (poll_interval : Z) (one_shot : bool) (tmdb_key : option string) : M unit :=
  ensure_dir downloads ;;
  ensure_dir output ;;
  log ("Scanning " +:+ str downloads +:+ " -> " +:+ str output) ;;
  scan_loop passes downloads output poll_interval one_shot tmdb_key.

(** ** Vocabulary of the statements *)

(** the policy in the words of the specification *)
Definition is_mp4_variant (info : ProbeInfo) : Prop :=
  Str.contains "mp4" (Str.lower (default "" (format_name info))) = true.
Definition is_h264_avc (info : ProbeInfo) : Prop :=
  let v := Str.lower (default "" (vcodec info)) in v = "h264" \/ v = "avc1".

(** the size a [stat] call samples; [None] is FileNotFoundError *)
Definition sample (w : World) (p : Path) : option Z := Fs.size_of <$> files w !! p.

Definition keeps {A} (R : relation World) (m : M A) : Prop :=
  forall w, match m w with
            | Val _ w' => R w w'
            | Exc _ w' => R w w'
            | Stuck => True
            end.

(** nothing but the terminal and the clock changes *)
Definition same_store : relation World :=
  fun w w' => files w' = files w /\ table w' = table w.
(** the status table does not change *)
Definition same_table : relation World := fun w w' => table w' = table w.
(** no row but the one of [src] changes *)
Definition table_but (src : Path) : relation World :=
  fun w w' => forall p, p <> src -> table w' !! p = table w !! p.

(** the world in which the encoder is started: the file is queued and the
    directory of the temporary artifact exists *)
Definition queued_world (src dest_tmp : Path) (w : World) : World :=
  set_files (fun f => Fs.mkdirs f (parent dest_tmp)) (upsert src queued (Some "ready") w).

(** the video ended as a relocated original *)
Definition relocated_original (w : World) (vid : Path) : Prop :=
  status_in (rec_status <$> table w !! vid) [skipped_moved; kept_original_moved] = true.

(** every video of a grouping *)
Definition all_videos (mapping : list (string * list Path)) : list Path :=
  concat (mapping.*2).

(** the part of a season's paths below the show directory: nothing for
    the empty identifier *)
Definition season_part (sk : string) : Path :=
  if String.eqb sk "" then [] else [sk].

(** the source and the mirrored directory of a season *)
Definition season_src (topdir : Path) (sk : string) : Path := topdir ++ season_part sk.
Definition season_dest (mirror : Path) (sk : string) : Path := mirror ++ season_part sk.

(** the line [copy_season] logs when it copies *)
Definition copy_line (topdir mirror : Path) (sk : string) : string :=
  "Season-level copy: " +:+ str (season_src topdir sk) +:+ " -> " +:+
  str (season_dest mirror sk).

(** what a line typed at the prompt of [ask_confirm] answers *)
Definition answer (line : string) : option bool :=
  let ans := Str.lower (Str.strip line) in
  if str_in ans ["y"; "yes"] then Some true
  else if str_in ans ["n"; "no"; ""] then Some false
  else None.

(** no line of the operator's input is consumed *)
Definition same_stdin : relation World := fun w w' => stdin w' = stdin w.

(** no row takes the status [s] that did not have it *)
Definition no_new (s : status) : relation World :=
  fun w w' => forall p, rec_status <$> table w' !! p = Some s ->
                        rec_status <$> table w !! p = Some s.

(** no row changes but those of paths at or below [d] *)
Definition rows_under (d : Path) : relation World :=
  fun w w' => forall p, ~ d `prefix_of` p -> table w' !! p = table w !! p.

(** no status is written and no entry of the store disappears *)
Definition nothing_lost : relation World :=
  fun w w' => table w' = table w /\
              forall p, is_Some (files w !! p) -> is_Some (files w' !! p).

(** the copy of the entry [n] at [rel] is in place below [dst]: at the
    same relative path, or - a file where a directory stands - inside that
    directory, under its own name *)
Definition landed (fs : FS) (dst rel : Path) (n : node) : Prop :=
  fs !! (dst ++ rel) = Some n \/
  (exists data, n = File data /\ fs !! (dst ++ rel) = Some Dir /\
                fs !! (dst ++ rel ++ [name rel]) = Some n).

(** the store a copy of the tree at [src] over [dst] leaves when it
    returns: the target directory made, every entry the walk reaches written
    where it lands *)
Definition tree_copied (fs : FS) (src dst : Path) : FS :=
  Fs.lay (Fs.mkdirs fs dst) dst (Fs.walk (Fs.mkdirs fs dst) src).

(** every entry of the store is still there, as it was *)
Definition store_kept : relation World :=
  fun w w' => forall p n, files w !! p = Some n -> files w' !! p = Some n.

(** the statuses [process_movie_file] leaves behind when it returns *)
Definition settled : list status :=
  [skipped_by_user; skipped_moved; kept_original_moved; done_moved; error].

(** a store as a file system has it: every entry lies in a directory of the
    store, and no part of a path is empty *)
Definition well_formed (fs : FS) : bool :=
  forallb (fun '(p, _) => forallb (Fs.is_dir fs) (ancestors p) &&
                          forallb (fun x => negb (String.eqb x "")) p)
          (map_to_list fs).

(** ** Running the monad *)

Lemma bind_val {A B} (m : M A) (k : A -> M B) w a w' :
  m w = Val a w' -> (m ≫= k) w = k a w'.
Proof. unfold mbind, M_bind. intros ->. reflexivity. Qed.

Lemma bind_inv {A B} (m : M A) (k : A -> M B) w b w2 :
  (m ≫= k) w = Val b w2 -> exists a w1, m w = Val a w1 /\ k a w1 = Val b w2.
Proof.
  unfold mbind, M_bind. destruct (m w) as [a w1|e w1|]; try discriminate.
  intros H. exists a, w1. split; [reflexivity | exact H].
Qed.

Ltac run := unfold mbind, M_bind, mret, M_ret, fmap, M_fmap, try_except, gets, modify,
              raise, swallow, or_value_error in *; simpl in *.

(** ** The skip policy (section 4.2) *)

Lemma should_skip_iff (info : option ProbeInfo) :
  should_skip_by_probe info = true <->
  exists i, info = Some i /\ is_mp4_variant i /\ is_h264_avc i /\ (width i <= 854)%Z.
Proof.
  unfold should_skip_by_probe, is_mp4_variant, is_h264_avc, str_in.
  destruct info as [i|]; simpl.
  - rewrite !andb_true_iff, !orb_true_iff, !String.eqb_eq, Z.leb_le.
    split.
    + intros [[H1 H2] H3]. exists i. intuition congruence.
    + intros (i' & Heq & H1 & H2 & H3). injection Heq as <-. intuition congruence.
  - split; [discriminate | intros (i & H & _); discriminate].
Qed.

(** ** The Stability Detector (section 4.1) *)

Lemma file_is_stable_run (p : Path) (wait : Z) (w : World) :
  file_is_stable p wait w =
  match files w !! p with
  | None =>
      if Fs.below_file (files w) p then Exc NotADirectoryError w else Val false w
  | Some n1 =>
      if (wait <? 0)%Z then Exc ValueError w
      else
        match files (slept wait w) !! p with
        | None =>
            if Fs.below_file (files (slept wait w)) p
            then Exc NotADirectoryError (slept wait w)
            else Val false (slept wait w)
        | Some n2 => Val ((Fs.size_of n1 =? Fs.size_of n2)%Z && (0 <? Fs.size_of n1)%Z)
                         (slept wait w)
        end
  end.
Proof.
  unfold file_is_stable, stat_size, sleep, catch_not_found.
  unfold mbind, M_bind, mret, M_ret, fmap, M_fmap, try_except, raise, modify.
  destruct (files w !! p) as [n1|]; [|destruct (Fs.below_file (files w) p); reflexivity].
  destruct (wait <? 0)%Z; [reflexivity|].
  destruct (files (slept wait w) !! p) as [n2|]; [reflexivity|].
  destruct (Fs.below_file (files (slept wait w)) p); reflexivity.
Qed.


(** C6. The Stability Detector answers stable exactly when the wait is
    not negative (a negative one makes the sleep raise before the second
    sample) and both samples exist, are equal and are strictly positive.  A
    file missing at either sample, or of size zero, is never reported
    stable.  The detector returns an answer whenever the wait is not
    negative and no regular file stands above the path at either sample;
    a sample of a missing path below a regular file raises instead. *)
Theorem stability_detector_iff (p : Path) (wait : Z) (w : World) :
  ((exists w', file_is_stable p wait w = Val true w') <->
   (0 <= wait)%Z /\
   exists s1 s2, sample w p = Some s1 /\ sample (slept wait w) p = Some s2 /\
                 s1 = s2 /\ (0 < s1)%Z) /\
  (sample w p = None \/ sample (slept wait w) p = None \/
   sample w p = Some 0%Z \/ sample (slept wait w) p = Some 0%Z ->
   forall w', file_is_stable p wait w <> Val true w') /\
  ((0 <= wait)%Z ->
   Fs.below_file (files w) p = false ->
   Fs.below_file (files (slept wait w)) p = false ->
   exists b w', file_is_stable p wait w = Val b w') /\
  (is_Some (sample w p) -> (wait < 0)%Z ->
   file_is_stable p wait w = Exc ValueError w) /\
  (sample w p = None -> Fs.below_file (files w) p = true ->
   file_is_stable p wait w = Exc NotADirectoryError w).
Proof.
  rewrite file_is_stable_run. unfold sample.
  destruct (files w !! p) as [n1|] eqn:E1; cbn [fmap option_fmap option_map].
  - destruct (wait <? 0)%Z eqn:Ew.
    + apply Z.ltb_lt in Ew.
      split; [split; [intros [w' H]; discriminate | intros [H _]; lia]|].
      split; [intros _ w' H; discriminate|].
      split; [intros H; lia|].
      split; [reflexivity | discriminate].
    + apply Z.ltb_ge in Ew.
      destruct (files (slept wait w) !! p) as [n2|] eqn:E2;
        cbn [fmap option_fmap option_map].
      * split; [|split; [|split; [eauto | split; [intros _ H; lia | discriminate]]]].
        -- split.
           ++ intros [w' H]. injection H as H _.
              apply andb_true_iff in H as [H1 H2].
              apply Z.eqb_eq in H1. apply Z.ltb_lt in H2.
              split; [exact Ew|]. exists (Fs.size_of n1), (Fs.size_of n2). auto.
           ++ intros (_ & s1 & s2 & H1 & H2 & H3 & H4).
              injection H1 as <-. injection H2 as <-.
              eexists. f_equal. apply andb_true_iff.
              split; [apply Z.eqb_eq, H3 | apply Z.ltb_lt, H4].
        -- intros Hcase w' H. injection H as H _.
           apply andb_true_iff in H as [H1 H2].
           apply Z.eqb_eq in H1. apply Z.ltb_lt in H2.
           destruct Hcase as [Hc|[Hc|[Hc|Hc]]]; try discriminate;
             injection Hc as Hc; lia.
      * split; [|split; [|split; [|split; [intros _ H; lia | discriminate]]]].
        -- split.
           ++ intros [w' H]. destruct (Fs.below_file _ _); discriminate.
           ++ intros (_ & s1 & s2 & _ & H & _). discriminate.
        -- intros _ w' H. destruct (Fs.below_file _ _); discriminate.
        -- intros _ _ ->. eauto.
  - split; [|split; [|split; [|split]]].
    + split.
      * intros [w' H]. destruct (Fs.below_file _ _); discriminate.
      * intros (_ & s1 & s2 & H & _). discriminate.
    + intros _ w' H. destruct (Fs.below_file _ _); discriminate.
    + intros _ -> _. eauto.
    + intros [x H]. discriminate.
    + intros _ ->. reflexivity.
Qed.


(** ** Frame reasoning: a relation that every step of a run maintains *)

Section Keeps.
Context (R : relation World) `{!Reflexive R, !Transitive R}.

Lemma keeps_ret {A} (a : A) : keeps R (mret a).
Proof. intros w. simpl. reflexivity. Qed.

Lemma keeps_raise {A} (e : exn) : keeps R (@raise A e).
Proof. intros w. simpl. reflexivity. Qed.

Lemma keeps_gets {A} (f : World -> A) : keeps R (gets f).
Proof. intros w. simpl. reflexivity. Qed.

Lemma keeps_bind {A B} (m : M A) (k : A -> M B) :
  keeps R m -> (forall a, keeps R (k a)) -> keeps R (m ≫= k).
Proof.
  intros Hm Hk w. unfold mbind, M_bind. specialize (Hm w).
  destruct (m w) as [a w1|e w1|]; auto.
  specialize (Hk a w1). destruct (k a w1); auto; etransitivity; eauto.
Qed.

Lemma keeps_fmap {A B} (f : A -> B) (m : M A) : keeps R m -> keeps R (f <$> m).
Proof.
  intros Hm w. unfold fmap, M_fmap. specialize (Hm w). destruct (m w); auto.
Qed.

Lemma keeps_try {A} (m : M A) (h : exn -> M A) :
  keeps R m -> (forall e, keeps R (h e)) -> keeps R (try_except m h).
Proof.
  intros Hm Hh w. unfold try_except. specialize (Hm w).
  destruct (m w) as [a w1|e w1|]; auto.
  specialize (Hh e w1). destruct (h e w1); auto; etransitivity; eauto.
Qed.

Lemma keeps_or_value_error {A} (o : option A) : keeps R (or_value_error o).
Proof. destruct o; [apply keeps_ret | apply keeps_raise]. Qed.

Lemma keeps_for_each {A} (xs : list A) (body : A -> M unit) :
  (forall x, keeps R (body x)) -> keeps R (for_each xs body).
Proof.
  intros Hb. induction xs as [|x xs IH]; simpl.
  - apply keeps_ret.
  - apply keeps_bind; auto.
Qed.

(** a loop over a list read off the world it starts in *)
Lemma keeps_for_each_at {A} (xs : World -> list A) (body : A -> M unit) :
  (forall x, keeps R (body x)) -> keeps R (fun w => for_each (xs w) body w).
Proof. intros Hb w. apply (keeps_for_each (xs w) body Hb w). Qed.

Lemma keeps_fold_each {A S} (xs : list A) (acc : S) (body : S -> A -> M S) :
  (forall s x, keeps R (body s x)) -> keeps R (fold_each xs acc body).
Proof.
  intros Hb. revert acc. induction xs as [|x xs IH]; intros acc; simpl.
  - apply keeps_ret.
  - apply keeps_bind; auto.
Qed.

Lemma keeps_val {A} (m : M A) w a w' : keeps R m -> m w = Val a w' -> R w w'.
Proof. intros Hm E. specialize (Hm w). rewrite E in Hm. exact Hm. Qed.
End Keeps.

Lemma keeps_mono {A} (R1 R2 : relation World) (m : M A) :
  (forall w w', R1 w w' -> R2 w w') -> keeps R1 m -> keeps R2 m.
Proof. intros H Hm w. specialize (Hm w). destruct (m w); auto. Qed.

(** structural steps of a frame proof *)
Ltac keeps_step :=
  lazymatch goal with
  | |- keeps _ (mret _) => apply keeps_ret
  | |- keeps _ (raise _) => apply keeps_raise
  | |- keeps _ (gets _) => apply keeps_gets
  | |- keeps _ (or_value_error _) => apply keeps_or_value_error
  | |- keeps _ (mbind _ _) => apply keeps_bind; [| |intros]
  | |- keeps _ (try_except _ _) => apply keeps_try; [| |intros]
  | |- keeps _ (swallow _) => unfold swallow
  | |- keeps _ (fmap _ _) => apply keeps_fmap
  | |- keeps _ (for_each _ _) => apply keeps_for_each; [| |intros]
  | |- keeps _ (fun w => for_each _ _ w) => apply keeps_for_each_at; [| |intros]
  | |- keeps _ (fold_each _ _ _) => apply keeps_fold_each; [| |intros]
  | |- keeps _ (if ?b then _ else _) => destruct b
  | |- keeps _ (match ?x with _ => _ end) => destruct x
  end;
  try exact _.

#[local] Instance same_store_refl : Reflexive same_store.
Proof. intros w. split; reflexivity. Qed.
#[local] Instance same_store_trans : Transitive same_store.
Proof. intros a b c [H1 H2] [H3 H4]. split; congruence. Qed.
#[local] Instance same_table_refl : Reflexive same_table.
Proof. intros w. reflexivity. Qed.
#[local] Instance same_table_trans : Transitive same_table.
Proof. intros a b c H1 H2. unfold same_table in *. congruence. Qed.
#[local] Instance table_but_refl src : Reflexive (table_but src).
Proof. intros w p _. reflexivity. Qed.
#[local] Instance table_but_trans src : Transitive (table_but src).
Proof. intros a b c H1 H2 p Hp. rewrite H2, H1; auto. Qed.

Lemma same_table_but src w w' : same_table w w' -> table_but src w w'.
Proof. intros H p _. rewrite H. reflexivity. Qed.

Lemma same_store_table w w' : same_store w w' -> same_table w w'.
Proof. intros [_ H]. exact H. Qed.

Lemma log_same_store msg : keeps same_store (log msg).
Proof. intros w. split; reflexivity. Qed.

Lemma input_same_store prompt : keeps same_store (input prompt).
Proof. intros w. unfold input. destruct (stdin w); split; reflexivity. Qed.

Lemma ask_confirm_loop_same_store fuel prompt :
  keeps same_store (ask_confirm_loop fuel prompt).
Proof.
  induction fuel as [|k IH]; simpl.
  - intros w. exact I.
  - keeps_step; [apply input_same_store|].
    repeat keeps_step. exact IH.
Qed.

Lemma ask_confirm_same_store prompt : keeps same_store (ask_confirm prompt).
Proof.
  unfold ask_confirm. destruct (dry_run ARGS).
  - keeps_step; [apply log_same_store|]. keeps_step.
  - intros w. apply ask_confirm_loop_same_store.
Qed.

Lemma operator_declines_same_store src : keeps same_store (operator_declines src).
Proof.
  unfold operator_declines. destruct (confirm ARGS).
  - keeps_step. apply ask_confirm_same_store.
  - keeps_step.
Qed.

(** the operator is asked by a loop that always ends: each round consumes
    a line, and the end of input raises EOFError *)
Lemma ask_confirm_loop_total prompt w fuel :
  (length (stdin w) < fuel)%nat -> ask_confirm_loop fuel prompt w <> Stuck.
Proof.
  revert w. induction fuel as [|k IH]; intros w Hlen; [lia|].
  simpl. unfold mbind, M_bind, input.
  destruct (stdin w) as [|l ls] eqn:E; [discriminate|].
  repeat case_match; try discriminate.
  apply IH. simpl in *. lia.
Qed.


(** *** Steps that leave the status table alone *)

Ltac prim_same_table :=
  let w := fresh "w" in
  intros w; unfold same_table; cbv beta delta
    [sleep stat_size path_exists unlink rename copy2 ensure_dir copytree iterdir rglob
     is_file is_dir unique_dest run_handbrake write_file probe_video log gets modify raise];
  simpl; repeat case_match; simplify_eq; simpl; try reflexivity; try exact I.

Lemma sleep_same_table secs : keeps same_table (sleep secs).
Proof. prim_same_table. Qed.
Lemma log_same_table msg : keeps same_table (log msg).
Proof. prim_same_table. Qed.
Lemma stat_size_same_table p : keeps same_table (stat_size p).
Proof. prim_same_table. Qed.
Lemma path_exists_same_table p : keeps same_table (path_exists p).
Proof. prim_same_table. Qed.
Lemma unlink_same_table p : keeps same_table (unlink p).
Proof. prim_same_table. Qed.
Lemma rename_same_table a b : keeps same_table (rename a b).
Proof. prim_same_table. Qed.
Lemma copy2_same_table a b : keeps same_table (copy2 a b).
Proof. prim_same_table. Qed.
Lemma ensure_dir_same_table p : keeps same_table (ensure_dir p).
Proof. prim_same_table. Qed.
Lemma copytree_same_table a b : keeps same_table (copytree a b).
Proof. prim_same_table. Qed.
Lemma iterdir_same_table p : keeps same_table (iterdir p).
Proof. prim_same_table. Qed.
Lemma rglob_same_table p : keeps same_table (rglob p).
Proof. prim_same_table. Qed.
Lemma unique_dest_same_table p : keeps same_table (unique_dest p).
Proof. prim_same_table. Qed.
Lemma run_handbrake_same_table a b : keeps same_table (run_handbrake a b).
Proof. prim_same_table. Qed.
Lemma write_file_same_table p d : keeps same_table (write_file p d).
Proof. prim_same_table. Qed.
Lemma probe_video_same_table p : keeps same_table (probe_video p).
Proof. prim_same_table. Qed.

Lemma ask_confirm_same_table prompt : keeps same_table (ask_confirm prompt).
Proof. eapply keeps_mono; [apply same_store_table | apply ask_confirm_same_store]. Qed.

Lemma operator_declines_same_table src : keeps same_table (operator_declines src).
Proof. eapply keeps_mono; [apply same_store_table | apply operator_declines_same_store]. Qed.

Create HintDb frame.
#[local] Hint Resolve sleep_same_table log_same_table stat_size_same_table
  path_exists_same_table unlink_same_table rename_same_table copy2_same_table
  ensure_dir_same_table copytree_same_table iterdir_same_table rglob_same_table
  unique_dest_same_table run_handbrake_same_table write_file_same_table
  probe_video_same_table ask_confirm_same_table operator_declines_same_table : frame.

Ltac frame := repeat (first [solve [auto with frame] | keeps_step]).

Lemma file_is_stable_same_table p wait : keeps same_table (file_is_stable p wait).
Proof. unfold file_is_stable, catch_not_found. frame. Qed.

Lemma move_safe_same_table src d : keeps same_table (move_safe src d).
Proof. unfold move_safe. frame. Qed.

Lemma copy_tree_safe_same_table a b : keeps same_table (copy_tree_safe a b).
Proof. unfold copy_tree_safe. frame. Qed.

Lemma transcode_same_table a b : keeps same_table (transcode_with_handbrake a b).
Proof. unfold transcode_with_handbrake. frame. Qed.

Lemma poster_same_table nm o k d b :
  keeps same_table (fetch_and_save_show_poster nm o k d b).
Proof. unfold fetch_and_save_show_poster. frame. Qed.

#[local] Hint Resolve file_is_stable_same_table move_safe_same_table
  copy_tree_safe_same_table transcode_same_table poster_same_table : frame.

(** ** The idempotency gate (invariant I1) *)

(** X26. A path whose status is one of the five statuses the gate of
    [process_movie_file] lists ([processing], [done_moved],
    [skipped_moved], [kept_original_moved] and [copied_season]) is left
    alone: the engine returns at once and the world is unchanged.  A path
    in status [error] passes the gate and goes through the remaining gates
    like a path never seen. *)
Theorem idempotency_gate (src dl out : Path) (w : World) (s : status) :
  rec_status <$> table w !! src = Some s ->
  (s ∈ [processing; done_moved; skipped_moved; kept_original_moved; copied_season] ->
   process_movie_file src dl out w = Val tt w) /\
  (s = error ->
   process_movie_file src dl out w = confirmation_gate src dl out w).
Proof.
  intros Hs. unfold process_movie_file, status_of, gets, mbind, M_bind.
  rewrite Hs. simpl. split.
  - intros Hin. rewrite bool_decide_eq_true_2; [reflexivity | exact Hin].
  - intros ->. reflexivity.
Qed.

(** ** The stability gate (step 4 of section 4.6) *)

(** X27. One call of the engine on a file that passes the idempotency
    gate, the temp-name gate and the confirmation gate and is then judged
    unstable stops after a log line: the status table is the one before
    the call, so the row of the file is absent or unchanged, and the
    idempotency gate would let the file through again. *)
Theorem unstable_leaves_no_status (src dl out : Path) (w wc w' : World) :
  status_in (rec_status <$> table w !! src) gated = false ->
  is_temporary_name (name src) = false ->
  operator_declines src w = Val false wc ->
  file_is_stable src SIZE_STABLE_SECONDS
    (logged ("Processing file: " +:+ str src) wc) = Val false w' ->
  let w'' := logged ("File not stable yet: " +:+ str src) w' in
  process_movie_file src dl out w = Val tt w'' /\
  table w'' = table w /\
  status_in (rec_status <$> table w'' !! src) gated = false.
Proof.
  intros Hgate Htemp Hconf Hstab w''.
  assert (Ht : table w'' = table w).
  { apply (keeps_val _ _ _ _ _ (operator_declines_same_table src)) in Hconf.
    apply (keeps_val _ _ _ _ _ (file_is_stable_same_table _ _)) in Hstab.
    unfold same_table in *. subst w''. simpl in *. congruence. }
  split; [|split; [exact Ht | rewrite Ht; exact Hgate]].
  unfold process_movie_file, status_of, gets, mbind, M_bind.
  rewrite Hgate. unfold confirmation_gate. rewrite Htemp.
  unfold mbind, M_bind. rewrite Hconf.
  unfold stability_gate, mbind, M_bind, log, modify.
  rewrite Hstab. reflexivity.
Qed.


(** ** Collision-safe naming (section 4.4) *)

Lemma str_app_cons c a s : String c a +:+ s = String c (a +:+ s).
Proof. reflexivity. Qed.

Lemma str_app_length a s :
  String.length (a +:+ s) = (String.length a + String.length s)%nat.
Proof.
  induction a as [|c a IH]; [reflexivity|].
  rewrite str_app_cons. simpl. rewrite IH. reflexivity.
Qed.

Lemma str_app_inv_tail a b s : a +:+ s = b +:+ s -> a = b.
Proof.
  revert b. induction a as [|c a IH]; intros [|d b] H.
  - reflexivity.
  - apply (f_equal String.length) in H.
    change ("" +:+ s) with s in H. rewrite str_app_cons in H. simpl in H.
    rewrite str_app_length in H. lia.
  - apply (f_equal String.length) in H.
    change ("" +:+ s) with s in H. rewrite str_app_cons in H. simpl in H.
    rewrite str_app_length in H. lia.
  - rewrite !str_app_cons in H. injection H as -> H. f_equal. apply IH, H.
Qed.

(** different counters give different candidates *)
Lemma candidate_inj dest : Inj (=) (=) (candidate dest).
Proof.
  intros i j H. unfold candidate in H.
  apply app_inv_head in H. injection H as H.
  apply (inj (String.app _)) in H. apply (inj (String.app _)) in H.
  apply str_app_inv_tail in H. apply (inj pretty) in H. exact H.
Qed.

Lemma candidate_parent dest i : parent (candidate dest i) = parent dest.
Proof. unfold candidate, parent. apply removelast_last. Qed.

Lemma exists_true fs p : Fs.exists_ fs p = true <-> is_Some (fs !! p).
Proof. unfold Fs.exists_. destruct (fs !! p); split; intros H; eauto; try discriminate.
       destruct H; discriminate. Qed.

Lemma exists_false fs p : Fs.exists_ fs p = false <-> fs !! p = None.
Proof. unfold Fs.exists_. destruct (fs !! p); split; intros H; eauto; discriminate. Qed.

(** the loop gives up only when every candidate it tried is taken *)
Lemma unique_dest_loop_none fs dest fuel i :
  unique_dest_loop fs dest fuel i = None ->
  forall j, (i <= j < i + fuel)%nat -> is_Some (fs !! candidate dest j).
Proof.
  revert i. induction fuel as [|k IH]; intros i H j Hj; [lia|].
  simpl in H. destruct (Fs.exists_ fs (candidate dest i)) eqn:E; simpl in H; [|discriminate].
  destruct (decide (j = i)) as [->|Hne].
  - apply exists_true, E.
  - apply (IH (S i)); [exact H | lia].
Qed.

(** what the loop returns is the first free candidate *)
Lemma unique_dest_loop_some fs dest fuel i c :
  unique_dest_loop fs dest fuel i = Some c ->
  exists j, (i <= j)%nat /\ c = candidate dest j /\ fs !! c = None /\
            forall k, (i <= k < j)%nat -> is_Some (fs !! candidate dest k).
Proof.
  revert i. induction fuel as [|n IH]; intros i H; [discriminate|].
  simpl in H. destruct (Fs.exists_ fs (candidate dest i)) eqn:E; simpl in H.
  - destruct (IH _ H) as (j & Hj & -> & Hfree & Hbelow).
    exists j. repeat split; [lia | exact Hfree |].
    intros k Hk. destruct (decide (k = i)) as [->|Hne].
    + apply exists_true, E.
    + apply Hbelow. lia.
  - injection H as <-. exists i. repeat split; [lia | apply exists_false, E |].
    intros k Hk. lia.
Qed.

(** a store of [n] entries cannot hold [n + 1] different candidates *)
Lemma unique_dest_loop_total (fs : FS) dest i :
  is_Some (unique_dest_loop fs dest (S (size fs)) i).
Proof.
  destruct (unique_dest_loop fs dest (S (size fs)) i) as [c|] eqn:E; [eauto|].
  exfalso.
  pose proof (unique_dest_loop_none _ _ _ _ E) as Hall.
  set (l := candidate dest <$> seq i (S (size fs))).
  assert (Hnd : NoDup l).
  { apply (NoDup_fmap_2 (candidate dest) (Inj0 := candidate_inj dest)), NoDup_seq. }
  assert (Hsub : (list_to_set l : gset Path) ⊆ dom fs).
  { intros x Hx. apply elem_of_list_to_set in Hx.
    apply list_elem_of_fmap in Hx as (j & -> & Hj).
    apply elem_of_seq in Hj. apply elem_of_dom, Hall. lia. }
  apply subseteq_size in Hsub.
  rewrite size_list_to_set, size_dom in Hsub by exact Hnd.
  unfold l in Hsub. rewrite length_fmap, length_seq in Hsub. lia.
Qed.

(** [unique_dest] always returns on a path with a name: the path itself
    when it is free, else the first free candidate *)
Lemma unique_dest_spec (dest : Path) (w : World) :
  name dest <> "" ->
  exists c, unique_dest dest w = Val c w /\ files w !! c = None /\
    (c = dest \/
     (is_Some (files w !! dest) /\
      exists i, (1 <= i)%nat /\ c = candidate dest i /\
                forall k, (1 <= k < i)%nat -> is_Some (files w !! candidate dest k))).
Proof.
  intros Hname. unfold unique_dest.
  destruct (Fs.exists_ (files w) dest) eqn:E; cbn [negb].
  - apply String.eqb_neq in Hname. rewrite Hname.
    destruct (unique_dest_loop_total (files w) dest 1) as [c Hc]. rewrite Hc.
    destruct (unique_dest_loop_some _ _ _ _ _ Hc) as (j & Hj & -> & Hfree & Hbelow).
    exists (candidate dest j). repeat split; [exact Hfree|].
    right. split; [apply exists_true, E|]. exists j. auto.
  - exists dest. repeat split; [apply exists_false, E | left; reflexivity].
Qed.


(** ** The Relocation Manager (section 4.4) *)

Lemma ancestors_length (p q : Path) : q ∈ ancestors p -> (length q < length p)%nat.
Proof.
  revert q. induction p as [|x p IH]; intros q Hq; simpl in Hq.
  - inversion Hq.
  - apply elem_of_cons in Hq as [->|Hq]; [simpl; lia|].
    apply list_elem_of_In, in_map_iff in Hq as (q' & <- & Hq').
    apply list_elem_of_In, IH in Hq'. simpl. lia.
Qed.

Lemma mkdirs_lookup (fs : FS) (d q : Path) :
  Fs.mkdirs fs d !! q =
  if decide (q ∈ ancestors d ++ [d]) then Some Dir else fs !! q.
Proof.
  unfold Fs.mkdirs. induction (ancestors d ++ [d]) as [|x l IH]; simpl.
  - destruct (decide (q ∈ [])) as [H|_]; [inversion H | reflexivity].
  - destruct (decide (x = q)) as [->|Hne].
    + rewrite lookup_insert_eq. rewrite decide_True; [reflexivity | left].
    + rewrite lookup_insert_ne by exact Hne. rewrite IH.
      destruct (decide (q ∈ l)) as [Hin|Hnin].
      * rewrite decide_True; [reflexivity | right; exact Hin].
      * rewrite decide_False; [reflexivity|].
        intros [Heq|Hin]%elem_of_cons; [congruence | contradiction].
Qed.

Lemma can_mkdirs_not_file (fs : FS) (d q : Path) :
  Fs.can_mkdirs fs d = true -> q ∈ ancestors d ++ [d] -> Fs.is_file fs q = false.
Proof.
  unfold Fs.can_mkdirs. rewrite andb_true_iff, !negb_true_iff.
  intros [Ha Hd] Hq. apply elem_of_app in Hq as [Hq|Hq].
  - destruct (Fs.is_file fs q) eqn:E; [|reflexivity].
    assert (existsb (Fs.is_file fs) (ancestors d) = true); [|congruence].
    apply existsb_exists. exists q. split; [apply list_elem_of_In, Hq | exact E].
  - apply list_elem_of_singleton in Hq as ->. exact Hd.
Qed.

Lemma can_mkdirs_intro (fs : FS) (d : Path) :
  (forall q, q ∈ ancestors d ++ [d] -> Fs.is_file fs q = false) ->
  Fs.can_mkdirs fs d = true.
Proof.
  intros H. unfold Fs.can_mkdirs. apply andb_true_iff. split; apply negb_true_iff.
  - destruct (existsb (Fs.is_file fs) (ancestors d)) eqn:E; [|reflexivity].
    apply existsb_exists in E as (q & Hq & Hf).
    rewrite H in Hf; [discriminate|].
    apply elem_of_app. left. apply list_elem_of_In, Hq.
  - apply H, elem_of_app. right. apply list_elem_of_singleton. reflexivity.
Qed.

Lemma can_mkdirs_delete (fs : FS) (d p : Path) :
  Fs.can_mkdirs fs d = true -> Fs.can_mkdirs (delete p fs) d = true.
Proof.
  intros H. apply can_mkdirs_intro. intros q Hq.
  pose proof (can_mkdirs_not_file _ _ _ H Hq) as Hf.
  unfold Fs.is_file in *. destruct (decide (p = q)) as [->|Hne].
  - rewrite lookup_delete_eq. reflexivity.
  - rewrite lookup_delete_ne by exact Hne. exact Hf.
Qed.

(** [mkdir -p] keeps every entry of the store *)
Lemma mkdirs_keeps (fs : FS) (d q : Path) (n : node) :
  Fs.can_mkdirs fs d = true -> fs !! q = Some n -> Fs.mkdirs fs d !! q = Some n.
Proof.
  intros Hok Hq. rewrite mkdirs_lookup.
  destruct (decide (q ∈ ancestors d ++ [d])) as [Hin|_]; [|exact Hq].
  pose proof (can_mkdirs_not_file _ _ _ Hok Hin) as Hf.
  unfold Fs.is_file in Hf. rewrite Hq in Hf. destruct n; [discriminate | reflexivity].
Qed.

Lemma mkdirs_is_dir (fs : FS) (d : Path) : Fs.is_dir (Fs.mkdirs fs d) d = true.
Proof.
  unfold Fs.is_dir. rewrite mkdirs_lookup, decide_True; [reflexivity|].
  apply elem_of_app. right. apply list_elem_of_singleton. reflexivity.
Qed.

(** the children of the directory made are those the store already had *)
Lemma mkdirs_child (fs : FS) (d q : Path) :
  (length d < length q)%nat -> Fs.mkdirs fs d !! q = fs !! q.
Proof.
  intros Hlen. rewrite mkdirs_lookup, decide_False; [reflexivity|].
  intros [Hin|Hin]%elem_of_app.
  - apply ancestors_length in Hin. lia.
  - apply list_elem_of_singleton in Hin as ->. lia.
Qed.

Lemma ensure_dir_run (d : Path) (w : World) :
  Fs.can_mkdirs (files w) d = true ->
  ensure_dir d w = Val tt (set_files (fun f => Fs.mkdirs f d) w).
Proof.
  unfold Fs.can_mkdirs, ensure_dir. rewrite andb_true_iff, !negb_true_iff.
  intros [-> ->]. reflexivity.
Qed.

Lemma ensure_dir_inv (d : Path) (w w' : World) :
  ensure_dir d w = Val tt w' ->
  Fs.can_mkdirs (files w) d = true /\ w' = set_files (fun f => Fs.mkdirs f d) w.
Proof.
  unfold Fs.can_mkdirs, ensure_dir.
  destruct (existsb _ _); [discriminate|].
  destruct (Fs.is_file _ _); [discriminate|].
  intros [= <-]. split; reflexivity.
Qed.

Lemma rename_file_run (src dst : Path) (data : list byte) (w : World) :
  files w !! src = Some (File data) ->
  Fs.is_dir (files w) (parent dst) = true ->
  files w !! dst = None ->
  device (parent src) = device (parent dst) ->
  rename src dst w = Val tt (set_files (fun f => <[dst := File data]> (delete src f)) w).
Proof.
  intros Hs Hp Hd Hdev. unfold rename. rewrite Hs, Hp, Hd, Hdev, Nat.eqb_refl.
  reflexivity.
Qed.

Lemma rename_cross_device (src dst : Path) (n : node) (w : World) :
  files w !! src = Some n ->
  Fs.is_dir (files w) (parent dst) = true ->
  device (parent src) <> device (parent dst) ->
  rename src dst w = Exc CrossDeviceError w.
Proof.
  intros Hs Hp Hdev. unfold rename. rewrite Hs, Hp.
  apply Nat.eqb_neq in Hdev. rewrite Hdev. reflexivity.
Qed.

Lemma copy2_run (src dst : Path) (data : list byte) (w : World) :
  files w !! src = Some (File data) ->
  Fs.is_dir (files w) (parent dst) = true ->
  files w !! dst = None ->
  copy2 src dst w = Val tt (set_files (insert dst (File data)) w).
Proof.
  intros Hs Hp Hd. unfold copy2.
  assert (Hnd : Fs.is_dir (files w) dst = false) by (unfold Fs.is_dir; rewrite Hd; reflexivity).
  rewrite Hnd, Hs. rewrite bool_decide_eq_false_2 by congruence.
  rewrite Hnd, Hp. reflexivity.
Qed.

Lemma unlink_run (p : Path) (data : list byte) (w : World) :
  files w !! p = Some (File data) -> unlink p w = Val tt (set_files (delete p) w).
Proof. intros H. unfold unlink. rewrite H. reflexivity. Qed.


Lemma name_snoc (d : Path) (x : string) : name (d ++ [x]) = x.
Proof. unfold name. apply last_last. Qed.

Lemma parent_snoc (d : Path) (x : string) : parent (d ++ [x]) = d.
Proof. unfold parent. apply removelast_last. Qed.

Lemma div_snoc (d : Path) (x : string) : x <> "" -> div d x = d ++ [x].
Proof. intros H. unfold div. apply String.eqb_neq in H. rewrite H. reflexivity. Qed.

(** the name [move_safe] picks in [dest_dir] for a source with a name: it
    is free in the store, before and after [dest_dir] is made *)
Lemma move_safe_dest (src dest_dir : Path) (w : World) :
  name src <> "" ->
  let dest := dest_dir ++ [name src] in
  let w1 := set_files (fun f => Fs.mkdirs f dest_dir) w in
  exists moved,
    unique_dest (div dest_dir (name src)) w1 = Val moved w1 /\
    parent moved = dest_dir /\
    files w !! moved = None /\ files w1 !! moved = None /\
    ((files w !! dest = None /\ moved = dest) \/
     (is_Some (files w !! dest) /\
      exists i, (1 <= i)%nat /\ moved = candidate dest i /\
                forall k, (1 <= k < i)%nat -> is_Some (files w !! candidate dest k))).
Proof.
  intros Hname dest w1. rewrite div_snoc by exact Hname. fold dest.
  assert (Hchild : forall q, parent q = dest_dir -> q <> [] ->
                             files w1 !! q = files w !! q).
  { intros q Hq Hne. unfold w1. simpl. apply mkdirs_child.
    destruct (exists_last Hne) as (q' & x & ->).
    rewrite parent_snoc in Hq. subst q'. rewrite length_app. simpl. lia. }
  assert (Hcand : forall i, files w1 !! candidate dest i = files w !! candidate dest i).
  { intros i. apply Hchild.
    - rewrite candidate_parent. apply parent_snoc.
    - unfold candidate. intros H. symmetry in H. apply app_cons_not_nil in H. exact H. }
  assert (Hdest : files w1 !! dest = files w !! dest).
  { apply Hchild; [apply parent_snoc|].
    unfold dest. intros H. symmetry in H. apply app_cons_not_nil in H. exact H. }
  destruct (unique_dest_spec dest w1) as (c & Hrun & Hfree & Hshape).
  { unfold dest. rewrite name_snoc. exact Hname. }
  exists c. split; [exact Hrun|].
  destruct Hshape as [->|(Htaken & i & Hi & -> & Hbelow)].
  - split; [apply parent_snoc|]. rewrite Hdest in Hfree.
    repeat split; try exact Hfree; [rewrite Hdest; exact Hfree | left; auto].
  - rewrite Hcand in Hfree. rewrite Hdest in Htaken.
    split; [rewrite candidate_parent; apply parent_snoc|].
    repeat split; try exact Hfree; [rewrite Hcand; exact Hfree|].
    right. split; [exact Htaken|]. exists i. repeat split; [exact Hi|].
    intros k Hk. rewrite <- Hcand. apply Hbelow, Hk.
Qed.

(** a real move: the bytes of [src] end at the name picked, by a rename
    or, across devices, by copy and unlink *)
Lemma move_safe_run (src dest_dir : Path) (data : list byte) (w : World) :
  dry_run ARGS = false ->
  files w !! src = Some (File data) ->
  Fs.can_mkdirs (files w) dest_dir = true ->
  name src <> "" ->
  exists moved,
    move_safe src dest_dir w =
      Val moved (set_files (fun f => <[moved := File data]>
                                       (delete src (Fs.mkdirs f dest_dir))) w) /\
    unique_dest (div dest_dir (name src))
      (set_files (fun f => Fs.mkdirs f dest_dir) w) =
      Val moved (set_files (fun f => Fs.mkdirs f dest_dir) w).
Proof.
  intros Hdry Hsrc Hok Hname.
  destruct (move_safe_dest src dest_dir w Hname) as (moved & Hrun & Hpar & _ & Hfree & _).
  exists moved. split; [|exact Hrun].
  unfold move_safe. rewrite Hdry.
  rewrite (bind_val _ _ _ _ _ (ensure_dir_run _ _ Hok)).
  rewrite (bind_val _ _ _ _ _ Hrun).
  set (w1 := set_files (fun f => Fs.mkdirs f dest_dir) w) in *.
  assert (Hsrc1 : files w1 !! src = Some (File data)).
  { unfold w1. simpl. apply mkdirs_keeps; assumption. }
  assert (Hdir : Fs.is_dir (files w1) (parent moved) = true).
  { rewrite Hpar. unfold w1. simpl. apply mkdirs_is_dir. }
  unfold mbind, M_bind, try_except.
  destruct (decide (device (parent src) = device (parent moved))) as [Hdev|Hdev].
  - rewrite (rename_file_run _ _ _ _ Hsrc1 Hdir Hfree Hdev). reflexivity.
  - rewrite (rename_cross_device _ _ _ _ Hsrc1 Hdir Hdev).
    rewrite (copy2_run _ _ _ _ Hsrc1 Hdir Hfree).
    assert (Hne : src <> moved) by (intros ->; congruence).
    erewrite unlink_run.
    2:{ simpl. rewrite lookup_insert_ne by congruence. exact Hsrc1. }
    unfold mret, M_ret, set_files. simpl. f_equal. f_equal.
    apply delete_insert_ne. congruence.
Qed.

(** a dry run picks the name, logs it and moves nothing *)
Lemma move_safe_dry (src dest_dir : Path) (w : World) :
  dry_run ARGS = true ->
  Fs.can_mkdirs (files w) dest_dir = true ->
  name src <> "" ->
  exists moved,
    move_safe src dest_dir w =
      Val moved (logged ("[DRY-RUN] Would move " +:+ str src +:+ " -> " +:+ str moved)
                        (set_files (fun f => Fs.mkdirs f dest_dir) w)) /\
    unique_dest (div dest_dir (name src))
      (set_files (fun f => Fs.mkdirs f dest_dir) w) =
      Val moved (set_files (fun f => Fs.mkdirs f dest_dir) w).
Proof.
  intros Hdry Hok Hname.
  destruct (move_safe_dest src dest_dir w Hname) as (moved & Hrun & _).
  exists moved. split; [|exact Hrun].
  unfold move_safe. rewrite Hdry.
  rewrite (bind_val _ _ _ _ _ (ensure_dir_run _ _ Hok)).
  rewrite (bind_val _ _ _ _ _ Hrun). reflexivity.
Qed.


(** C5. [move_safe] on a regular file with a name, into a directory that
    can be made, returns; the path it returns was free before the call; it
    is [dest_dir / src.name] when that is free, and otherwise the stem with
    the first counter from 1 whose name is free (so [_1] when that one is
    free); every other entry of the store is still there unchanged; and,
    outside a dry run, the bytes of the source are at the returned path and
    the source is gone. *)
Theorem move_safe_never_overwrites (src dest_dir : Path) (data : list byte) (w : World) :
  files w !! src = Some (File data) ->
  Fs.can_mkdirs (files w) dest_dir = true ->
  name src <> "" ->
  let dest := dest_dir ++ [name src] in
  exists moved w',
    move_safe src dest_dir w = Val moved w' /\
    files w !! moved = None /\
    ((files w !! dest = None /\ moved = dest) \/
     (is_Some (files w !! dest) /\
      exists i, (1 <= i)%nat /\ moved = candidate dest i /\
                forall k, (1 <= k < i)%nat -> is_Some (files w !! candidate dest k))) /\
    (is_Some (files w !! dest) -> files w !! candidate dest 1 = None ->
     moved = candidate dest 1) /\
    (forall p n, files w !! p = Some n -> p <> src -> files w' !! p = Some n) /\
    (dry_run ARGS = false ->
     files w' !! moved = Some (File data) /\ files w' !! src = None).
Proof.
  intros Hsrc Hok Hname dest.
  destruct (move_safe_dest src dest_dir w Hname)
    as (moved & Hrun & Hpar & Hfree & Hfree1 & Hshape).
  assert (Hfirst : is_Some (files w !! dest) -> files w !! candidate dest 1 = None ->
                   moved = candidate dest 1).
  { intros Htaken Hone. destruct Hshape as [[Hnone _]|(_ & i & Hi & -> & Hbelow)].
    - fold dest in Hnone. rewrite Hnone in Htaken. destruct Htaken; discriminate.
    - destruct (decide (i = 1%nat)) as [->|Hne]; [reflexivity|].
      assert (Hk : is_Some (files w !! candidate dest 1)) by (apply Hbelow; lia).
      rewrite Hone in Hk. destruct Hk; discriminate. }
  destruct (dry_run ARGS) eqn:Hdry.
  - destruct (move_safe_dry src dest_dir w Hdry Hok Hname) as (moved' & Hmove & Hrun').
    rewrite Hrun in Hrun'. injection Hrun' as <-.
    eexists moved, _. split; [exact Hmove|].
    repeat split; try assumption; try discriminate.
    intros p n Hp _. simpl. apply mkdirs_keeps; assumption.
  - destruct (move_safe_run src dest_dir data w Hdry Hsrc Hok Hname) as (moved' & Hmove & Hrun').
    rewrite Hrun in Hrun'. injection Hrun' as <-.
    eexists moved, _. split; [exact Hmove|].
    assert (Hne : moved <> src) by (intros ->; congruence).
    repeat split; try assumption.
    + intros p n Hp Hps. simpl.
      assert (p <> moved) by (intros ->; congruence).
      rewrite lookup_insert_ne by congruence.
      rewrite lookup_delete_ne by congruence.
      apply mkdirs_keeps; assumption.
    + simpl. apply lookup_insert_eq.
    + simpl. rewrite lookup_insert_ne by exact Hne. apply lookup_delete_eq.
Qed.


(** ** Status writes *)

Lemma upsert_status (p : Path) (s : status) (nt : option string) (w : World) :
  rec_status <$> table (upsert p s nt w) !! p = Some s.
Proof.
  unfold upsert. simpl. destruct (table w !! p); rewrite lookup_insert_eq; reflexivity.
Qed.

Lemma upsert_note (p : Path) (s : status) (nt : option string) (w : World) :
  note <$> table (upsert p s nt w) !! p = Some nt.
Proof.
  unfold upsert. simpl. destruct (table w !! p); rewrite lookup_insert_eq; reflexivity.
Qed.

Lemma upsert_other (p q : Path) (s : status) (nt : option string) (w : World) :
  q <> p -> table (upsert p s nt w) !! q = table w !! q.
Proof.
  intros H. unfold upsert. simpl.
  destruct (table w !! p); rewrite lookup_insert_ne by congruence; reflexivity.
Qed.

Lemma mark_table_but (p : Path) (s : status) (nt : option string) :
  keeps (table_but p) (mark p s nt).
Proof. intros w q Hq. apply upsert_other, Hq. Qed.

(** ** The probe step (step 5 of section 4.6) *)

(** when the skip policy holds, the original is relocated as it is *)
Lemma probe_step_skip_run (src dl out rel : Path) (data : list byte) (w : World) :
  dry_run ARGS = false ->
  should_skip_by_probe (ffprobe (files w) src) = true ->
  relative_to src dl = Some rel ->
  files w !! src = Some (File data) ->
  Fs.can_mkdirs (files w) (parent (out ++ rel)) = true ->
  name src <> "" ->
  exists moved,
    files w !! moved = None /\
    parent moved = parent (out ++ rel) /\
    probe_step src dl out w =
      Val tt (logged ("SKIPPED BY PROBE -> moved original to " +:+ str moved)
               (upsert src skipped_moved (Some ("moved to " +:+ str moved))
                 (set_files (fun f => <[moved := File data]>
                                        (delete src (Fs.mkdirs f (parent (out ++ rel))))) w))).
Proof.
  intros Hdry Hskip Hrel Hsrc Hok Hname.
  destruct (move_safe_run src (parent (out ++ rel)) data w Hdry Hsrc Hok Hname)
    as (moved & Hmove & Hpick).
  destruct (move_safe_dest src (parent (out ++ rel)) w Hname)
    as (moved' & Hpick' & Hpar & Hfree & _).
  rewrite Hpick in Hpick'. injection Hpick' as <-.
  exists moved. split; [exact Hfree|]. split; [exact Hpar|].
  unfold probe_step, probe_video, gets, mbind, M_bind.
  rewrite Hskip. unfold mirrored, mbind, M_bind. rewrite Hrel. simpl.
  rewrite Hmove. reflexivity.
Qed.

(** C3. The skip predicate holds exactly for a known probe result whose
    container format names mp4, whose codec is h264 or avc1, and whose
    width is at most 854.  So it holds for mp4/h264 at width 720, fails at
    width 1920 whatever the codec and container, and fails for an unknown
    result.  When it holds, the probe step moves the original file, bytes
    unchanged, to a free name in the mirrored directory and records
    [skipped_moved]; when it fails, the probe step is the transcode step. *)
Theorem skip_policy :
  (forall info, should_skip_by_probe info = true <->
     exists i, info = Some i /\ is_mp4_variant i /\ is_h264_avc i /\ (width i <= 854)%Z) /\
  (forall h sz, should_skip_by_probe (Some (mkProbe (Some "h264") 720 h (Some "mp4") sz)) = true) /\
  (forall c f h sz, should_skip_by_probe (Some (mkProbe c 1920 h f sz)) = false) /\
  should_skip_by_probe None = false /\
  (forall src dl out rel data w,
     dry_run ARGS = false ->
     should_skip_by_probe (ffprobe (files w) src) = true ->
     relative_to src dl = Some rel ->
     files w !! src = Some (File data) ->
     Fs.can_mkdirs (files w) (parent (out ++ rel)) = true ->
     name src <> "" ->
     exists moved w',
       probe_step src dl out w = Val tt w' /\
       rec_status <$> table w' !! src = Some skipped_moved /\
       files w !! moved = None /\
       parent moved = parent (out ++ rel) /\
       files w' !! moved = Some (File data) /\
       files w' !! src = None) /\
  (forall src dl out w,
     should_skip_by_probe (ffprobe (files w) src) = false ->
     probe_step src dl out w = transcode_step src dl out w).
Proof.
  split; [exact should_skip_iff|].
  split; [reflexivity|].
  split.
  { intros c f h sz. unfold should_skip_by_probe. simpl.
    rewrite andb_false_r. reflexivity. }
  split; [reflexivity|].
  split.
  - intros src dl out rel data w Hdry Hskip Hrel Hsrc Hok Hname.
    destruct (probe_step_skip_run src dl out rel data w Hdry Hskip Hrel Hsrc Hok Hname)
      as (moved & Hfree & Hpar & Hrun).
    eexists moved, _. split; [exact Hrun|].
    assert (Hne : moved <> src) by (intros ->; congruence).
    split; [apply upsert_status|].
    split; [exact Hfree|]. split; [exact Hpar|].
    split; simpl.
    + apply lookup_insert_eq.
    + rewrite lookup_insert_ne by exact Hne. apply lookup_delete_eq.
  - intros src dl out w Hskip.
    unfold probe_step, probe_video, gets, mbind, M_bind. rewrite Hskip. reflexivity.
Qed.


(** ** Paths and prefixes *)

Lemma relative_to_Some (p d r : Path) : relative_to p d = Some r <-> p = d ++ r.
Proof.
  revert p. induction d as [|b d IH]; intros p; destruct p as [|x p]; simpl.
  - split; [intros [= <-]; reflexivity | intros <-; reflexivity].
  - split; [intros [= <-]; reflexivity | intros <-; reflexivity].
  - split; discriminate.
  - destruct (String.eqb b x) eqn:E.
    + apply String.eqb_eq in E. subst x. rewrite IH.
      split; [intros ->; reflexivity | intros [= ->]; reflexivity].
    + apply String.eqb_neq in E. split; [discriminate | intros [= -> ->]; congruence].
Qed.

Lemma relative_to_app (d r : Path) : relative_to (d ++ r) d = Some r.
Proof. apply relative_to_Some. reflexivity. Qed.

Lemma relative_to_None (p d : Path) : relative_to p d = None <-> ~ d `prefix_of` p.
Proof.
  split.
  - intros H [r ->]. rewrite relative_to_app in H. discriminate.
  - intros H. destruct (relative_to p d) as [r|] eqn:E; [|reflexivity].
    exfalso. apply H. apply relative_to_Some in E. exists r. exact E.
Qed.

Lemma with_suffix_inv (p q : Path) (suf : string) :
  with_suffix p suf = Some q -> name p <> "" /\ q = parent p ++ [stem p +:+ suf].
Proof.
  unfold with_suffix. destruct (String.eqb (name p) "") eqn:E; [discriminate|].
  intros [= <-]. split; [apply String.eqb_neq, E | reflexivity].
Qed.

Lemma with_suffix_some (p : Path) (suf : string) :
  name p <> "" -> with_suffix p suf = Some (parent p ++ [stem p +:+ suf]).
Proof.
  intros H. unfold with_suffix. apply String.eqb_neq in H. rewrite H. reflexivity.
Qed.

(** ** The temporary path is not the source *)

Lemma rfind_dot_app (a b : string) :
  Str.rfind_dot (a +:+ b) =
  match Str.rfind_dot b with
  | Some j => Some (String.length a + j)%nat
  | None => Str.rfind_dot a
  end.
Proof.
  induction a as [|c a IH].
  { change ("" +:+ b) with b. destruct (Str.rfind_dot b); reflexivity. }
  rewrite str_app_cons. simpl. rewrite IH.
  destruct (Str.rfind_dot b); [reflexivity|]. reflexivity.
Qed.

Lemma take_length (i : nat) (s : string) :
  String.length (Str.take i s) = Nat.min i (String.length s).
Proof.
  unfold Str.take. revert s. induction i as [|i IH]; intros s.
  - destruct s; reflexivity.
  - destruct s as [|c s]; [reflexivity|]. simpl. rewrite IH. reflexivity.
Qed.

(** a name is never its own stem followed by [.mp4.transcoding] *)
Lemma temp_name_differs (nm : string) : nm <> stem_of nm +:+ ".mp4.transcoding".
Proof.
  intros H. unfold stem_of, split_at in H.
  destruct (Str.rfind_dot nm) as [i|] eqn:Ei.
  - destruct ((0 <? i)%nat && (i <? String.length nm - 1)%nat) eqn:Ec.
    + pose proof (f_equal Str.rfind_dot H) as Hr.
      rewrite rfind_dot_app, Ei in Hr. simpl in Hr. injection Hr as Hr.
      pose proof (f_equal String.length H) as Hl.
      rewrite str_app_length in Hl. simpl in Hl.
      rewrite take_length in Hr, Hl. lia.
    + apply (f_equal String.length) in H. rewrite str_app_length in H. simpl in H. lia.
  - apply (f_equal String.length) in H. rewrite str_app_length in H. simpl in H. lia.
Qed.

(** for a file strictly inside the input root, the temporary path of its
    transcode is another path *)
Lemma temp_path_differs (src dl out rel dest_tmp : Path) :
  relative_to src dl = Some rel ->
  rel <> [] ->
  with_suffix (out ++ rel) (".mp4" +:+ TEMP_SUFFIX) = Some dest_tmp ->
  src <> dest_tmp.
Proof.
  intros Hrel Hnil Hsuf.
  apply relative_to_Some in Hrel. rewrite Hrel. clear Hrel.
  apply with_suffix_inv in Hsuf as [_ Hsuf]. rewrite Hsuf. clear Hsuf.
  destruct (exists_last Hnil) as (rel' & x & ->).
  rewrite !app_assoc. unfold stem. rewrite parent_snoc, name_snoc.
  intros Heq. apply app_inj_tail in Heq as [_ Heq].
  exact (temp_name_differs x Heq).
Qed.

(** ... and no name [move_safe] can pick for the original is the temporary
    name *)
Lemma moved_name_differs (dest_dir : Path) (x : string) (moved : Path) :
  moved = dest_dir ++ [x] \/ (exists i, moved = candidate (dest_dir ++ [x]) i) ->
  moved <> dest_dir ++ [stem_of x +:+ ".mp4.transcoding"].
Proof.
  intros [->|[i ->]] H.
  - apply app_inv_head in H. injection H as H. exact (temp_name_differs x H).
  - unfold candidate, stem, suffix in H. rewrite parent_snoc, name_snoc in H.
    apply app_inv_head in H. injection H as H.
    apply (inj (String.app _)) in H. discriminate.
Qed.

(** ** The transcode step (step 6 of section 4.6) *)

(** the encoder writes at its target and nowhere else *)
Lemma transcode_writes_target (src dest_tmp : Path) (w w' : World) (rc : Z) :
  transcode_with_handbrake src dest_tmp w = Val rc w' ->
  table w' = table w /\
  forall p, p <> dest_tmp -> files w' !! p = files w !! p.
Proof.
  unfold transcode_with_handbrake, run_handbrake, log, modify, mbind, M_bind, mret, M_ret.
  destruct (dry_run ARGS); simpl.
  - intros [= _ <-]. split; [reflexivity | intros p _; reflexivity].
  - destruct (HandBrakeCLI _ _ _) as [rc' [data|]];
      [destruct (Fs.is_dir _ _ && negb (Fs.is_dir _ _))|];
      intros [= _ <-]; (split; [reflexivity|]); intros p Hp; simpl;
      [rewrite lookup_insert_ne by congruence| |]; reflexivity.
Qed.

Lemma transcode_returns (src dest_tmp : Path) (w : World) :
  exists rc w', transcode_with_handbrake src dest_tmp w = Val rc w'.
Proof.
  unfold transcode_with_handbrake, run_handbrake, log, modify, mbind, M_bind, mret, M_ret.
  destruct (dry_run ARGS); simpl; [eauto|].
  destruct (HandBrakeCLI _ _ _) as [rc' [data|]];
    [destruct (Fs.is_dir _ _ && negb (Fs.is_dir _ _))|]; eauto.
Qed.

Lemma mirrored_run (src dl out rel : Path) (w : World) :
  relative_to src dl = Some rel -> mirrored src dl out w = Val (out ++ rel) w.
Proof. intros H. unfold mirrored. rewrite H. reflexivity. Qed.

Lemma transcode_step_run (src dl out rel dest_tmp : Path) (w : World) :
  relative_to src dl = Some rel ->
  with_suffix (out ++ rel) (".mp4" +:+ TEMP_SUFFIX) = Some dest_tmp ->
  Fs.can_mkdirs (files w) (parent dest_tmp) = true ->
  transcode_step src dl out w =
  (rc ← transcode_with_handbrake src dest_tmp;
   if negb ((rc : Z) =? 0)%Z then
     mark src error (Some ("handbrake_exit_" +:+ pretty rc)) ;;
     log ("HandBrake failed for " +:+ name src) ;;
     present ← path_exists dest_tmp;
     if (present : bool) then swallow (unlink dest_tmp) else mret tt
   else
     present ← path_exists dest_tmp;
     if negb (present : bool) then
       mark src error (Some "no_output") ;;
       log ("No transcode output for " +:+ name src)
     else size_comparison_step src dl out dest_tmp) (queued_world src dest_tmp w).
Proof.
  intros Hrel Htmp Hok. unfold transcode_step.
  erewrite bind_val by reflexivity.
  erewrite bind_val by (apply mirrored_run, Hrel).
  rewrite Htmp.
  erewrite bind_val by reflexivity.
  erewrite bind_val by (apply ensure_dir_run, Hok).
  reflexivity.
Qed.

(** C7. For a regular file strictly inside the input root: when the
    transcode step fails - the encoder exits with a nonzero code, or with
    zero and nothing at the temporary path - the engine records [error] with
    the note [handbrake_exit_<code>] or [no_output], leaves no file at the
    temporary path, and returns with the source file as it was. *)
Theorem transcode_failure (src dl out rel dest_tmp : Path) (data : list byte)
    (w w2 : World) (rc : Z) :
  relative_to src dl = Some rel ->
  with_suffix (out ++ rel) (".mp4" +:+ TEMP_SUFFIX) = Some dest_tmp ->
  Fs.can_mkdirs (files w) (parent dest_tmp) = true ->
  files w !! src = Some (File data) ->
  rel <> [] ->
  transcode_with_handbrake src dest_tmp (queued_world src dest_tmp w) = Val rc w2 ->
  rc <> 0%Z \/ Fs.exists_ (files w2) dest_tmp = false ->
  exists w',
    transcode_step src dl out w = Val tt w' /\
    rec_status <$> table w' !! src = Some error /\
    note <$> table w' !! src =
      Some (Some (if (rc =? 0)%Z then "no_output" else "handbrake_exit_" +:+ pretty rc)) /\
    Fs.is_file (files w') dest_tmp = false /\
    files w' !! src = Some (File data).
Proof.
  intros Hrel Htmp Hok Hsrc Hnil Henc Hfail.
  pose proof (temp_path_differs _ _ _ _ _ Hrel Hnil Htmp) as Hne.
  rewrite (transcode_step_run _ _ _ _ _ _ Hrel Htmp Hok).
  rewrite (bind_val _ _ _ _ _ Henc).
  destruct (transcode_writes_target _ _ _ _ _ Henc) as [_ Hfiles].
  assert (Hsrc2 : files w2 !! src = Some (File data)).
  { rewrite Hfiles by exact Hne. unfold queued_world. simpl.
    apply mkdirs_keeps; assumption. }
  destruct (rc =? 0)%Z eqn:Hrc; cbn [negb]; cbv beta iota.
  - destruct Hfail as [Hnz|Hgone]; [apply Z.eqb_eq in Hrc; contradiction|].
    unfold path_exists, gets, mbind, M_bind. rewrite Hgone. simpl.
    eexists. split; [reflexivity|].
    split; [apply upsert_status|]. split; [apply upsert_note|].
    split; [|exact Hsrc2].
    apply exists_false in Hgone. unfold Fs.is_file. simpl. rewrite Hgone. reflexivity.
  - unfold mark, log, modify, path_exists, gets, swallow, try_except, unlink, mbind, M_bind.
    simpl.
    destruct (files w2 !! dest_tmp) as [[d|]|] eqn:Etmp;
      unfold Fs.exists_; rewrite Etmp; simpl; rewrite ?Etmp;
      (eexists; split; [reflexivity|]);
      (split; [apply upsert_status|]); (split; [apply upsert_note|]);
      unfold Fs.is_file; simpl.
    + rewrite lookup_delete_eq. split; [reflexivity|].
      rewrite lookup_delete_ne by congruence. exact Hsrc2.
    + rewrite Etmp. split; [reflexivity | exact Hsrc2].
    + rewrite Etmp. split; [reflexivity | exact Hsrc2].
Qed.


(** ** The size-comparison step (step 7 of section 4.6) *)

Lemma str_app_nonempty (a s : string) : s <> "" -> a +:+ s <> "".
Proof.
  intros Hs H. apply (f_equal String.length) in H. rewrite str_app_length in H.
  destruct s; [congruence | simpl in H; lia].
Qed.

(** the branch that keeps the original (lines 293-302) *)
Lemma keep_original_run (src dl out rel dest_tmp : Path) (orig new : list byte) (w : World) :
  dry_run ARGS = false ->
  relative_to src dl = Some rel ->
  files w !! src = Some (File orig) ->
  files w !! dest_tmp = Some (File new) ->
  src <> dest_tmp ->
  Fs.can_mkdirs (files w) (parent (out ++ rel)) = true ->
  name src <> "" ->
  (length orig <= length new)%nat ->
  exists moved,
    delete dest_tmp (files w) !! moved = None /\
    parent moved = parent (out ++ rel) /\
    (moved = parent (out ++ rel) ++ [name src] \/
     exists i, moved = candidate (parent (out ++ rel) ++ [name src]) i) /\
    size_comparison_step src dl out dest_tmp w =
      Val tt (logged ("Kept ORIGINAL (smaller/equal) -> moved to " +:+ str moved)
               (upsert src kept_original_moved (Some ("moved original to " +:+ str moved))
                 (set_files (fun f => <[moved := File orig]>
                    (delete src (Fs.mkdirs (delete dest_tmp f) (parent (out ++ rel))))) w))).
Proof.
  intros Hdry Hrel Hsrc Htmp Hne Hok Hname Hle.
  set (w1 := set_files (delete dest_tmp) w).
  assert (Hsrc1 : files w1 !! src = Some (File orig)).
  { unfold w1. simpl. rewrite lookup_delete_ne by congruence. exact Hsrc. }
  assert (Hok1 : Fs.can_mkdirs (files w1) (parent (out ++ rel)) = true).
  { apply can_mkdirs_delete, Hok. }
  destruct (move_safe_run src (parent (out ++ rel)) orig w1 Hdry Hsrc1 Hok1 Hname)
    as (moved & Hmove & Hpick).
  destruct (move_safe_dest src (parent (out ++ rel)) w1 Hname)
    as (moved' & Hpick' & Hpar & Hfree & _ & Hshape).
  rewrite Hpick in Hpick'. injection Hpick' as <-.
  exists moved. split; [exact Hfree|]. split; [exact Hpar|].
  split.
  { destruct Hshape as [[_ ->]|(_ & i & _ & -> & _)]; [left; reflexivity | right; eauto]. }
  unfold size_comparison_step, stat_size, try_except, mbind, M_bind.
  rewrite Hsrc, Htmp. simpl.
  rewrite (proj2 (Z.leb_le _ _)) by lia.
  rewrite Hdry. simpl. unfold swallow, try_except.
  rewrite (unlink_run _ _ _ Htmp). fold w1.
  rewrite (mirrored_run _ _ _ _ _ Hrel). rewrite Hmove. reflexivity.
Qed.


(** the final name of a transcode: [<stem>.mp4] in the mirrored directory,
    or its first free candidate *)
Lemma final_dest_run (m : Path) (w : World) :
  name m <> "" ->
  let d0 := parent m ++ [stem m +:+ ".mp4"] in
  exists dest_final,
    (if Fs.exists_ (files w) d0 then unique_dest d0 else mret d0) w = Val dest_final w /\
    files w !! dest_final = None /\
    parent dest_final = parent m /\
    ((files w !! d0 = None /\ dest_final = d0) \/
     (is_Some (files w !! d0) /\
      exists i, (1 <= i)%nat /\ dest_final = candidate d0 i /\
                forall k, (1 <= k < i)%nat -> is_Some (files w !! candidate d0 k))).
Proof.
  intros Hname d0.
  destruct (Fs.exists_ (files w) d0) eqn:E.
  - destruct (unique_dest_spec d0 w) as (c & Hrun & Hfree & Hshape).
    { unfold d0. rewrite name_snoc. apply str_app_nonempty. discriminate. }
    exists c. split; [exact Hrun|]. split; [exact Hfree|].
    destruct Hshape as [->|(Htaken & i & Hi & -> & Hbelow)].
    + apply exists_true in E. rewrite Hfree in E. destruct E; discriminate.
    + split; [rewrite candidate_parent; apply parent_snoc|].
      right. split; [exact Htaken|]. exists i. auto.
  - apply exists_false in E. exists d0. split; [reflexivity|].
    split; [exact E|]. split; [apply parent_snoc|]. left. auto.
Qed.

(** the branch that replaces the original by the transcode (lines 303-313) *)
Lemma replace_original_run (src dl out rel dest_tmp : Path) (orig new : list byte)
    (w : World) :
  dry_run ARGS = false ->
  relative_to src dl = Some rel ->
  files w !! src = Some (File orig) ->
  files w !! dest_tmp = Some (File new) ->
  src <> dest_tmp ->
  parent dest_tmp = parent (out ++ rel) ->
  name (out ++ rel) <> "" ->
  Fs.is_dir (files w) (parent (out ++ rel)) = true ->
  (length new < length orig)%nat ->
  let d0 := parent (out ++ rel) ++ [stem (out ++ rel) +:+ ".mp4"] in
  exists dest_final,
    files w !! dest_final = None /\
    parent dest_final = parent (out ++ rel) /\
    ((files w !! d0 = None /\ dest_final = d0) \/
     (is_Some (files w !! d0) /\
      exists i, (1 <= i)%nat /\ dest_final = candidate d0 i /\
                forall k, (1 <= k < i)%nat -> is_Some (files w !! candidate d0 k))) /\
    size_comparison_step src dl out dest_tmp w =
      Val tt (logged ("Transcode COMPLETE -> " +:+ str dest_final)
               (upsert src done_moved (Some ("moved transcode to " +:+ str dest_final))
                 (set_files (fun f => delete src (<[dest_final := File new]>
                                                    (delete dest_tmp f))) w))).
Proof.
  intros Hdry Hrel Hsrc Htmp Hne Hpar Hname Hdir Hlt d0.
  destruct (final_dest_run (out ++ rel) w Hname) as (c & Hrun & Hfree & Hcpar & Hshape).
  fold d0 in Hrun, Hshape.
  exists c. split; [exact Hfree|]. split; [exact Hcpar|]. split; [exact Hshape|].
  unfold size_comparison_step, stat_size, try_except.
  unfold mbind at 1, M_bind at 1. unfold mbind at 1 2, M_bind at 1 2.
  rewrite Hsrc, Htmp. cbn [mret M_ret Fs.size_of].
  rewrite (proj2 (Z.leb_gt _ _)) by lia.
  erewrite bind_val by (apply mirrored_run, Hrel).
  rewrite (with_suffix_some _ _ Hname). fold d0.
  erewrite bind_val by reflexivity.
  erewrite (bind_val (path_exists d0)) by reflexivity.
  erewrite bind_val by exact Hrun.
  rewrite Hdry. cbn [negb].
  unfold mbind, M_bind, swallow, try_except.
  erewrite rename_file_run; [|exact Htmp| | exact Hfree |].
  2:{ rewrite Hcpar. exact Hdir. }
  2:{ rewrite Hcpar, Hpar. reflexivity. }
  assert (Hcs : c <> src) by (intros ->; congruence).
  erewrite unlink_run.
  2:{ simpl. rewrite lookup_insert_ne by exact Hcs.
      rewrite lookup_delete_ne by congruence. exact Hsrc. }
  reflexivity.
Qed.


(** C2. Outside a dry run, for a regular source file strictly inside the
    input root and a regular file at the temporary path in the mirrored
    directory, the size-comparison step returns and: when the original is no
    larger than the artifact, the temporary path is gone, the original's
    bytes are at a free name in the mirrored directory, the source path is
    gone and the status is [kept_original_moved]; when the original is
    strictly larger, the artifact's bytes are at [<stem>.mp4] in the mirrored
    directory (or its first free candidate), the temporary path and the
    source path are gone and the status is [done_moved]. *)
Theorem size_comparison (src dl out rel dest_tmp : Path) (orig new : list byte)
    (w : World) :
  dry_run ARGS = false ->
  relative_to src dl = Some rel ->
  rel <> [] ->
  with_suffix (out ++ rel) (".mp4" +:+ TEMP_SUFFIX) = Some dest_tmp ->
  files w !! src = Some (File orig) ->
  files w !! dest_tmp = Some (File new) ->
  Fs.is_dir (files w) (parent dest_tmp) = true ->
  Fs.can_mkdirs (files w) (parent dest_tmp) = true ->
  name src <> "" ->
  let dest_dir := parent (out ++ rel) in
  let d0 := dest_dir ++ [stem (out ++ rel) +:+ ".mp4"] in
  exists w',
    size_comparison_step src dl out dest_tmp w = Val tt w' /\
    ((Fs.size_of (File orig) <= Fs.size_of (File new))%Z ->
     rec_status <$> table w' !! src = Some kept_original_moved /\
     exists moved,
       parent moved = dest_dir /\
       files w !! moved = None /\
       files w' !! moved = Some (File orig) /\
       files w' !! src = None /\
       files w' !! dest_tmp = None) /\
    ((Fs.size_of (File new) < Fs.size_of (File orig))%Z ->
     rec_status <$> table w' !! src = Some done_moved /\
     exists dest_final,
       parent dest_final = dest_dir /\
       files w !! dest_final = None /\
       ((files w !! d0 = None /\ dest_final = d0) \/
        (is_Some (files w !! d0) /\
         exists i, (1 <= i)%nat /\ dest_final = candidate d0 i /\
                   forall k, (1 <= k < i)%nat -> is_Some (files w !! candidate d0 k))) /\
       files w' !! dest_final = Some (File new) /\
       files w' !! dest_tmp = None /\
       files w' !! src = None).
Proof.
  intros Hdry Hrel Hnil Hsuf Hsrc Htmp Hdir Hok Hname dest_dir d0.
  pose proof (temp_path_differs _ _ _ _ _ Hrel Hnil Hsuf) as Hne.
  destruct (with_suffix_inv _ _ _ Hsuf) as [Hmname Htmp_eq].
  assert (Hpar : parent dest_tmp = dest_dir).
  { rewrite Htmp_eq. apply parent_snoc. }
  assert (Hnm : name (out ++ rel) = name src).
  { apply relative_to_Some in Hrel. subst src.
    destruct (exists_last Hnil) as (rel' & x & ->).
    rewrite !app_assoc, !name_snoc. reflexivity. }
  rewrite Hpar in Hdir, Hok.
  simpl Fs.size_of.
  destruct (le_lt_dec (length orig) (length new)) as [Hle|Hlt].
  - destruct (keep_original_run src dl out rel dest_tmp orig new w
                Hdry Hrel Hsrc Htmp Hne Hok Hname Hle)
      as (moved & Hfree & Hmpar & Hshape & Hrun).
    eexists. split; [exact Hrun|]. split; [|intros; lia].
    intros _. split; [apply upsert_status|].
    assert (Hmt : moved <> dest_tmp).
    { rewrite Htmp_eq. unfold stem. rewrite Hnm.
      apply moved_name_differs. exact Hshape. }
    exists moved. split; [exact Hmpar|].
    rewrite lookup_delete_ne in Hfree by congruence.
    split; [exact Hfree|].
    assert (Hms : moved <> src) by (intros ->; congruence).
    simpl. split; [apply lookup_insert_eq|].
    split; [rewrite lookup_insert_ne by exact Hms; apply lookup_delete_eq|].
    rewrite lookup_insert_ne by exact Hmt.
    rewrite lookup_delete_ne by congruence.
    rewrite mkdirs_child; [apply lookup_delete_eq|].
    rewrite Htmp_eq. fold dest_dir. rewrite length_app. simpl. lia.
  - destruct (replace_original_run src dl out rel dest_tmp orig new w
                Hdry Hrel Hsrc Htmp Hne Hpar Hmname Hdir Hlt)
      as (c & Hfree & Hcpar & Hshape & Hrun).
    eexists. split; [exact Hrun|]. split; [intros; lia|].
    intros _. split; [apply upsert_status|].
    exists c. split; [exact Hcpar|]. split; [exact Hfree|]. split; [exact Hshape|].
    assert (Hcs : c <> src) by (intros ->; congruence).
    assert (Hct : c <> dest_tmp) by (intros ->; congruence).
    simpl. split; [|split].
    + rewrite lookup_delete_ne by congruence. apply lookup_insert_eq.
    + rewrite lookup_delete_ne by congruence.
      rewrite lookup_insert_ne by exact Hct. apply lookup_delete_eq.
    + apply lookup_delete_eq.
Qed.


(** ** The sample of a show (lines 378-390) *)

Lemma dict_set_nonempty {V} (k : string) (v : list V) (d : list (string * list V)) :
  v <> [] -> Forall (fun kv => kv.2 <> []) d ->
  Forall (fun kv => kv.2 <> []) (dict_set k v d).
Proof.
  intros Hv Hd. induction Hd as [|[k' v'] d Hkv Hd IH]; simpl.
  - constructor; [exact Hv | constructor].
  - destruct (String.eqb k k'); constructor; auto.
Qed.

(** a season without a qualifying video is not in the grouping *)
Lemma collect_nonempty (fs : FS) (top : Path) :
  Forall (fun kv => kv.2 <> []) (collect fs top).
Proof.
  unfold collect.
  set (out0 := match List.filter (is_video fs) (Fs.children fs top) with
               | [] => []
               | _ :: _ => dict_set "" (List.filter (is_video fs) (Fs.children fs top)) []
               end).
  assert (H0 : Forall (fun kv : string * list Path => kv.2 <> []) out0).
  { unfold out0. destruct (List.filter _ _) eqn:E; [constructor|].
    apply dict_set_nonempty; [discriminate | constructor]. }
  clearbody out0. revert out0 H0.
  induction (List.filter (Fs.is_dir fs) (Fs.children fs top)) as [|d ds IH];
    intros out0 H0; simpl; [exact H0|].
  apply IH. destruct (season_videos fs d) eqn:E; [exact H0|].
  apply dict_set_nonempty; [discriminate | exact H0].
Qed.

Lemma sample_of_first (fs : FS) (top : Path) :
  collect fs top <> [] ->
  exists k sample vids rest,
    collect fs top = (k, sample :: vids) :: rest /\
    sample_of (collect fs top) = Some sample.
Proof.
  intros Hne. pose proof (collect_nonempty fs top) as Hall.
  destruct (collect fs top) as [|[k v] rest]; [congruence|].
  apply Forall_cons in Hall as [Hv _]. simpl in Hv.
  destruct v as [|x v]; [congruence|].
  exists k, x, v, rest. split; reflexivity.
Qed.

Lemma collect_videos_run (top : Path) (w : World) :
  Fs.is_dir (files w) top = true ->
  collect_videos_two_depth top w = Val (collect (files w) top) w.
Proof.
  unfold Fs.is_dir, collect_videos_two_depth, iterdir, gets, mbind, M_bind.
  destruct (files w !! top) as [[|]|]; try discriminate. reflexivity.
Qed.

Lemma file_is_stable_world (p : Path) (wait : Z) (b : bool) (w w' : World) :
  file_is_stable p wait w = Val b w' -> w' = w \/ w' = slept wait w.
Proof.
  rewrite file_is_stable_run.
  repeat case_match; try discriminate; intros [= _ <-]; auto.
Qed.

(** C10. A top-level directory that is not hidden, not temp-named and has
    videos is sampled once: the video sampled is the first video of the
    first group of its grouping.  When that video is unstable the loop body
    logs one line and goes on to the next entry: no video of the show is
    processed, the status table is unchanged, and the only sleep of the
    body is the one of this sample.  When it is stable the show is
    processed. *)
Theorem unstable_sample_skips_show (entry downloads output : Path)
    (tmdb_key : option string) (any_found : bool) (w : World) :
  Str.startswith (name entry) "." = false ->
  posters_only ARGS = false ->
  is_temporary_name (name entry) = false ->
  Fs.is_dir (files w) entry = true ->
  collect (files w) entry <> [] ->
  exists k sample vids rest,
    collect (files w) entry = (k, sample :: vids) :: rest /\
    (forall w1,
       file_is_stable sample SIZE_STABLE_SECONDS w = Val false w1 ->
       scan_entry downloads output tmdb_key any_found entry w =
         Val true (logged ("Topdir " +:+ name entry +:+
                           " has unstable files; skipping this pass.") w1) /\
       table w1 = table w /\
       (w1 = w \/ w1 = slept SIZE_STABLE_SECONDS w)) /\
    (forall w1,
       file_is_stable sample SIZE_STABLE_SECONDS w = Val true w1 ->
       scan_entry downloads output tmdb_key any_found entry w =
         (process_show_topdir entry downloads output tmdb_key ;; mret true) w1).
Proof.
  intros Hhid Hpost Htemp Hdir Hne.
  destruct (sample_of_first _ _ Hne) as (k & sample & vids & rest & Hmap & Hsample).
  exists k, sample, vids, rest. split; [exact Hmap|].
  assert (Hentry : forall b w1,
            file_is_stable sample SIZE_STABLE_SECONDS w = Val b w1 ->
            scan_entry downloads output tmdb_key any_found entry w =
            (if negb b
             then log ("Topdir " +:+ name entry +:+
                       " has unstable files; skipping this pass.") ;; mret true
             else process_show_topdir entry downloads output tmdb_key ;; mret true) w1).
  { intros b w1 Hst. unfold scan_entry. rewrite Hhid, Hpost, Htemp.
    unfold is_dir. erewrite bind_val by reflexivity. rewrite Hdir.
    unfold scan_show.
    erewrite bind_val by (apply collect_videos_run, Hdir).
    rewrite Hmap. rewrite Hmap in Hsample. rewrite Hsample.
    unfold mbind at 1, M_bind at 1, fmap, M_fmap. rewrite Hst. reflexivity. }
  split.
  - intros w1 Hst. split; [rewrite (Hentry _ _ Hst); reflexivity|].
    split; [|eapply file_is_stable_world, Hst].
    apply (keeps_val _ _ _ _ _ (file_is_stable_same_table _ _) Hst).
  - intros w1 Hst. rewrite (Hentry _ _ Hst). reflexivity.
Qed.


(** ** The Season Consolidator (section 4.7) *)

(** *** Which seasons are flagged *)

Lemma keeps_same_table_but {A} (src : Path) (m : M A) :
  keeps same_table m -> keeps (table_but src) m.
Proof. apply keeps_mono. intros w w'. apply same_table_but. Qed.

#[local] Hint Resolve mark_table_but : frame.
#[local] Hint Extern 5 (keeps (table_but _) _) =>
  (apply keeps_same_table_but; solve [auto with frame]) : frame.

(** the engine writes no row but the one of the file it is given *)
Lemma process_movie_file_table_but (src dl out : Path) :
  keeps (table_but src) (process_movie_file src dl out).
Proof.
  unfold process_movie_file, confirmation_gate, stability_gate, probe_step,
    transcode_step, size_comparison_step, status_of, mirrored.
  frame.
Qed.

Lemma dict_get_elem_of {V} (k : string) (v : V) (d : list (string * V)) :
  dict_get k d = Some v -> (k, v) ∈ d.
Proof.
  induction d as [|[k' v'] d IH]; simpl; [discriminate|].
  destruct (String.eqb k k') eqn:E.
  - apply String.eqb_eq in E as ->. intros [= ->]. left.
  - intros H. right. apply IH, H.
Qed.

Lemma dict_get_unique {V} (k : string) (v : V) (d : list (string * V)) :
  NoDup (d.*1) -> (k, v) ∈ d -> dict_get k d = Some v.
Proof.
  induction d as [|[k' v'] d IH]; simpl; intros Hnd Hin; [inversion Hin|].
  apply NoDup_cons in Hnd as [Hk Hnd].
  apply elem_of_cons in Hin as [[= <- <-]|Hin].
  - rewrite String.eqb_refl. reflexivity.
  - destruct (String.eqb k k') eqn:E.
    + apply String.eqb_eq in E as ->. exfalso. apply Hk.
      apply list_elem_of_fmap. exists (k', v). split; [reflexivity | exact Hin].
    + apply IH; assumption.
Qed.

Lemma fold_each_cons_inv {A S} (x : A) (xs : list A) (acc acc2 : S)
    (body : S -> A -> M S) (w w2 : World) :
  fold_each (x :: xs) acc body w = Val acc2 w2 ->
  exists acc1 w1, body acc x w = Val acc1 w1 /\ fold_each xs acc1 body w1 = Val acc2 w2.
Proof. simpl. apply bind_inv. Qed.

(** one video decided: its row may change, no other row does, and its
    season is flagged exactly when it ended as a relocated original *)
Lemma decide_and_flag_inv (dl out : Path) (key : string) (flags flags' : gset string)
    (vid : Path) (w w' : World) :
  decide_and_flag dl out key flags vid w = Val flags' w' ->
  table_but vid w w' /\
  flags' = (if status_in (rec_status <$> table w' !! vid) [skipped_moved; kept_original_moved]
            then {[key]} ∪ flags else flags).
Proof.
  unfold decide_and_flag. intros H.
  apply bind_inv in H as ([] & w1 & Hrun & H).
  apply (keeps_val _ _ _ _ _ (process_movie_file_table_but vid dl out)) in Hrun.
  unfold status_of, gets, mbind, M_bind in H.
  destruct (status_in _ _) eqn:E; injection H as <- <-; rewrite E; auto.
Qed.

(** the videos of one group decided in turn *)
Lemma decide_group_inv (dl out : Path) (key : string) (vids : list Path)
    (flags0 flags1 : gset string) (w0 w1 : World) :
  fold_each vids flags0 (decide_and_flag dl out key) w0 = Val flags1 w1 ->
  NoDup vids ->
  (forall p, p ∉ vids -> table w1 !! p = table w0 !! p) /\
  (forall sk, sk ∈ flags1 <->
     sk ∈ flags0 \/ (sk = key /\ exists vid, vid ∈ vids /\ relocated_original w1 vid)).
Proof.
  revert flags0 w0. induction vids as [|vid vids IH]; intros flags0 w0 Hrun Hnd.
  - injection Hrun as <- <-. split; [reflexivity|].
    intros sk. split; [auto|]. intros [H|(_ & vid & Hin & _)]; [exact H | inversion Hin].
  - apply fold_each_cons_inv in Hrun as (fa & wa & Hone & Hrest).
    apply NoDup_cons in Hnd as [Hvid Hnd].
    destruct (decide_and_flag_inv _ _ _ _ _ _ _ _ Hone) as [Hbut Hfa].
    destruct (IH _ _ Hrest Hnd) as [Hframe Hflags].
    split.
    + intros p Hp. apply not_elem_of_cons in Hp as [Hne Hp].
      rewrite Hframe by exact Hp. apply Hbut, Hne.
    + intros sk. rewrite Hflags.
      assert (Hsame : relocated_original w1 vid <-> relocated_original wa vid).
      { unfold relocated_original. rewrite Hframe by exact Hvid. reflexivity. }
      subst fa. unfold relocated_original in Hsame.
      destruct (status_in (rec_status <$> table wa !! vid) _) eqn:E.
      * rewrite elem_of_union, elem_of_singleton.
        assert (Hv : relocated_original w1 vid) by (apply Hsame; reflexivity).
        split.
        -- intros [[->|H]|(-> & v & Hin & Hv')].
           ++ right. split; [reflexivity|]. exists vid. split; [left | exact Hv].
           ++ left. exact H.
           ++ right. split; [reflexivity|]. exists v. split; [right; exact Hin | exact Hv'].
        -- intros [H|(-> & v & Hin & Hv')].
           ++ left. right. exact H.
           ++ left. left. reflexivity.
      * split.
        -- intros [H|(-> & v & Hin & Hv')].
           ++ left; exact H.
           ++ right. split; [reflexivity|]. exists v. split; [right; exact Hin | exact Hv'].
        -- intros [H|(-> & v & Hin & Hv')].
           ++ left; exact H.
           ++ apply elem_of_cons in Hin as [->|Hin].
              ** apply Hsame in Hv'. congruence.
              ** right. split; [reflexivity|]. exists v. auto.
Qed.

Lemma elem_of_all_videos (gs : list (string * list Path)) (p : Path) :
  p ∈ all_videos gs <-> exists k vids, (k, vids) ∈ gs /\ p ∈ vids.
Proof.
  unfold all_videos. induction gs as [|[k vids] gs IH]; simpl.
  - split; [intros H; inversion H | intros (k & vids & H & _); inversion H].
  - rewrite elem_of_app, IH. split.
    + intros [H|(k' & vids' & Hin & Hp)].
      * exists k, vids. split; [left | exact H].
      * exists k', vids'. split; [right; exact Hin | exact Hp].
    + intros (k' & vids' & Hin & Hp).
      apply elem_of_cons in Hin as [[= -> ->]|Hin]; [left; exact Hp|].
      right. eauto.
Qed.

(** the groups of the grouping decided in turn, the direct files left out *)
Lemma decide_seasons_inv (dl out : Path) (gs : list (string * list Path))
    (flags0 flags1 : gset string) (w0 w1 : World) :
  fold_each gs flags0 (decide_season dl out) w0 = Val flags1 w1 ->
  NoDup (all_videos gs) ->
  (forall p, (forall k vids, (k, vids) ∈ gs -> k <> "" -> p ∉ vids) ->
             table w1 !! p = table w0 !! p) /\
  (forall sk, sk ∈ flags1 <->
     sk ∈ flags0 \/
     (sk <> "" /\ exists vids vid, (sk, vids) ∈ gs /\ vid ∈ vids /\ relocated_original w1 vid)).
Proof.
  revert flags0 w0. induction gs as [|[k vids] gs IH]; intros flags0 w0 Hrun Hnd.
  - injection Hrun as <- <-. split; [reflexivity|].
    intros sk. split; [auto|].
    intros [H|(_ & vids & vid & Hin & _)]; [exact H | inversion Hin].
  - apply fold_each_cons_inv in Hrun as (fa & wa & Hone & Hrest).
    unfold all_videos in Hnd. simpl in Hnd. fold (all_videos gs) in Hnd.
    apply NoDup_app in Hnd as (Hndv & Hdisj & Hndg).
    destruct (IH _ _ Hrest Hndg) as [Hframe Hflags].
    simpl in Hone. destruct (String.eqb k "") eqn:Ek.
    + apply String.eqb_eq in Ek. subst k. injection Hone as <- <-.
      split.
      * intros p Hp. apply Hframe. intros k vids' Hin. apply Hp. right. exact Hin.
      * intros sk. rewrite Hflags. split.
        -- intros [H|(Hne & vids' & vid & Hin & Hv)]; [left; exact H|].
           right. split; [exact Hne|]. exists vids', vid. split; [right; exact Hin | exact Hv].
        -- intros [H|(Hne & vids' & vid & Hin & Hv)]; [left; exact H|].
           apply elem_of_cons in Hin as [[= -> ->]|Hin]; [congruence|].
           right. split; [exact Hne|]. eauto.
    + apply String.eqb_neq in Ek.
      destruct (decide_group_inv _ _ _ _ _ _ _ _ Hone Hndv) as [Hframe_a Hflags_a].
      assert (Hkeep : forall vid, vid ∈ vids -> table w1 !! vid = table wa !! vid).
      { intros vid Hvid. apply Hframe. intros k' vids' Hin _ Hin'.
        apply (Hdisj vid Hvid). apply elem_of_all_videos. eauto. }
      split.
      * intros p Hp. rewrite Hframe.
        -- apply Hframe_a. apply (Hp k vids); [left | exact Ek].
        -- intros k' vids' Hin. apply Hp. right. exact Hin.
      * intros sk. rewrite Hflags, Hflags_a. split.
        -- intros [[H|(-> & vid & Hin & Hv)]|(Hne & vids' & vid & Hin & Hv)].
           ++ left; exact H.
           ++ right. split; [exact Ek|]. exists vids, vid. split; [left|].
              split; [exact Hin|]. unfold relocated_original in *.
              rewrite Hkeep by exact Hin. exact Hv.
           ++ right. split; [exact Hne|]. exists vids', vid. split; [right; exact Hin | exact Hv].
        -- intros [H|(Hne & vids' & vid & Hin & Hvid & Hv)]; [left; left; exact H|].
           apply elem_of_cons in Hin as [[= -> ->]|Hin].
           ++ left. right. split; [reflexivity|]. exists vid. split; [exact Hvid|].
              unfold relocated_original in *. rewrite <- Hkeep by exact Hvid. exact Hv.
           ++ right. split; [exact Hne|]. eauto.
Qed.

(** every video of the grouping has gone through the engine: a season is
    flagged exactly when one of its videos ended as a relocated original *)
Lemma decide_all_inv (dl out : Path) (mapping : list (string * list Path))
    (flags : gset string) (w w1 : World) :
  decide_all mapping dl out w = Val flags w1 ->
  NoDup (mapping.*1) ->
  NoDup (all_videos mapping) ->
  forall sk, sk ∈ flags <->
    exists vids vid, (sk, vids) ∈ mapping /\ vid ∈ vids /\ relocated_original w1 vid.
Proof.
  intros Hrun Hkeys Hnd sk. unfold decide_all in Hrun.
  apply bind_inv in Hrun as (fa & wa & Hdirect & Hseasons).
  destruct (decide_seasons_inv _ _ _ _ _ _ _ Hseasons Hnd) as [Hframe Hflags].
  rewrite Hflags.
  assert (Hother : forall vids0 vid, ("", vids0) ∈ mapping -> vid ∈ vids0 ->
                     forall k vids, (k, vids) ∈ mapping -> k <> "" -> vid ∉ vids).
  { intros vids0 vid Hin0 Hvid k vids Hin Hk Hvid'.
    clear -Hin0 Hvid Hin Hk Hvid' Hnd.
    unfold all_videos in Hnd. induction mapping as [|[k' v'] m IH]; [inversion Hin|].
    simpl in Hnd. apply NoDup_app in Hnd as (_ & Hdisj & Hndm).
    apply elem_of_cons in Hin0 as [Heq0|Hin0];
      apply elem_of_cons in Hin as [Heq|Hin]; simplify_eq.
    - apply (Hdisj vid Hvid). apply (elem_of_all_videos m). eauto.
    - apply (Hdisj vid Hvid'). apply (elem_of_all_videos m). eauto.
    - apply IH; assumption. }
  destruct (dict_get "" mapping) as [vids0|] eqn:E.
  - pose proof (dict_get_elem_of _ _ _ E) as Hin0.
    assert (Hnd0 : NoDup vids0).
    { clear -Hin0 Hnd. unfold all_videos in Hnd.
      induction mapping as [|[k' v'] m IH]; [inversion Hin0|].
      simpl in Hnd. apply NoDup_app in Hnd as (Hv & _ & Hm).
      apply elem_of_cons in Hin0 as [Heq0|Hin0]; simplify_eq; auto. }
    destruct (decide_group_inv _ _ _ _ _ _ _ _ Hdirect Hnd0) as [_ Hfa].
    assert (Hkeep : forall vid, vid ∈ vids0 -> table w1 !! vid = table wa !! vid).
    { intros vid Hvid. apply Hframe. eapply Hother; eassumption. }
    split.
    + intros [H|(Hne & vids & vid & Hin & Hv)].
      * apply Hfa in H as [H|(-> & vid & Hvid & Hv)]; [set_solver|].
        exists vids0, vid. split; [exact Hin0|]. split; [exact Hvid|].
        unfold relocated_original in *. rewrite Hkeep by exact Hvid. exact Hv.
      * eauto.
    + intros (vids & vid & Hin & Hvid & Hv).
      destruct (decide (sk = "")) as [->|Hne].
      * left. apply Hfa. right. split; [reflexivity|].
        rewrite (dict_get_unique _ _ _ Hkeys Hin) in E. injection E as ->.
        exists vid. split; [exact Hvid|].
        unfold relocated_original in *. rewrite <- Hkeep by exact Hvid. exact Hv.
      * right. split; [exact Hne|]. eauto.
  - injection Hdirect as <- <-. split.
    + intros [H|(Hne & vids & vid & Hin & Hv)]; [set_solver | eauto].
    + intros (vids & vid & Hin & Hvid & Hv).
      destruct (decide (sk = "")) as [->|Hne].
      * rewrite (dict_get_unique _ _ _ Hkeys Hin) in E. discriminate.
      * right. split; [exact Hne|]. eauto.
Qed.

(** *** Paths apart *)

Lemma comparable_false (a b : Path) :
  Fs.comparable a b = false <-> ~ a `prefix_of` b /\ ~ b `prefix_of` a.
Proof.
  unfold Fs.comparable.
  destruct (relative_to a b) eqn:E1; destruct (relative_to b a) eqn:E2;
    rewrite <- ?relative_to_None; split; try discriminate; try (intros [? ?]; congruence).
  auto.
Qed.

Lemma elem_of_ancestors (q p : Path) :
  q ∈ ancestors p <-> exists r, r <> [] /\ p = q ++ r.
Proof.
  revert q. induction p as [|x p IH]; intros q; simpl.
  - split; [intros H; inversion H|].
    intros (r & Hr & H). symmetry in H. apply app_eq_nil in H as [_ ->]. congruence.
  - rewrite elem_of_cons. split.
    + intros [->|H].
      * exists (x :: p). split; [discriminate | reflexivity].
      * apply list_elem_of_In, in_map_iff in H as (q' & <- & H).
        apply list_elem_of_In, IH in H as (r & Hr & ->). exists r. auto.
    + intros (r & Hr & H). destruct q as [|y q]; [left; reflexivity|].
      right. injection H as <- ->.
      apply list_elem_of_In, in_map_iff. exists q. split; [reflexivity|].
      apply list_elem_of_In, IH. eauto.
Qed.

(** a path below the show is neither above nor below a mirrored directory *)
Lemma source_apart (topdir mirror part p : Path) :
  Fs.comparable topdir mirror = false ->
  topdir `prefix_of` p ->
  ~ (mirror ++ part) `prefix_of` p /\ ~ p `prefix_of` (mirror ++ part).
Proof.
  intros [Htm Hmt]%comparable_false Hp. split.
  - intros Hd. assert (Hm : mirror `prefix_of` p).
    { destruct Hd as [k ->]. exists (part ++ k). symmetry. apply app_assoc. }
    destruct (prefix_weak_total _ _ _ Hp Hm); contradiction.
  - intros Hd. assert (Ht : topdir `prefix_of` (mirror ++ part)).
    { etransitivity; eassumption. }
    assert (Hm : mirror `prefix_of` (mirror ++ part)) by (exists part; reflexivity).
    destruct (prefix_weak_total _ _ _ Ht Hm); contradiction.
Qed.

(** *** The entries of a tree *)

Lemma elem_of_subtree (fs : FS) (d r : Path) (n : node) :
  (r, n) ∈ Fs.subtree fs d <-> fs !! (d ++ r) = Some n.
Proof.
  unfold Fs.subtree. rewrite list_elem_of_omap. split.
  - intros ([p n'] & Hin & H). apply elem_of_map_to_list in Hin.
    destruct (relative_to p d) as [r'|] eqn:E; simpl in H; [|discriminate].
    injection H as -> ->. apply relative_to_Some in E. subst p. exact Hin.
  - intros H. exists (d ++ r, n). split; [apply elem_of_map_to_list, H|].
    rewrite relative_to_app. reflexivity.
Qed.

Lemma elem_of_descendants (fs : FS) (d f : Path) :
  f ∈ Fs.descendants fs d <-> exists r, r <> [] /\ f = d ++ r /\ is_Some (fs !! f).
Proof.
  unfold Fs.descendants. rewrite list_elem_of_omap. split.
  - intros ([r n] & Hin & H). apply elem_of_subtree in Hin.
    destruct r as [|x r]; [discriminate|]. injection H as <-.
    exists (x :: r). split; [discriminate|]. split; [reflexivity | eauto].
  - intros (r & Hr & -> & [n Hn]). exists (r, n). split; [apply elem_of_subtree, Hn|].
    destruct r; [congruence | reflexivity].
Qed.

Lemma mkdirs_idem (fs : FS) (d : Path) : Fs.mkdirs (Fs.mkdirs fs d) d = Fs.mkdirs fs d.
Proof.
  apply map_eq. intros q. rewrite !mkdirs_lookup.
  destruct (decide (q ∈ ancestors d ++ [d])); reflexivity.
Qed.

Lemma filter_all {A} (f : A -> bool) (l : list A) :
  forallb f l = true -> List.filter f l = l.
Proof.
  induction l as [|x l IH]; simpl; [reflexivity|].
  intros [Hx Hl]%andb_true_iff. rewrite Hx, IH by exact Hl. reflexivity.
Qed.

Lemma is_dir_true (fs : FS) (p : Path) : Fs.is_dir fs p = true <-> fs !! p = Some Dir.
Proof.
  unfold Fs.is_dir. destruct (fs !! p) as [[|]|]; split; congruence.
Qed.

(** *** The entries a copy reaches, and where they land *)

Lemma elem_of_walk (fs : FS) (src r : Path) (n : node) :
  (r, n) ∈ Fs.walk fs src <-> fs !! (src ++ r) = Some n /\ Fs.visited fs src r = true.
Proof.
  unfold Fs.walk.
  rewrite list_elem_of_In, filter_In, <- list_elem_of_In, elem_of_subtree. reflexivity.
Qed.

Lemma visited_parent (fs : FS) (src r : Path) (y : string) :
  Fs.visited fs src (r ++ [y]) = true -> fs !! (src ++ r) = Some Dir.
Proof.
  unfold Fs.visited. rewrite forallb_forall. intros H.
  apply is_dir_true, H, list_elem_of_In, elem_of_ancestors.
  exists [y]. split; [discriminate | reflexivity].
Qed.

Lemma visited_ext (fs1 fs2 : FS) (src r : Path) :
  (forall q, fs1 !! (src ++ q) = fs2 !! (src ++ q)) ->
  Fs.visited fs1 src r = Fs.visited fs2 src r.
Proof.
  intros H. unfold Fs.visited.
  induction (ancestors r) as [|q l IH]; simpl; [reflexivity|].
  rewrite IH. unfold Fs.is_dir. rewrite H. reflexivity.
Qed.

Lemma landing_cases (fs : FS) (dst r : Path) (n : node) :
  Fs.landing fs dst r n = dst ++ r \/
  exists data, n = File data /\ fs !! (dst ++ r) = Some Dir /\
               Fs.landing fs dst r n = dst ++ r ++ [name r].
Proof.
  destruct n as [data|]; [|left; reflexivity]. simpl.
  destruct (Fs.is_dir fs (dst ++ r)) eqn:E; [|left; reflexivity].
  right. exists data. apply is_dir_true in E. auto.
Qed.

(** an entry that lands on a directory of the target is a directory *)
Lemma landing_direct (fs : FS) (dst r : Path) (n : node) :
  fs !! (dst ++ r) = Some Dir -> Fs.landing fs dst r n = dst ++ r -> n = Dir.
Proof.
  intros Hd. destruct n as [data|]; [|reflexivity]. simpl.
  rewrite (proj2 (is_dir_true _ _) Hd). intros H. apply app_inv_head in H.
  apply (f_equal length) in H. rewrite length_app in H. simpl in H. lia.
Qed.

Lemma landing_below (fs : FS) (dst r : Path) (n : node) :
  dst `prefix_of` Fs.landing fs dst r n.
Proof.
  destruct (landing_cases fs dst r n) as [->|(_ & _ & _ & ->)]; eexists; reflexivity.
Qed.

(** a path of the laid store holds an entry that landed there, or what
    the target held *)
Lemma lay_cases (fs : FS) (dst : Path) (V : list (Path * node)) (q : Path) :
  (exists r n, (r, n) ∈ V /\ q = Fs.landing fs dst r n /\ Fs.lay fs dst V !! q = Some n) \/
  Fs.lay fs dst V !! q = fs !! q.
Proof.
  unfold Fs.lay.
  destruct (list_to_map (M := FS)
              (List.map (fun '(rel, n) => (Fs.landing fs dst rel n, n)) V) !! q)
    as [n|] eqn:E.
  - left. pose proof E as Hin. apply elem_of_list_to_map_2 in Hin.
    apply list_elem_of_In, in_map_iff in Hin as ([r n'] & Heq & Hin).
    injection Heq as Hq Hn. subst q n.
    exists r, n'. split; [apply list_elem_of_In, Hin|]. split; [reflexivity|].
    apply lookup_union_Some_l, E.
  - right. apply lookup_union_r, E.
Qed.

(** two entries the walk reaches never land on the same path *)
Lemma landing_inj (fs ft : FS) (src dst r r' : Path) (n n' : node) :
  (r, n) ∈ Fs.walk fs src -> (r', n') ∈ Fs.walk fs src ->
  Fs.landing ft dst r n = Fs.landing ft dst r' n' -> r = r' /\ n = n'.
Proof.
  intros [Hr Hv]%elem_of_walk [Hr' Hv']%elem_of_walk Heq.
  assert (Hsame : r = r' -> r = r' /\ n = n').
  { intros ->. split; [reflexivity | congruence]. }
  destruct (landing_cases ft dst r n) as [E|(data & -> & _ & E)];
    destruct (landing_cases ft dst r' n') as [E'|(data' & -> & _ & E')];
    rewrite E, E' in Heq; apply app_inv_head in Heq.
  - apply Hsame, Heq.
  - subst r. apply visited_parent in Hv. congruence.
  - subst r'. apply visited_parent in Hv'. congruence.
  - apply app_inj_tail in Heq as [Heq _]. apply Hsame, Heq.
Qed.

Lemma lay_landing (fs ft : FS) (src dst r : Path) (n : node) :
  (r, n) ∈ Fs.walk fs src ->
  Fs.lay ft dst (Fs.walk fs src) !! Fs.landing ft dst r n = Some n.
Proof.
  intros Hin. unfold Fs.lay. apply lookup_union_Some_l, elem_of_list_to_map_1'.
  - intros n' Hin'. apply list_elem_of_In, in_map_iff in Hin' as ([r' n''] & Heq & Hin').
    injection Heq as Hq ->. apply list_elem_of_In in Hin'.
    destruct (landing_inj _ _ _ _ _ _ _ _ Hin' Hin Hq) as [_ ->]. reflexivity.
  - apply list_elem_of_In, in_map_iff. exists (r, n).
    split; [reflexivity | apply list_elem_of_In, Hin].
Qed.

(** outside the target directory a copied tree leaves what [mkdir -p]
    left *)
Lemma tree_copied_outside (fs : FS) (src dst q : Path) :
  ~ dst `prefix_of` q -> tree_copied fs src dst !! q = Fs.mkdirs fs dst !! q.
Proof.
  intros Hq. unfold tree_copied.
  destruct (lay_cases (Fs.mkdirs fs dst) dst (Fs.walk (Fs.mkdirs fs dst) src) q)
    as [(r & n & _ & -> & _)|H]; [|exact H].
  destruct Hq. apply landing_below.
Qed.

(** a copy that returns has laid every entry the walk reaches over the
    target *)
Lemma copytree_inv (src dst : Path) (w w' : World) :
  copytree src dst w = Val tt w' ->
  files w !! src = Some Dir /\
  Fs.comparable src dst = false /\
  Fs.can_mkdirs (files w) dst = true /\
  w' = set_files (fun f => Fs.lay (Fs.mkdirs f dst) dst (Fs.walk f src)) w.
Proof.
  unfold copytree, Fs.can_mkdirs.
  destruct (files w !! src) as [[|]|]; try discriminate.
  destruct (Fs.comparable src dst); [discriminate|].
  destruct (existsb _ _); [discriminate|].
  destruct (Fs.is_file _ _); [discriminate|].
  destruct (forallb _ _) eqn:E; [|discriminate].
  intros [= <-]. repeat split.
  rewrite (filter_all _ _ E). reflexivity.
Qed.

Lemma ancestors_prefix (q d : Path) : q ∈ ancestors d ++ [d] -> q `prefix_of` d.
Proof.
  intros [H|H]%elem_of_app.
  - apply elem_of_ancestors in H as (r & _ & ->). exists r. reflexivity.
  - apply list_elem_of_singleton in H as ->. reflexivity.
Qed.

(** outside a dry run, a tree copy that returns found a directory at the
    source, apart from the target, and leaves [tree_copied] *)
Lemma copy_tree_safe_inv (src dst : Path) (w w' : World) :
  dry_run ARGS = false ->
  copy_tree_safe src dst w = Val tt w' ->
  Fs.can_mkdirs (files w) dst = true /\
  files w !! src = Some Dir /\
  Fs.comparable src dst = false /\
  w' = set_files (fun _ => tree_copied (files w) src dst) w.
Proof.
  intros Hdry Hrun. unfold copy_tree_safe in Hrun. rewrite Hdry in Hrun.
  apply bind_inv in Hrun as ([] & wm & Hmk & Hcopy).
  apply ensure_dir_inv in Hmk as [Hok ->].
  apply copytree_inv in Hcopy as (Hdir & Hcmp & _ & ->).
  simpl in Hdir. split; [exact Hok|]. split; [|split; [exact Hcmp|]].
  - rewrite mkdirs_lookup in Hdir.
    destruct (decide (src ∈ ancestors dst ++ [dst])) as [Hin|_]; [|exact Hdir].
    apply ancestors_prefix in Hin. apply comparable_false in Hcmp as [Hn _].
    contradiction.
  - unfold set_files, tree_copied. simpl. rewrite mkdirs_idem. reflexivity.
Qed.

(** *** One season copied *)

Lemma season_dirs_run (topdir dl out rel : Path) (sk : string) (w : World) :
  relative_to topdir dl = Some rel ->
  season_dirs topdir dl out sk w =
    Val (season_src topdir sk, season_dest (out ++ rel) sk) w.
Proof.
  intros Hrel. unfold season_dirs, season_src, season_dest, season_part, div.
  rewrite Hrel. simpl. destruct (String.eqb sk "").
  - rewrite !app_nil_r. reflexivity.
  - rewrite <- app_assoc. reflexivity.
Qed.

(** the stamping loop writes [copied_season] on the videos of its list and
    nothing else *)
Lemma stamps_inv (dest_dir : Path) (l : list Path) (w w' : World) :
  for_each l (stamp dest_dir) w = Val tt w' ->
  files w' = files w /\ stdout w' = stdout w /\
  (forall f, f ∈ l -> is_video (files w) f = true ->
             rec_status <$> table w' !! f = Some copied_season) /\
  (forall p, table w' !! p = table w !! p \/
             (rec_status <$> table w' !! p = Some copied_season /\
              p ∈ l /\ is_video (files w) p = true)).
Proof.
  revert w. induction l as [|f l IH]; intros w Hrun.
  - injection Hrun as <-. repeat split; auto. intros f Hin. inversion Hin.
  - simpl in Hrun. apply bind_inv in Hrun as ([] & wa & Hone & Hrest).
    destruct (IH _ Hrest) as (Hfiles & Hout & Hstamped & Honly).
    assert (Hwa : files wa = files w /\ stdout wa = stdout w /\
                  (is_video (files w) f = true ->
                   rec_status <$> table wa !! f = Some copied_season) /\
                  (forall p, table wa !! p = table w !! p \/
                             (rec_status <$> table wa !! p = Some copied_season /\
                              p = f /\ is_video (files w) p = true))).
    { unfold stamp, gets, mark, modify, mbind, M_bind, mret, M_ret in Hone.
      destruct (is_video (files w) f) eqn:Ev; injection Hone as <-.
      - repeat split; auto; [intros _; apply upsert_status|].
        intros p. destruct (decide (p = f)) as [->|Hne].
        + right. split; [apply upsert_status | auto].
        + left. apply upsert_other, Hne.
      - repeat split; auto. discriminate. }
    destruct Hwa as (Hfa & Hoa & Hsa & Hona).
    split; [congruence|]. split; [congruence|]. split.
    + intros g Hin Hv. apply elem_of_cons in Hin as [->|Hin].
      * destruct (Honly f) as [H|[H _]]; [rewrite H; apply Hsa, Hv | exact H].
      * apply Hstamped; [exact Hin | rewrite Hfa; exact Hv].
    + intros p. destruct (Honly p) as [H|(H & Hin & Hv)].
      * rewrite H. destruct (Hona p) as [H'|(H' & -> & Hv)]; [left; exact H'|].
        right. split; [exact H'|]. split; [left | exact Hv].
      * right. split; [exact H|]. split; [right; exact Hin|].
        rewrite <- Hfa. exact Hv.
Qed.

(** what one run of the loop body of the consolidation does, outside a dry
    run: nothing without the season's directory; with it, the tree is
    copied, one line logged and the videos found below it stamped *)
Lemma copy_season_inv (topdir dl out rel : Path) (sk : string) (w w' : World) :
  dry_run ARGS = false ->
  relative_to topdir dl = Some rel ->
  copy_season topdir dl out sk w = Val tt w' ->
  let src_dir := season_src topdir sk in
  let dest_dir := season_dest (out ++ rel) sk in
  (files w !! src_dir = None -> w' = w) /\
  (is_Some (files w !! src_dir) ->
   Fs.can_mkdirs (files w) dest_dir = true /\
   files w !! src_dir = Some Dir /\
   files w' = tree_copied (files w) src_dir dest_dir /\
   stdout w' = stdout w ++ [copy_line topdir (out ++ rel) sk] /\
   (forall f, f ∈ Fs.descendants (files w') src_dir -> is_video (files w') f = true ->
              rec_status <$> table w' !! f = Some copied_season) /\
   (forall p, table w' !! p = table w !! p \/
              (rec_status <$> table w' !! p = Some copied_season /\
               p ∈ Fs.descendants (files w') src_dir /\ is_video (files w') p = true))).
Proof.
  intros Hdry Hrel Hrun src_dir dest_dir. unfold copy_season in Hrun.
  rewrite (bind_val _ _ _ _ _ (season_dirs_run _ _ _ _ sk w Hrel)) in Hrun.
  fold src_dir dest_dir in Hrun.
  unfold path_exists, gets in Hrun. unfold mbind at 1, M_bind at 1 in Hrun.
  destruct (files w !! src_dir) as [n|] eqn:Esrc.
  - assert (Hex : Fs.exists_ (files w) src_dir = true) by (apply exists_true; eauto).
    rewrite Hex in Hrun.
    apply bind_inv in Hrun as ([] & w1 & Hlog & Hrun). injection Hlog as <-.
    apply bind_inv in Hrun as ([] & w2 & Hcopy & Hrun).
    apply (copy_tree_safe_inv _ _ _ _ Hdry) in Hcopy as (Hok & Hdir & Hcmp & ->).
    simpl in Hok, Hdir.
    assert (Hstill : tree_copied (files w) src_dir dest_dir !! src_dir = Some Dir).
    { apply comparable_false in Hcmp as [Hn1 Hn2].
      rewrite tree_copied_outside by exact Hn2.
      rewrite mkdirs_lookup, decide_False; [exact Hdir|].
      intros Hin. apply Hn1, ancestors_prefix, Hin. }
    unfold rglob, gets in Hrun. unfold mbind at 1, M_bind at 1 in Hrun.
    apply stamps_inv in Hrun as (Hfiles & Hout & Hstamped & Honly).
    simpl in Hfiles, Hout, Hstamped, Honly.
    rewrite (proj2 (is_dir_true _ _) Hstill) in Hstamped, Honly.
    split; [discriminate|].
    intros _. split; [exact Hok|]. split; [congruence|]. split; [exact Hfiles|].
    split; [exact Hout|]. rewrite Hfiles. split; [exact Hstamped | exact Honly].
  - assert (Hex : Fs.exists_ (files w) src_dir = false) by (apply exists_false; exact Esrc).
    rewrite Hex in Hrun. injection Hrun as <-.
    split; [reflexivity|]. intros [? ?]; discriminate.
Qed.

Lemma season_part_length (sk : string) : (length (season_part sk) <= 1)%nat.
Proof. unfold season_part. destruct (String.eqb sk ""); simpl; lia. Qed.

Section Mirror.
Variables topdir dl out rel : Path.
Hypothesis Hdry : dry_run ARGS = false.
Hypothesis Hrel : relative_to topdir dl = Some rel.
Hypothesis Hapart : Fs.comparable topdir (out ++ rel) = false.

Let mirror := out ++ rel.

Lemma season_src_below (s : string) (r : Path) :
  topdir `prefix_of` season_src topdir s ++ r.
Proof.
  exists (season_part s ++ r). unfold season_src. symmetry. apply app_assoc.
Qed.

(** two seasons mirror the same path only from the same source path *)
Lemma season_paths (si sj : string) (r r' : Path) :
  season_dest mirror si ++ r = season_dest mirror sj ++ r' ->
  season_src topdir si ++ r = season_src topdir sj ++ r'.
Proof.
  unfold season_dest, season_src. rewrite <- !app_assoc.
  intros H%app_inv_head. rewrite H. reflexivity.
Qed.

(** no entry the walk of a season reaches is mirrored below the copy of a
    file of a season *)
Lemma below_file_unreached (fs : FS) (si sj : string) (r r' : Path)
    (nm : string) (data : list byte) :
  fs !! season_src topdir sj = Some Dir ->
  fs !! (season_src topdir sj ++ r') = Some (File data) ->
  Fs.visited fs (season_src topdir si) r = true ->
  season_dest mirror si ++ r = season_dest mirror sj ++ r' ++ [nm] -> False.
Proof.
  intros Hj Hf Hv Heq.
  assert (Hr' : r' <> []).
  { intros ->. rewrite app_nil_r in Hf. congruence. }
  destruct (decide (r = [])) as [->|Hne].
  - unfold season_dest in Heq. rewrite <- !app_assoc in Heq.
    apply app_inv_head in Heq. rewrite app_nil_r in Heq.
    apply (f_equal length) in Heq. rewrite !length_app in Heq. simpl in Heq.
    pose proof (season_part_length si). destruct r'; [congruence|]. simpl in Heq. lia.
  - destruct (exists_last Hne) as (r0 & x & ->).
    rewrite !app_assoc in Heq. apply app_inj_tail in Heq as [Heq _].
    apply season_paths in Heq. apply visited_parent in Hv. congruence.
Qed.

Section OneCopy.
Variables (fs : FS) (sj : string).
Hypothesis Hj : fs !! season_src topdir sj = Some Dir.
Hypothesis Hok : Fs.can_mkdirs fs (season_dest mirror sj) = true.

Lemma made_source (p : Path) :
  topdir `prefix_of` p -> Fs.mkdirs fs (season_dest mirror sj) !! p = fs !! p.
Proof.
  intros Hp. rewrite mkdirs_lookup, decide_False; [reflexivity|].
  intros Hin. apply ancestors_prefix in Hin.
  destruct (source_apart topdir mirror (season_part sj) p Hapart Hp) as [_ Hn].
  contradiction.
Qed.

Lemma made_walk (r : Path) (n : node) :
  (r, n) ∈ Fs.walk (Fs.mkdirs fs (season_dest mirror sj)) (season_src topdir sj) <->
  fs !! (season_src topdir sj ++ r) = Some n /\
  Fs.visited fs (season_src topdir sj) r = true.
Proof.
  rewrite elem_of_walk, made_source by apply season_src_below.
  rewrite (visited_ext _ fs); [reflexivity|].
  intros q. apply made_source, season_src_below.
Qed.

Lemma copied_cases (q : Path) :
  (exists r n, fs !! (season_src topdir sj ++ r) = Some n /\
               Fs.visited fs (season_src topdir sj) r = true /\
               q = Fs.landing (Fs.mkdirs fs (season_dest mirror sj))
                     (season_dest mirror sj) r n /\
               tree_copied fs (season_src topdir sj) (season_dest mirror sj) !! q = Some n) \/
  tree_copied fs (season_src topdir sj) (season_dest mirror sj) !! q =
    Fs.mkdirs fs (season_dest mirror sj) !! q.
Proof.
  unfold tree_copied.
  destruct (lay_cases (Fs.mkdirs fs (season_dest mirror sj)) (season_dest mirror sj)
              (Fs.walk (Fs.mkdirs fs (season_dest mirror sj)) (season_src topdir sj)) q)
    as [(r & n & Hin & Hq & Hv)|H]; [left | right; exact H].
  apply made_walk in Hin as [Hr Hvis]. exists r, n. auto.
Qed.

Lemma copied_landing (r : Path) (n : node) :
  fs !! (season_src topdir sj ++ r) = Some n ->
  Fs.visited fs (season_src topdir sj) r = true ->
  tree_copied fs (season_src topdir sj) (season_dest mirror sj) !!
    Fs.landing (Fs.mkdirs fs (season_dest mirror sj)) (season_dest mirror sj) r n = Some n.
Proof.
  intros Hr Hv. unfold tree_copied. apply lay_landing, made_walk. auto.
Qed.

(** the copy leaves the show as it was *)
Lemma copied_source (p : Path) :
  topdir `prefix_of` p ->
  tree_copied fs (season_src topdir sj) (season_dest mirror sj) !! p = fs !! p.
Proof.
  intros Hp.
  destruct (source_apart topdir mirror (season_part sj) p Hapart Hp) as [Hn _].
  rewrite tree_copied_outside by exact Hn. apply made_source, Hp.
Qed.

(** the copy writes at the mirrored directory, below it and above it
    only *)
Lemma copied_only (q : Path) :
  tree_copied fs (season_src topdir sj) (season_dest mirror sj) !! q = fs !! q \/
  season_dest mirror sj `prefix_of` q \/ q `prefix_of` season_dest mirror sj.
Proof.
  destruct (copied_cases q) as [(r & n & _ & _ & -> & _)|H].
  - right. left. apply landing_below.
  - rewrite H, mkdirs_lookup.
    destruct (decide (q ∈ ancestors (season_dest mirror sj) ++ [season_dest mirror sj]))
      as [Hin|_]; [|left; reflexivity].
    right. right. apply ancestors_prefix, Hin.
Qed.

(** a directory of the target at the mirrored path of a file of a season
    is still there after the copy *)
Lemma copied_dir_stays (si : string) (r : Path) (data : list byte) :
  fs !! (season_src topdir si ++ r) = Some (File data) ->
  Fs.visited fs (season_src topdir si) r = true ->
  Fs.mkdirs fs (season_dest mirror sj) !! (season_dest mirror si ++ r) = Some Dir ->
  tree_copied fs (season_src topdir sj) (season_dest mirror sj) !!
    (season_dest mirror si ++ r) = Some Dir.
Proof.
  intros Hs Hv Hd.
  destruct (copied_cases (season_dest mirror si ++ r))
    as [(r' & n' & Hs' & Hv' & Hq & _)|Heq]; [|rewrite Heq; exact Hd].
  exfalso.
  destruct (landing_cases (Fs.mkdirs fs (season_dest mirror sj))
              (season_dest mirror sj) r' n') as [Hl|(data' & -> & _ & Hl)].
  - assert (n' = Dir) as ->.
    { apply (landing_direct (Fs.mkdirs fs (season_dest mirror sj))
               (season_dest mirror sj) r'); [|exact Hl].
      rewrite <- Hl, <- Hq. exact Hd. }
    rewrite Hl in Hq. apply season_paths in Hq. congruence.
  - rewrite Hl in Hq. exact (below_file_unreached fs si sj r r' _ data' Hj Hs' Hv Hq).
Qed.

(** what was in place in a mirrored season before the copy is in place
    after it *)
Lemma copied_keeps (si : string) (r : Path) (n : node) :
  fs !! season_src topdir si = Some Dir ->
  fs !! (season_src topdir si ++ r) = Some n ->
  Fs.visited fs (season_src topdir si) r = true ->
  landed fs (season_dest mirror si) r n ->
  landed (tree_copied fs (season_src topdir sj) (season_dest mirror sj))
         (season_dest mirror si) r n.
Proof.
  intros Hi Hs Hv [Hd|(data & -> & Hd1 & Hd2)].
  - left.
    destruct (copied_cases (season_dest mirror si ++ r))
      as [(r' & n' & Hs' & Hv' & Hq & Hval)|Heq].
    + destruct (landing_cases (Fs.mkdirs fs (season_dest mirror sj))
                  (season_dest mirror sj) r' n') as [Hl|(data' & -> & _ & Hl)];
        rewrite Hl in Hq.
      * rewrite Hval. apply season_paths in Hq. congruence.
      * exfalso. exact (below_file_unreached fs si sj r r' _ data' Hj Hs' Hv Hq).
    + rewrite Heq. apply mkdirs_keeps; assumption.
  - right. exists data. split; [reflexivity|]. split.
    + apply copied_dir_stays with (data := data); try assumption.
      apply mkdirs_keeps; assumption.
    + destruct (copied_cases (season_dest mirror si ++ r ++ [name r]))
        as [(r' & n' & Hs' & Hv' & Hq & Hval)|Heq].
      * destruct (landing_cases (Fs.mkdirs fs (season_dest mirror sj))
                    (season_dest mirror sj) r' n') as [Hl|(data' & -> & _ & Hl)];
          rewrite Hl in Hq.
        -- exfalso. symmetry in Hq.
           exact (below_file_unreached fs sj si r' r _ data Hi Hs Hv' Hq).
        -- rewrite Hval. rewrite !app_assoc in Hq. apply app_inj_tail in Hq as [Hq _].
           apply season_paths in Hq. congruence.
      * rewrite Heq. apply mkdirs_keeps; assumption.
Qed.

(** every entry the walk of the season reaches is in place after the
    copy *)
Lemma copied_new (r : Path) (n : node) :
  fs !! (season_src topdir sj ++ r) = Some n ->
  Fs.visited fs (season_src topdir sj) r = true ->
  landed (tree_copied fs (season_src topdir sj) (season_dest mirror sj))
         (season_dest mirror sj) r n.
Proof.
  intros Hs Hv. pose proof (copied_landing r n Hs Hv) as Hl.
  destruct (landing_cases (Fs.mkdirs fs (season_dest mirror sj))
              (season_dest mirror sj) r n) as [E|(data & -> & Hd & E)];
    rewrite E in Hl.
  - left. exact Hl.
  - right. exists data. split; [reflexivity|]. split; [|exact Hl].
    apply copied_dir_stays with (data := data); assumption.
Qed.
End OneCopy.

(** the effect of one round of the consolidation on the stores *)
Lemma copy_season_effect (sk : string) (w w' : World) :
  copy_season topdir dl out sk w = Val tt w' ->
  let src_dir := season_src topdir sk in
  let dest_dir := season_dest mirror sk in
  (forall p, topdir `prefix_of` p -> files w' !! p = files w !! p) /\
  (forall s r n, files w !! season_src topdir s = Some Dir ->
                 files w !! (season_src topdir s ++ r) = Some n ->
                 Fs.visited (files w) (season_src topdir s) r = true ->
                 landed (files w) (season_dest mirror s) r n ->
                 landed (files w') (season_dest mirror s) r n) /\
  (is_Some (files w !! src_dir) ->
   forall r n, files w !! (src_dir ++ r) = Some n ->
               Fs.visited (files w) src_dir r = true ->
               landed (files w') dest_dir r n) /\
  stdout w' = stdout w ++
              (if Fs.exists_ (files w) src_dir then [copy_line topdir mirror sk] else []) /\
  (is_Some (files w !! src_dir) ->
   forall f, f ∈ Fs.descendants (files w) src_dir -> is_video (files w) f = true ->
             rec_status <$> table w' !! f = Some copied_season) /\
  (forall p, table w' !! p = table w !! p \/
             (rec_status <$> table w' !! p = Some copied_season /\
              is_Some (files w !! src_dir) /\
              p ∈ Fs.descendants (files w) src_dir /\ is_video (files w) p = true)) /\
  (forall q, files w' !! q = files w !! q \/
             (is_Some (files w !! src_dir) /\
              (dest_dir `prefix_of` q \/ q `prefix_of` dest_dir))).
Proof.
  intros Hrun src_dir dest_dir.
  destruct (copy_season_inv _ _ _ _ _ _ _ Hdry Hrel Hrun) as (Hnone & Hsome).
  fold mirror src_dir dest_dir in Hnone, Hsome.
  destruct (files w !! src_dir) as [n0|] eqn:Esrc.
  - destruct Hsome as (Hok & Hdir & Hfiles & Hout & Hstamped & Htable); [eauto|].
    rewrite <- Esrc in Hdir.
    assert (Hsrc : forall p, topdir `prefix_of` p -> files w' !! p = files w !! p).
    { intros p Hp. rewrite Hfiles. apply copied_source, Hp. }
    assert (Hdesc : forall f, f ∈ Fs.descendants (files w') src_dir <->
                              f ∈ Fs.descendants (files w) src_dir).
    { intros f. rewrite !elem_of_descendants.
      split; intros (r & Hr & -> & Hs); exists r;
        (split; [exact Hr|]; split; [reflexivity|]);
        [rewrite <- Hsrc | rewrite Hsrc]; try exact Hs; apply season_src_below. }
    assert (Hvid : forall f, f ∈ Fs.descendants (files w) src_dir ->
                             is_video (files w') f = is_video (files w) f).
    { intros f (r & _ & -> & _)%elem_of_descendants.
      unfold is_video, Fs.is_file. rewrite Hsrc by apply season_src_below. reflexivity. }
    split; [exact Hsrc|]. split; [|split; [|split; [|split; [|split]]]].
    + intros s r n Hs Hr Hv Hl. rewrite Hfiles.
      apply copied_keeps; assumption.
    + intros _ r n Hr Hv. rewrite Hfiles. apply copied_new; assumption.
    + rewrite Hout. rewrite (proj2 (exists_true _ _)) by eauto. reflexivity.
    + intros _ f Hin Hv. apply Hstamped; [apply Hdesc, Hin|].
      rewrite Hvid by exact Hin. exact Hv.
    + intros p. destruct (Htable p) as [H|(H & Hin & Hv)]; [left; exact H|].
      right. apply Hdesc in Hin. rewrite Hvid in Hv by exact Hin. eauto.
    + intros q. rewrite Hfiles.
      destruct (copied_only (files w) sk q) as [H|H]; [left; exact H | right; eauto].
  - rewrite (Hnone eq_refl).
    rewrite (proj2 (exists_false _ _)) by exact Esrc. rewrite app_nil_r.
    repeat split; auto; intros [? ?]; discriminate.
Qed.

(** the effect of the whole consolidation loop *)
Lemma consolidate_effect (l : list string) (w w2 : World) :
  for_each l (copy_season topdir dl out) w = Val tt w2 ->
  (forall p, topdir `prefix_of` p -> files w2 !! p = files w !! p) /\
  (forall s r n, files w !! season_src topdir s = Some Dir ->
                 files w !! (season_src topdir s ++ r) = Some n ->
                 Fs.visited (files w) (season_src topdir s) r = true ->
                 landed (files w) (season_dest mirror s) r n ->
                 landed (files w2) (season_dest mirror s) r n) /\
  (forall sk, sk ∈ l -> is_Some (files w !! season_src topdir sk) ->
     forall r n, files w !! (season_src topdir sk ++ r) = Some n ->
                 Fs.visited (files w) (season_src topdir sk) r = true ->
                 landed (files w2) (season_dest mirror sk) r n) /\
  stdout w2 = stdout w ++
    List.map (copy_line topdir mirror)
      (List.filter (fun sk => Fs.exists_ (files w) (season_src topdir sk)) l) /\
  (forall sk, sk ∈ l -> is_Some (files w !! season_src topdir sk) ->
     forall f, f ∈ Fs.descendants (files w) (season_src topdir sk) ->
               is_video (files w) f = true ->
               rec_status <$> table w2 !! f = Some copied_season) /\
  (forall p, table w2 !! p = table w !! p \/
             (rec_status <$> table w2 !! p = Some copied_season /\
              exists sk, sk ∈ l /\ is_Some (files w !! season_src topdir sk) /\
                         p ∈ Fs.descendants (files w) (season_src topdir sk) /\
                         is_video (files w) p = true)) /\
  (forall q, files w2 !! q = files w !! q \/
             exists sk, sk ∈ l /\ is_Some (files w !! season_src topdir sk) /\
                        (season_dest mirror sk `prefix_of` q \/
                         q `prefix_of` season_dest mirror sk)).
Proof.
  revert w. induction l as [|sk l IH]; intros w Hrun.
  - injection Hrun as <-. simpl. rewrite app_nil_r.
    repeat split; auto; intros sk Hin; inversion Hin.
  - simpl in Hrun. apply bind_inv in Hrun as ([] & wa & Hone & Hrest).
    destruct (copy_season_effect _ _ _ Hone) as (Ha & Hb & Hc & Hd & He & Hf & Hg).
    destruct (IH _ Hrest) as (IA & IB & IC & ID & IE & IF & IG).
    assert (Hsrc_eq : forall s r, files wa !! (season_src topdir s ++ r) =
                                  files w !! (season_src topdir s ++ r)).
    { intros s r. apply Ha, season_src_below. }
    assert (Hsrc_eq0 : forall s, files wa !! season_src topdir s =
                                 files w !! season_src topdir s).
    { intros s. specialize (Hsrc_eq s []). rewrite app_nil_r in Hsrc_eq. exact Hsrc_eq. }
    assert (Hvis : forall s r, Fs.visited (files wa) (season_src topdir s) r =
                               Fs.visited (files w) (season_src topdir s) r).
    { intros s r. apply visited_ext. intros q. apply Hsrc_eq. }
    assert (Hdesc : forall s f, f ∈ Fs.descendants (files wa) (season_src topdir s) <->
                                f ∈ Fs.descendants (files w) (season_src topdir s)).
    { intros s f. rewrite !elem_of_descendants.
      split; intros (r & Hr & -> & Hs); exists r;
        (split; [exact Hr|]; split; [reflexivity|]);
        [rewrite <- Hsrc_eq | rewrite Hsrc_eq]; exact Hs. }
    assert (Hvid : forall s f, f ∈ Fs.descendants (files w) (season_src topdir s) ->
                               is_video (files wa) f = is_video (files w) f).
    { intros s f (r & _ & -> & _)%elem_of_descendants.
      unfold is_video, Fs.is_file. rewrite Hsrc_eq. reflexivity. }
    split; [|split; [|split; [|split; [|split; [|split]]]]].
    + intros p Hp. rewrite IA, Ha by exact Hp. reflexivity.
    + intros s r n Hs Hr Hv Hl. apply IB.
      * rewrite Hsrc_eq0. exact Hs.
      * rewrite Hsrc_eq. exact Hr.
      * rewrite Hvis. exact Hv.
      * apply Hb; assumption.
    + intros s Hin Hs r n Hr Hv. apply elem_of_cons in Hin as [->|Hin].
      * assert (Hdir : files w !! season_src topdir sk = Some Dir).
        { destruct (copy_season_inv _ _ _ _ _ _ _ Hdry Hrel Hone) as (_ & Hsome).
          destruct (Hsome Hs) as (_ & Hdir & _). exact Hdir. }
        apply IB.
        -- rewrite Hsrc_eq0. exact Hdir.
        -- rewrite Hsrc_eq. exact Hr.
        -- rewrite Hvis. exact Hv.
        -- apply Hc; assumption.
      * apply IC; [exact Hin | rewrite Hsrc_eq0; exact Hs | rewrite Hsrc_eq; exact Hr |
                   rewrite Hvis; exact Hv].
    + rewrite ID, Hd. simpl. rewrite <- app_assoc. f_equal.
      assert (Hfilter : List.filter (fun s => Fs.exists_ (files wa) (season_src topdir s)) l =
                        List.filter (fun s => Fs.exists_ (files w) (season_src topdir s)) l).
      { apply filter_ext. intros s. unfold Fs.exists_. rewrite Hsrc_eq0. reflexivity. }
      rewrite Hfilter. destruct (Fs.exists_ (files w) (season_src topdir sk)); reflexivity.
    + intros s Hin Hs f Hf' Hv. apply elem_of_cons in Hin as [->|Hin].
      * destruct (IF f) as [H|[H _]]; [|exact H]. rewrite H. apply He; assumption.
      * apply IE with (sk := s); [exact Hin | rewrite Hsrc_eq0; exact Hs | |].
        -- apply Hdesc, Hf'.
        -- rewrite (Hvid s) by exact Hf'. exact Hv.
    + intros p. destruct (IF p) as [H|(H & s & Hin & Hs & Hp & Hv)].
      * rewrite H. destruct (Hf p) as [H'|(H' & Hs & Hp & Hv)]; [left; exact H'|].
        right. split; [exact H'|]. exists sk. split; [left|]. auto.
      * right. split; [exact H|]. exists s. split; [right; exact Hin|].
        rewrite Hsrc_eq0 in Hs. apply Hdesc in Hp.
        rewrite (Hvid s) in Hv by exact Hp. auto.
    + intros q. destruct (IG q) as [H|(s & Hin & Hs & Hq)].
      * rewrite H. destruct (Hg q) as [H'|[Hs Hq]]; [left; exact H'|].
        right. exists sk. split; [left|]. auto.
      * right. exists s. split; [right; exact Hin|]. rewrite Hsrc_eq0 in Hs. auto.
Qed.
End Mirror.

(** *** The grouping lists every key and every video once *)

Lemma dict_set_keys {V} (k x : string) (v : V) (d : list (string * V)) :
  x ∈ (dict_set k v d).*1 <-> x = k \/ x ∈ d.*1.
Proof.
  clear ARGS device downloader ffprobe HandBrakeCLI tmdb.
  induction d as [|[k' v'] d IH]; simpl.
  - rewrite list_elem_of_singleton. split; [auto | intros [H|H]; [exact H | inversion H]].
  - destruct (String.eqb k k') eqn:E; simpl.
    + apply String.eqb_eq in E. subst k'. rewrite !elem_of_cons. tauto.
    + rewrite !elem_of_cons, IH. tauto.
Qed.

Lemma dict_set_keys_NoDup {V} (k : string) (v : V) (d : list (string * V)) :
  NoDup (d.*1) -> NoDup ((dict_set k v d).*1).
Proof.
  induction d as [|[k' v'] d IH]; simpl; intros Hnd.
  - apply NoDup_singleton.
  - apply NoDup_cons in Hnd as [Hk Hnd].
    destruct (String.eqb k k') eqn:E; simpl.
    + apply String.eqb_eq in E. subst k'. apply NoDup_cons. auto.
    + apply String.eqb_neq in E. apply NoDup_cons. split; [|auto].
      rewrite dict_set_keys. intros [H|H]; [congruence | contradiction].
Qed.

Lemma dict_set_videos (k : string) (v : list Path) (d : list (string * list Path)) (p : Path) :
  p ∈ all_videos (dict_set k v d) -> p ∈ v \/ p ∈ all_videos d.
Proof.
  clear ARGS device downloader ffprobe HandBrakeCLI tmdb.
  unfold all_videos. induction d as [|[k' v'] d IH]; simpl.
  - rewrite app_nil_r. auto.
  - destruct (String.eqb k k'); simpl; rewrite !elem_of_app; [tauto|].
    intros [H|H]; [tauto|]. apply IH in H. tauto.
Qed.

Lemma dict_set_videos_NoDup (k : string) (v : list Path) (d : list (string * list Path)) :
  NoDup v -> NoDup (all_videos d) ->
  (forall p, p ∈ v -> p ∉ all_videos d) ->
  NoDup (all_videos (dict_set k v d)).
Proof.
  unfold all_videos. induction d as [|[k' v'] d IH]; simpl; intros Hv Hd Hdisj.
  - rewrite app_nil_r. exact Hv.
  - apply NoDup_app in Hd as (Hv' & Hvd & Hd).
    destruct (String.eqb k k'); simpl; apply NoDup_app.
    + split; [exact Hv|]. split; [|exact Hd].
      intros p Hp Hin. apply (Hdisj p Hp). apply elem_of_app. right. exact Hin.
    + split; [exact Hv'|]. split.
      * intros p Hp Hin. apply (dict_set_videos k v d) in Hin as [Hin|Hin].
        -- apply (Hdisj p Hin). apply elem_of_app. left. exact Hp.
        -- apply (Hvd p Hp Hin).
      * apply IH; [exact Hv | exact Hd|].
        intros p Hp Hin. apply (Hdisj p Hp). apply elem_of_app. right. exact Hin.
Qed.

Lemma NoDup_omap_fst {A B C} (f : A * B -> option C) (l : list (A * B)) :
  NoDup (l.*1) ->
  (forall a b a' b' c, f (a, b) = Some c -> f (a', b') = Some c -> a = a') ->
  NoDup (omap f l).
Proof.
  intros Hnd Hinj. induction l as [|[a b] l IH]; simpl; [constructor|].
  simpl in Hnd. apply NoDup_cons in Hnd as [Ha Hnd].
  destruct (f (a, b)) as [c|] eqn:E; [|auto].
  apply NoDup_cons. split; [|auto].
  intros ([a' b'] & Hin & Hc)%list_elem_of_omap.
  apply Ha. rewrite (Hinj _ _ _ _ _ E Hc).
  apply list_elem_of_fmap. exists (a', b'). auto.
Qed.

Lemma subtree_keys_NoDup (fs : FS) (d : Path) : NoDup ((Fs.subtree fs d).*1).
Proof.
  unfold Fs.subtree. rewrite list_fmap_omap.
  apply NoDup_omap_fst; [apply NoDup_fst_map_to_list|].
  intros p n p' n' r H H'.
  destruct (relative_to p d) as [r1|] eqn:E; simpl in H; [|discriminate].
  destruct (relative_to p' d) as [r2|] eqn:E'; simpl in H'; [|discriminate].
  injection H as <-. injection H' as <-.
  apply relative_to_Some in E, E'. congruence.
Qed.

Lemma children_NoDup (fs : FS) (d : Path) : NoDup (Fs.children fs d).
Proof.
  unfold Fs.children. apply NoDup_omap_fst; [apply subtree_keys_NoDup|].
  intros r n r' n' c H H'.
  destruct r as [|x [|]]; try discriminate. destruct r' as [|x' [|]]; try discriminate.
  injection H as <-. injection H' as H'. apply app_inv_head in H'. congruence.
Qed.

Lemma descendants_NoDup (fs : FS) (d : Path) : NoDup (Fs.descendants fs d).
Proof.
  unfold Fs.descendants. apply NoDup_omap_fst; [apply subtree_keys_NoDup|].
  intros r n r' n' c H H'.
  destruct r; [discriminate|]. destruct r'; [discriminate|].
  injection H as <-. injection H' as H'. apply app_inv_head in H'. congruence.
Qed.

Lemma elem_of_children (fs : FS) (d f : Path) :
  f ∈ Fs.children fs d -> exists x, f = d ++ [x].
Proof.
  unfold Fs.children. intros ([r n] & _ & H)%list_elem_of_omap.
  destruct r as [|x [|]]; try discriminate. injection H as <-. eauto.
Qed.

Lemma NoDup_flat_map {A B} (g : A -> list B) (l : list A) :
  NoDup l -> (forall x, x ∈ l -> NoDup (g x)) ->
  (forall x y p, x ∈ l -> y ∈ l -> p ∈ g x -> p ∈ g y -> x = y) ->
  NoDup (flat_map g l).
Proof.
  induction l as [|a l IH]; simpl; intros Hnd Hg Hdisj; [constructor|].
  apply NoDup_cons in Hnd as [Ha Hnd].
  apply NoDup_app. split; [apply Hg; left|]. split.
  - intros p Hp Hin. apply list_elem_of_In, in_flat_map in Hin as (y & Hy & Hpy).
    apply list_elem_of_In in Hy, Hpy.
    apply Ha. rewrite (Hdisj a y p); auto; [left | right; exact Hy].
  - apply IH; [exact Hnd | |].
    + intros x Hx. apply Hg. right. exact Hx.
    + intros x y p Hx Hy. apply Hdisj; right; assumption.
Qed.

Lemma elem_of_filter_bool {A} (f : A -> bool) (l : list A) (x : A) :
  x ∈ List.filter f l -> x ∈ l.
Proof. intros H. apply list_elem_of_In in H. apply filter_In in H as [H _]. apply list_elem_of_In, H. Qed.

Lemma NoDup_filter_bool {A} (f : A -> bool) (l : list A) :
  NoDup l -> NoDup (List.filter f l).
Proof.
  induction l as [|a l IH]; simpl; intros Hnd; [constructor|].
  apply NoDup_cons in Hnd as [Ha Hnd]. destruct (f a); [|auto].
  apply NoDup_cons. split; [|auto]. intros H. apply Ha, (elem_of_filter_bool f), H.
Qed.

(** a video of a season lies strictly below the season directory *)
Lemma season_videos_under (fs : FS) (d p : Path) :
  p ∈ season_videos fs d -> exists x r, p = d ++ x :: r.
Proof.
  unfold season_videos. intros H.
  apply list_elem_of_In, in_flat_map in H as (f & Hf & Hp).
  apply list_elem_of_In, elem_of_children in Hf as (x & ->).
  destruct (is_video fs (d ++ [x])).
  - destruct Hp as [<-|[]]. exists x, []. reflexivity.
  - destruct (Fs.is_dir fs (d ++ [x])); [|destruct Hp].
    apply list_elem_of_In, elem_of_filter_bool, elem_of_descendants in Hp
      as (r & _ & -> & _).
    exists x, r. rewrite <- app_assoc. reflexivity.
Qed.

Lemma season_videos_NoDup (fs : FS) (d : Path) : NoDup (season_videos fs d).
Proof.
  unfold season_videos. apply NoDup_flat_map; [apply children_NoDup | |].
  - intros f _. destruct (is_video fs f); [apply NoDup_singleton|].
    destruct (Fs.is_dir fs f); [|constructor].
    apply NoDup_filter_bool, descendants_NoDup.
  - intros f f' p Hf Hf' Hp Hp'.
    apply elem_of_children in Hf as (x & ->). apply elem_of_children in Hf' as (x' & ->).
    assert (Hunder : forall y, p ∈ (if is_video fs (d ++ [y]) then [d ++ [y]]
                                   else if Fs.is_dir fs (d ++ [y])
                                        then List.filter (is_video fs)
                                               (Fs.descendants fs (d ++ [y]))
                                        else []) ->
                               exists r, p = d ++ y :: r).
    { intros y H. destruct (is_video fs (d ++ [y])).
      - apply list_elem_of_singleton in H as ->. exists []. reflexivity.
      - destruct (Fs.is_dir fs (d ++ [y])); [|inversion H].
        apply elem_of_filter_bool, elem_of_descendants in H as (r & _ & -> & _).
        exists r. rewrite <- app_assoc. reflexivity. }
    destruct (Hunder _ Hp) as (r & ->). destruct (Hunder _ Hp') as (r' & H).
    apply app_inv_head in H. injection H as -> _. reflexivity.
Qed.

Lemma collect_keys_NoDup (fs : FS) (top : Path) : NoDup ((collect fs top).*1).
Proof.
  unfold collect.
  set (out0 := match List.filter (is_video fs) (Fs.children fs top) with
               | [] => []
               | _ :: _ => dict_set "" (List.filter (is_video fs) (Fs.children fs top)) []
               end).
  assert (H0 : NoDup (out0.*1)).
  { unfold out0. destruct (List.filter _ _); [constructor|].
    apply dict_set_keys_NoDup. constructor. }
  clearbody out0. revert out0 H0.
  induction (List.filter (Fs.is_dir fs) (Fs.children fs top)) as [|d ds IH];
    intros out0 H0; simpl; [exact H0|].
  apply IH. destruct (season_videos fs d); [exact H0|].
  apply dict_set_keys_NoDup, H0.
Qed.

(** the fold of [collect] over the season directories still to visit keeps
    the videos distinct: none gathered so far lies below a directory to come *)
Lemma collect_fold_NoDup (fs : FS) (top : Path) (ds : list Path)
    (out : list (string * list Path)) :
  NoDup ds ->
  (forall d, d ∈ ds -> exists y, d = top ++ [y]) ->
  NoDup (all_videos out) ->
  (forall p d x r, p ∈ all_videos out -> d ∈ ds -> p <> d ++ x :: r) ->
  NoDup (all_videos
           (foldl (fun out d =>
                     match season_videos fs d with
                     | [] => out
                     | vids => dict_set (name d) vids out
                     end) out ds)).
Proof.
  revert out. induction ds as [|d ds IH]; intros out Hnd Hch Hout Hinv; simpl; [exact Hout|].
  apply NoDup_cons in Hnd as [Hd Hnd].
  apply IH; [exact Hnd | intros d' Hd'; apply Hch; right; exact Hd' | |].
  - destruct (season_videos fs d) as [|v vs] eqn:E; [exact Hout|].
    apply dict_set_videos_NoDup; [rewrite <- E; apply season_videos_NoDup | exact Hout|].
    intros p Hp Hin. rewrite <- E in Hp.
    apply season_videos_under in Hp as (x & r & ->).
    apply (Hinv _ d x r Hin); [left | reflexivity].
  - intros p d2 x2 r2 Hp Hd2.
    assert (Hold : p ∈ all_videos out -> p <> d2 ++ x2 :: r2).
    { intros Hin. apply Hinv; [exact Hin | right; exact Hd2]. }
    destruct (season_videos fs d) as [|v vs] eqn:E; [auto|].
    apply dict_set_videos in Hp as [Hp|Hp]; [|auto].
    rewrite <- E in Hp. apply season_videos_under in Hp as (x & r & ->).
    destruct (Hch d) as (y & ->); [left|].
    destruct (Hch d2) as (y2 & ->); [right; exact Hd2|].
    intros H. rewrite <- !app_assoc in H. apply app_inv_head in H.
    injection H as -> _. contradiction.
Qed.

Lemma collect_videos_NoDup (fs : FS) (top : Path) : NoDup (all_videos (collect fs top)).
Proof.
  unfold collect. apply (collect_fold_NoDup fs top).
  - apply NoDup_filter_bool, children_NoDup.
  - intros d Hd. apply elem_of_filter_bool, elem_of_children in Hd. exact Hd.
  - destruct (List.filter (is_video fs) (Fs.children fs top)) as [|v vs] eqn:E; [constructor|].
    unfold all_videos. simpl. rewrite app_nil_r, <- E.
    apply NoDup_filter_bool, children_NoDup.
  - intros p d x r Hp Hd.
    destruct (List.filter (is_video fs) (Fs.children fs top)) as [|v vs] eqn:E;
      [inversion Hp|].
    unfold all_videos in Hp. simpl in Hp. rewrite app_nil_r, <- E in Hp.
    apply elem_of_filter_bool, elem_of_children in Hp as (x0 & ->).
    apply elem_of_filter_bool, elem_of_children in Hd as (y & ->).
    intros H. rewrite <- app_assoc in H. apply app_inv_head in H. discriminate.
Qed.

(** [process_show_topdir] on a show with videos is the decision phase, the
    consolidation and the poster step, in this order *)
Lemma process_show_topdir_run (topdir dl out : Path) (tmdb_key : option string) (w : World) :
  Fs.is_dir (files w) topdir = true ->
  collect (files w) topdir <> [] ->
  process_show_topdir topdir dl out tmdb_key w =
  (season_needs_copy ← decide_all (collect (files w) topdir) dl out;
   consolidate topdir dl out season_needs_copy ;;
   if negb (no_posters ARGS) && negb (posters_only ARGS) then
     fetch_and_save_show_poster (name topdir) out tmdb_key dl false ;; mret tt
   else mret tt) (logged ("Processing show topdir: " +:+ str topdir) w).
Proof.
  intros Hdir Hne. unfold process_show_topdir.
  erewrite bind_val by reflexivity.
  erewrite bind_val by (apply collect_videos_run; exact Hdir).
  change (files (logged ("Processing show topdir: " +:+ str topdir) w)) with (files w).
  destruct (collect (files w) topdir); [congruence | reflexivity].
Qed.

(** C4. Once every video of the grouping of a show has gone through the
    engine, the seasons flagged are exactly those with a video that ended in
    [skipped_moved] or [kept_original_moved].  Outside a dry run, with the
    show directory and its mirror apart, a consolidation that returns has
    logged one copy per flagged season whose directory exists, in the order
    the set is iterated, and no other.  For each such season (the show
    directory itself for the empty identifier, the seasons below it
    included whether flagged or not) every entry the walk of its directory
    reaches is in place in the mirrored directory - at the same relative
    path, or inside a directory the target already had there - and every
    video file below it has status [copied_season] whatever it had before.
    The show itself is as it was; no path is written other than at, above
    or below the mirrored directory of such a season, and no row is written
    other than [copied_season] on a video below such a season's
    directory. *)
Theorem season_consolidation (topdir dl out rel : Path)
    (flags : gset string) (w w1 w2 : World) :
  dry_run ARGS = false ->
  relative_to topdir dl = Some rel ->
  Fs.comparable topdir (out ++ rel) = false ->
  set_order w1 flags ≡ₚ elements flags ->
  decide_all (collect (files w) topdir) dl out w = Val flags w1 ->
  consolidate topdir dl out flags w1 = Val tt w2 ->
  (forall sk, sk ∈ flags <->
     exists vids vid, (sk, vids) ∈ collect (files w) topdir /\ vid ∈ vids /\
                      relocated_original w1 vid) /\
  stdout w2 = stdout w1 ++
    List.map (copy_line topdir (out ++ rel))
      (List.filter (fun sk => Fs.exists_ (files w1) (season_src topdir sk))
                   (set_order w1 flags)) /\
  (forall sk, sk ∈ flags -> is_Some (files w1 !! season_src topdir sk) ->
     (forall r n, files w1 !! (season_src topdir sk ++ r) = Some n ->
                  Fs.visited (files w1) (season_src topdir sk) r = true ->
                  landed (files w2) (season_dest (out ++ rel) sk) r n) /\
     (forall f, f ∈ Fs.descendants (files w1) (season_src topdir sk) ->
                is_video (files w1) f = true ->
                rec_status <$> table w2 !! f = Some copied_season)) /\
  (forall p, topdir `prefix_of` p -> files w2 !! p = files w1 !! p) /\
  (forall q, files w2 !! q = files w1 !! q \/
     exists sk, sk ∈ flags /\ is_Some (files w1 !! season_src topdir sk) /\
                (season_dest (out ++ rel) sk `prefix_of` q \/
                 q `prefix_of` season_dest (out ++ rel) sk)) /\
  (forall p, table w2 !! p = table w1 !! p \/
     (rec_status <$> table w2 !! p = Some copied_season /\
      exists sk, sk ∈ flags /\ is_Some (files w1 !! season_src topdir sk) /\
                 p ∈ Fs.descendants (files w1) (season_src topdir sk) /\
                 is_video (files w1) p = true)).
Proof.
  intros Hdry Hrel Hapart Hperm Hdecide Hcons.
  split.
  { exact (decide_all_inv _ _ _ _ _ _ Hdecide (collect_keys_NoDup _ _)
             (collect_videos_NoDup _ _)). }
  assert (Hmem : forall sk, sk ∈ set_order w1 flags <-> sk ∈ flags).
  { intros sk. rewrite <- elem_of_elements, !list_elem_of_In.
    split; apply Permutation_in; [exact Hperm | symmetry; exact Hperm]. }
  unfold consolidate in Hcons.
  destruct (consolidate_effect topdir dl out rel Hdry Hrel Hapart _ _ _ Hcons)
    as (Ha & _ & Hc & Hd & He & Hf & Hg).
  split; [exact Hd|]. split; [|split; [exact Ha|split]].
  - intros sk Hin Hs. apply Hmem in Hin. split.
    + apply Hc; assumption.
    + apply He; assumption.
  - intros q. destruct (Hg q) as [H|(sk & Hin & H)]; [left; exact H|].
    right. exists sk. split; [apply Hmem, Hin | exact H].
  - intros p. destruct (Hf p) as [H|(H & sk & Hin & H')]; [left; exact H|].
    right. split; [exact H|]. exists sk. split; [apply Hmem, Hin | exact H'].
Qed.


(** ** Strings: substrings and the last dot *)

Lemma str_app_assoc (a b c : string) : (a +:+ b) +:+ c = a +:+ (b +:+ c).
Proof.
  induction a as [|x a IH]; [reflexivity|].
  rewrite !str_app_cons. f_equal. exact IH.
Qed.

Lemma str_app_nil_r (a : string) : a +:+ "" = a.
Proof.
  induction a as [|x a IH]; [reflexivity|].
  rewrite str_app_cons, IH. reflexivity.
Qed.

Lemma prefix_iff (p s : string) : String.prefix p s = true <-> exists b, s = p +:+ b.
Proof.
  revert s. induction p as [|c p IH]; intros s.
  - destruct s; simpl; split; eauto.
  - destruct s as [|d s]; simpl.
    + split; [discriminate | intros [b H]; discriminate].
    + destruct (ascii_dec c d) as [->|Hne].
      * rewrite IH. split; intros [b H]; exists b.
        -- rewrite H. reflexivity.
        -- rewrite str_app_cons in H. injection H as H. exact H.
      * split; [discriminate|]. intros [b H].
        rewrite str_app_cons in H. injection H as H _. congruence.
Qed.

Lemma contains_iff (p s : string) :
  Str.contains p s = true <-> exists a b, s = a +:+ p +:+ b.
Proof.
  induction s as [|c s IH]; cbn [Str.contains].
  - rewrite orb_false_r, prefix_iff. split.
    + intros [b H]. exists "", b. exact H.
    + intros (a & b & H). destruct a; [exists b; exact H | discriminate].
  - rewrite orb_true_iff, prefix_iff, IH. split.
    + intros [[b H]|(a & b & H)].
      * exists "", b. exact H.
      * exists (String c a), b. rewrite str_app_cons, H. reflexivity.
    + intros (a & b & H). destruct a as [|x a].
      * left. exists b. exact H.
      * right. rewrite str_app_cons in H. injection H as -> H. eauto.
Qed.

Lemma endswith_iff (s p : string) : Str.endswith s p = true <-> exists a, s = a +:+ p.
Proof.
  induction s as [|c s IH]; cbn [Str.endswith].
  - rewrite orb_false_r, String.eqb_eq. split.
    + intros <-. exists "". reflexivity.
    + intros [a H]. destruct a; [exact H | discriminate].
  - rewrite orb_true_iff, String.eqb_eq, IH. split.
    + intros [<-|[a ->]]; [exists ""; reflexivity | exists (String c a); reflexivity].
    + intros [a H]. destruct a as [|x a]; [left; exact H | right].
      rewrite str_app_cons in H. injection H as -> H. eauto.
Qed.

Lemma drop_zero (s : string) : Str.drop 0 s = s.
Proof.
  unfold Str.drop. rewrite Nat.sub_0_r.
  induction s as [|c s IH]; simpl; [reflexivity|]. f_equal. exact IH.
Qed.

Lemma take_app (a b : string) : Str.take (String.length a) (a +:+ b) = a.
Proof.
  unfold Str.take. induction a as [|c a IH]; simpl.
  - destruct b; reflexivity.
  - f_equal. exact IH.
Qed.

Lemma drop_app (a b : string) : Str.drop (String.length a) (a +:+ b) = b.
Proof.
  induction a as [|c a IH]; [apply drop_zero|]. exact IH.
Qed.

(** the text from the last dot on has its only dot in front *)
Lemma rfind_dot_drop (s : string) (i : nat) :
  Str.rfind_dot s = Some i ->
  Str.rfind_dot (Str.drop i s) = Some 0%nat /\
  String.length (Str.drop i s) = (String.length s - i)%nat.
Proof.
  revert i. induction s as [|c s IH]; intros i; simpl; [discriminate|].
  destruct (Str.rfind_dot s) as [j|] eqn:E.
  - intros [= <-]. destruct (IH j eq_refl) as (H1 & H2).
    split; [exact H1 | exact H2].
  - destruct (Ascii.eqb c ".") eqn:Ec; [|discriminate]. intros [= <-].
    rewrite drop_zero. simpl. rewrite E, Ec. split; [reflexivity | lia].
Qed.

Lemma split_at_app (a suf : string) :
  a <> "" -> Str.rfind_dot suf = Some 0%nat -> (2 <= String.length suf)%nat ->
  split_at (a +:+ suf) = Some (String.length a).
Proof.
  intros Ha Hs Hl. unfold split_at.
  rewrite rfind_dot_app, Hs, Nat.add_0_r, str_app_length.
  assert (Hpos : (0 < String.length a)%nat) by (destruct a; [congruence | simpl; lia]).
  rewrite (proj2 (Nat.ltb_lt _ _) Hpos).
  assert (Hlt : (String.length a < String.length a + String.length suf - 1)%nat) by lia.
  rewrite (proj2 (Nat.ltb_lt _ _) Hlt). reflexivity.
Qed.

(** a name with a suffix splits at its last dot, and the suffix is the dot
    and at least one more character *)
Lemma split_name (nm : string) :
  suffix_of nm <> "" ->
  exists k, split_at nm = Some k /\
            Str.rfind_dot (Str.drop k nm) = Some 0%nat /\
            (2 <= String.length (Str.drop k nm))%nat.
Proof.
  unfold suffix_of. destruct (split_at nm) as [k|] eqn:Ek; [|congruence].
  intros _. exists k. split; [reflexivity|].
  unfold split_at in Ek. destruct (Str.rfind_dot nm) as [k'|] eqn:Er; [|discriminate].
  destruct ((0 <? k')%nat && (k' <? String.length nm - 1)%nat) eqn:Ec; [|discriminate].
  injection Ek as <-.
  apply andb_true_iff in Ec as [H0 H1]. apply Nat.ltb_lt in H0, H1.
  destruct (rfind_dot_drop _ _ Er) as (Hd0 & Hdl).
  split; [exact Hd0 | lia].
Qed.

(** ** More on collision-safe naming (lines 55-61) *)

(** X1. [unique_dest] on a path with a name always returns, changes nothing,
    and returns a path of the same directory that does not exist: the path
    itself when that is free, and otherwise the candidate with the least
    counter from 1 whose name is free. *)
Theorem unique_dest_fresh (dest : Path) (w : World) :
  name dest <> "" ->
  exists c,
    unique_dest dest w = Val c w /\
    files w !! c = None /\
    parent c = parent dest /\
    (files w !! dest = None -> c = dest) /\
    (is_Some (files w !! dest) ->
     exists i, (1 <= i)%nat /\ c = candidate dest i /\
               forall k, (1 <= k < i)%nat -> is_Some (files w !! candidate dest k)).
Proof.
  intros Hname.
  destruct (unique_dest_spec dest w Hname) as (c & Hrun & Hfree & Hshape).
  exists c. split; [exact Hrun|]. split; [exact Hfree|].
  destruct Hshape as [->|(Htaken & i & Hi & -> & Hbelow)].
  - split; [reflexivity|]. split; [reflexivity|].
    intros [n Hn]. congruence.
  - split; [apply candidate_parent|]. split.
    + intros Hnone. rewrite Hnone in Htaken. destruct Htaken; discriminate.
    + intros _. exists i. auto.
Qed.

(** X2. A candidate of a path with a suffix keeps that suffix, and its stem
    is the old stem followed by an underscore and the counter: a renamed
    [a.mkv] is [a_1.mkv], still a video by its extension. *)
Theorem candidate_keeps_suffix (dest : Path) (i : nat) :
  suffix dest <> "" ->
  suffix (candidate dest i) = suffix dest /\
  stem (candidate dest i) = stem dest +:+ "_" +:+ pretty i.
Proof.
  intros Hs. unfold candidate. unfold suffix, stem in *. rewrite name_snoc.
  set (nm := name dest) in *.
  destruct (split_name nm Hs) as (k & Ek & Hd0 & Hdl).
  assert (Hsuf : suffix_of nm = Str.drop k nm) by (unfold suffix_of; rewrite Ek; reflexivity).
  assert (Hstem : stem_of nm = Str.take k nm) by (unfold stem_of; rewrite Ek; reflexivity).
  rewrite Hsuf, Hstem.
  set (a := Str.take k nm +:+ "_" +:+ pretty i).
  assert (Hname : Str.take k nm +:+ "_" +:+ pretty i +:+ Str.drop k nm
                  = a +:+ Str.drop k nm).
  { unfold a. rewrite !str_app_assoc. reflexivity. }
  rewrite Hname.
  assert (Ha : a <> "").
  { intros H. apply (f_equal String.length) in H.
    unfold a in H. rewrite !str_app_length in H. simpl in H. lia. }
  unfold suffix_of, stem_of.
  rewrite (split_at_app a _ Ha Hd0 Hdl).
  rewrite drop_app, take_app. split; reflexivity.
Qed.

(** ** Temporary names (lines 63-67, 254-256) *)

(** X3. A name is temporary exactly when one of the five patterns occurs
    somewhere in it; the [endswith] test of the code adds nothing to the
    substring test. *)
Theorem temporary_name_iff (nm : string) :
  is_temporary_name nm = true <->
  exists p a b, p ∈ TEMP_PATTERNS /\ nm = a +:+ p +:+ b.
Proof.
  unfold is_temporary_name. rewrite existsb_exists. split.
  - intros (p & Hin & H). apply orb_true_iff in H as [H|H].
    + apply endswith_iff in H as [a ->]. exists p, a, "".
      split; [apply list_elem_of_In, Hin|]. rewrite str_app_nil_r. reflexivity.
    + apply contains_iff in H as (a & b & ->). exists p, a, b.
      split; [apply list_elem_of_In, Hin | reflexivity].
  - intros (p & a & b & Hin & ->). exists p.
    split; [apply list_elem_of_In, Hin|].
    apply orb_true_iff. right. apply contains_iff. eauto.
Qed.

(** X4. A file with a temporary name is never processed, whatever its
    status and the flags: the engine returns, and the store, the status
    table, the operator's input and the clock are as before. *)
Theorem temporary_name_never_processed (src dl out : Path) (w : World) :
  is_temporary_name (name src) = true ->
  exists w',
    process_movie_file src dl out w = Val tt w' /\
    files w' = files w /\ table w' = table w /\
    stdin w' = stdin w /\ clock w' = clock w.
Proof.
  intros Htemp. unfold process_movie_file, status_of, gets, mbind, M_bind.
  destruct (status_in _ gated).
  - exists w. repeat split; reflexivity.
  - unfold confirmation_gate. rewrite Htemp.
    eexists. split; [reflexivity|]. repeat split; reflexivity.
Qed.

(** ** The status table (lines 84-96) *)

(** X5. After [mark] the status read back for the path is the one written;
    the row keeps the [added_at] of an earlier row of the path (a first row
    gets the current time), takes the current time as [updated_at] and the
    note given; no other row, and nothing of the store, changes. *)
Theorem mark_then_status_of (p : Path) (s : status) (nt : option string) (w : World) :
  exists w',
    mark p s nt w = Val tt w' /\
    status_of p w' = Val (Some s) w' /\
    table w' !! p =
      Some (mkRecord s (default (clock w) (added_at <$> table w !! p)) (clock w) nt) /\
    (forall q, q <> p -> table w' !! q = table w !! q) /\
    files w' = files w /\ clock w' = clock w.
Proof.
  exists (upsert p s nt w). split; [reflexivity|].
  split; [unfold status_of, gets; rewrite upsert_status; reflexivity|].
  split.
  { unfold upsert. simpl. destruct (table w !! p); rewrite lookup_insert_eq; reflexivity. }
  split; [intros q Hq; apply upsert_other, Hq|].
  split; reflexivity.
Qed.

(** ** What a stability check costs (lines 99-109) *)

(** X6. [file_is_stable] answers at once, without sleeping, for a path that
    does not exist and is not below a regular file.  For a path that exists
    and a wait that is not negative it sleeps the whole wait, during which
    the other processes write, and then answers unless the path has come to
    lie below a regular file.  Whether it answers or raises, it never
    touches the status table or the terminal. *)
Theorem file_is_stable_cost (p : Path) (wait : Z) (w : World) :
  (files w !! p = None -> Fs.below_file (files w) p = false ->
   file_is_stable p wait w = Val false w) /\
  (is_Some (files w !! p) -> (0 <= wait)%Z ->
   Fs.below_file (files (slept wait w)) p = false ->
   exists b w',
     file_is_stable p wait w = Val b w' /\
     clock w' = (wait + clock w)%Z /\ files w' = downloader (clock w) (files w)) /\
  match file_is_stable p wait w with
  | Val _ w' | Exc _ w' =>
      table w' = table w /\ stdin w' = stdin w /\ stdout w' = stdout w
  | Stuck => False
  end.
Proof.
  rewrite file_is_stable_run. split; [|split].
  - intros -> ->. reflexivity.
  - intros [n1 ->] Hwait Hbelow.
    rewrite (proj2 (Z.ltb_ge _ _) Hwait), Hbelow.
    destruct (files (slept wait w) !! p); eexists _, _; repeat split.
  - destruct (files w !! p) as [n1|].
    + destruct (wait <? 0)%Z; [repeat split|].
      destruct (files (slept wait w) !! p) as [n2|]; [repeat split|].
      destruct (Fs.below_file (files (slept wait w)) p); repeat split.
    + destruct (Fs.below_file (files w) p); repeat split.
Qed.

(** ** The mirrored path (lines 235-239) *)

(** X21. For a source below the downloads root, [rel_output_path] returns
    the path with the same relative part below the output root and leaves
    its parent a directory, keeping every entry of the store; for a source
    not below the downloads root it raises ValueError and changes nothing. *)
Theorem rel_output_path_spec (dl src out : Path) (w : World) :
  (forall rel, relative_to src dl = Some rel ->
     Fs.can_mkdirs (files w) (parent (out ++ rel)) = true ->
     exists w',
       rel_output_path dl src out w = Val (out ++ rel) w' /\
       relative_to (out ++ rel) out = Some rel /\
       Fs.is_dir (files w') (parent (out ++ rel)) = true /\
       (forall q n, files w !! q = Some n -> files w' !! q = Some n) /\
       table w' = table w) /\
  (relative_to src dl = None -> rel_output_path dl src out w = Exc ValueError w).
Proof.
  split.
  - intros rel Hrel Hok. unfold rel_output_path. rewrite Hrel.
    erewrite bind_val by reflexivity.
    erewrite bind_val by (apply ensure_dir_run, Hok).
    eexists. split; [reflexivity|].
    split; [apply relative_to_app|].
    split; [simpl; apply mkdirs_is_dir|].
    split; [|reflexivity].
    intros q n Hq. simpl. apply mkdirs_keeps; assumption.
  - intros Hrel. unfold rel_output_path. rewrite Hrel. reflexivity.
Qed.

(** ** Asking the operator (lines 241-248, 257-260) *)

Lemma input_run (prompt l : string) (ls : list string) (w : World) :
  stdin w = l :: ls ->
  input prompt w = Val l (set_stdin (fun _ => ls) (set_stdout (fun o => o ++ [prompt]) w)).
Proof. intros H. unfold input. rewrite H. reflexivity. Qed.

Lemma input_eof (prompt : string) (w : World) :
  stdin w = [] -> input prompt w = Exc EOFError (set_stdout (fun o => o ++ [prompt]) w).
Proof. intros H. unfold input. rewrite H. reflexivity. Qed.

(** one round of the loop on a line that answers, and on one that does not *)
Lemma ask_confirm_loop_answers (k : nat) (prompt l : string) (ls : list string)
    (b : bool) (w : World) :
  stdin w = l :: ls -> answer l = Some b ->
  ask_confirm_loop (S k) prompt w =
    Val b (set_stdin (fun _ => ls) (set_stdout (fun o => o ++ [prompt +:+ " [y/N]: "]) w)).
Proof.
  intros Hin Hans. cbn [ask_confirm_loop].
  erewrite bind_val by (apply input_run; exact Hin).
  unfold answer in Hans. cbv zeta in *.
  destruct (str_in _ ["y"; "yes"]); [injection Hans as <-; reflexivity|].
  destruct (str_in _ ["n"; "no"; ""]); [injection Hans as <-; reflexivity|].
  discriminate.
Qed.

Lemma ask_confirm_loop_repeats (k : nat) (prompt l : string) (ls : list string) (w : World) :
  stdin w = l :: ls -> answer l = None ->
  ask_confirm_loop (S k) prompt w =
    ask_confirm_loop k prompt
      (set_stdin (fun _ => ls) (set_stdout (fun o => o ++ [prompt +:+ " [y/N]: "]) w)).
Proof.
  intros Hin Hans. cbn [ask_confirm_loop].
  erewrite bind_val by (apply input_run; exact Hin).
  unfold answer in Hans. cbv zeta in *.
  destruct (str_in _ ["y"; "yes"]); [discriminate|].
  destruct (str_in _ ["n"; "no"; ""]); [discriminate|].
  reflexivity.
Qed.

Lemma ask_confirm_loop_reads (prompt : string) (junk : list string) (line : string)
    (rest : list string) (b : bool) (fuel : nat) (w : World) :
  Forall (fun l => answer l = None) junk ->
  answer line = Some b ->
  stdin w = junk ++ line :: rest ->
  (length junk < fuel)%nat ->
  exists w',
    ask_confirm_loop fuel prompt w = Val b w' /\
    stdin w' = rest /\
    stdout w' = stdout w ++ replicate (S (length junk)) (prompt +:+ " [y/N]: ") /\
    files w' = files w /\ table w' = table w /\ clock w' = clock w.
Proof.
  intros Hjunk Hans. revert fuel w.
  induction Hjunk as [|j junk Hj _ IH]; intros fuel w Hin Hlen;
    (destruct fuel as [|k]; [simpl in Hlen; lia|]).
  - rewrite (ask_confirm_loop_answers k prompt line rest b w Hin Hans).
    eexists. split; [reflexivity|]. repeat split; reflexivity.
  - rewrite (ask_confirm_loop_repeats k prompt j (junk ++ line :: rest) w Hin Hj).
    destruct (IH k (set_stdin (fun _ => junk ++ line :: rest)
                     (set_stdout (fun o => o ++ [prompt +:+ " [y/N]: "]) w)))
      as (w' & Hrun & H1 & H2 & H3 & H4 & H5); [reflexivity | simpl in Hlen; lia|].
    exists w'. split; [exact Hrun|]. split; [exact H1|].
    split; [|auto].
    rewrite H2. simpl. rewrite <- app_assoc. reflexivity.
Qed.

(** X7. Outside a dry run [ask_confirm] reads lines until one answers: the
    lines before it that are none of y, yes, n, no or blank (after stripping
    and lower-casing) are consumed, the prompt is printed once per line read,
    the answer is yes exactly for y or yes, and the lines after the answer
    are left for the next question.  Store, table and clock do not change. *)
Theorem ask_confirm_answer (prompt : string) (junk : list string) (line : string)
    (rest : list string) (b : bool) (w : World) :
  dry_run ARGS = false ->
  Forall (fun l => answer l = None) junk ->
  answer line = Some b ->
  stdin w = junk ++ line :: rest ->
  exists w',
    ask_confirm prompt w = Val b w' /\
    stdin w' = rest /\
    stdout w' = stdout w ++ replicate (S (length junk)) (prompt +:+ " [y/N]: ") /\
    files w' = files w /\ table w' = table w /\ clock w' = clock w.
Proof.
  intros Hdry Hjunk Hans Hin. unfold ask_confirm. rewrite Hdry.
  apply (ask_confirm_loop_reads prompt junk line rest b); try assumption.
  rewrite Hin, length_app. simpl. lia.
Qed.

Lemma ask_confirm_loop_eof (prompt : string) (l : list string) (fuel : nat) (w : World) :
  Forall (fun l => answer l = None) l ->
  stdin w = l ->
  (length l < fuel)%nat ->
  exists w',
    ask_confirm_loop fuel prompt w = Exc EOFError w' /\
    stdin w' = [] /\
    stdout w' = stdout w ++ replicate (S (length l)) (prompt +:+ " [y/N]: ") /\
    files w' = files w /\ table w' = table w /\ clock w' = clock w.
Proof.
  intros Hl. revert fuel w.
  induction Hl as [|j l Hj _ IH]; intros fuel w Hin Hlen;
    (destruct fuel as [|k]; [simpl in Hlen; lia|]).
  - cbn [ask_confirm_loop]. unfold mbind, M_bind.
    rewrite (input_eof _ _ Hin).
    eexists. split; [reflexivity|]. repeat split; try reflexivity. exact Hin.
  - rewrite (ask_confirm_loop_repeats k prompt j l w Hin Hj).
    destruct (IH k (set_stdin (fun _ => l)
                     (set_stdout (fun o => o ++ [prompt +:+ " [y/N]: "]) w)))
      as (w' & Hrun & H1 & H2 & H3 & H4 & H5); [reflexivity | simpl in Hlen; lia|].
    exists w'. split; [exact Hrun|]. split; [exact H1|].
    split; [|auto].
    rewrite H2. simpl. rewrite <- app_assoc. reflexivity.
Qed.

(** X8. Outside a dry run, when the operator's input ends before a line
    answers, [ask_confirm] raises EOFError after consuming every line and
    printing the prompt once more than there were lines. *)
Theorem ask_confirm_eof (prompt : string) (w : World) :
  dry_run ARGS = false ->
  Forall (fun l => answer l = None) (stdin w) ->
  exists w',
    ask_confirm prompt w = Exc EOFError w' /\
    stdin w' = [] /\
    stdout w' = stdout w ++ replicate (S (length (stdin w))) (prompt +:+ " [y/N]: ") /\
    files w' = files w /\ table w' = table w /\ clock w' = clock w.
Proof.
  intros Hdry Hl. unfold ask_confirm. rewrite Hdry.
  apply ask_confirm_loop_eof; [exact Hl | reflexivity | lia].
Qed.

(** X9. Under --confirm and outside a dry run, a file that passes the
    idempotency gate and the temp-name gate and whose question is answered
    with n, no or a blank line is recorded as [skipped_by_user] with the note
    "user skipped"; the store and the clock are untouched and one line of
    input is consumed. *)
Theorem operator_decline_recorded (src dl out : Path) (line : string)
    (rest : list string) (w : World) :
  confirm ARGS = true ->
  dry_run ARGS = false ->
  status_in (rec_status <$> table w !! src) gated = false ->
  is_temporary_name (name src) = false ->
  stdin w = line :: rest ->
  answer line = Some false ->
  exists w',
    process_movie_file src dl out w = Val tt w' /\
    rec_status <$> table w' !! src = Some skipped_by_user /\
    note <$> table w' !! src = Some (Some "user skipped") /\
    files w' = files w /\ clock w' = clock w /\ stdin w' = rest.
Proof.
  intros Hconf Hdry Hgate Htemp Hin Hans.
  unfold process_movie_file, status_of, gets, mbind, M_bind.
  rewrite Hgate. unfold confirmation_gate. rewrite Htemp.
  unfold operator_declines, ask_confirm. rewrite Hconf, Hdry.
  unfold mbind, M_bind, fmap, M_fmap.
  rewrite (ask_confirm_loop_answers _ _ line rest false w Hin Hans).
  cbn [negb]. cbv beta iota.
  eexists. split; [reflexivity|].
  split; [apply upsert_status|]. split; [apply upsert_note|].
  repeat split; reflexivity.
Qed.

(** ** What a pass never does *)

(** *** It never records [processing] *)

#[local] Instance no_new_refl s : Reflexive (no_new s).
Proof. intros w p H. exact H. Qed.
#[local] Instance no_new_trans s : Transitive (no_new s).
Proof. intros a b c H1 H2 p H. apply H1, H2, H. Qed.

Lemma keeps_same_table_no_new {A} (s : status) (m : M A) :
  keeps same_table m -> keeps (no_new s) m.
Proof.
  apply keeps_mono. intros w w' H p Hp. unfold same_table in H.
  rewrite <- H. exact Hp.
Qed.

Lemma mark_no_new (s s' : status) (p : Path) (nt : option string) :
  s' <> s -> keeps (no_new s) (mark p s' nt).
Proof.
  intros Hne w. change (no_new s w (upsert p s' nt w)). intros q Hq.
  destruct (decide (q = p)) as [->|Hqp].
  - rewrite upsert_status in Hq. congruence.
  - rewrite upsert_other in Hq by exact Hqp. exact Hq.
Qed.

#[local] Hint Extern 1 (keeps (no_new _) (mark _ _ _)) =>
  (apply mark_no_new; discriminate) : frame.
#[local] Hint Extern 5 (keeps (no_new _) _) =>
  (apply keeps_same_table_no_new; solve [auto with frame]) : frame.

Ltac unfold_pass :=
  unfold scan_pass, scan_entry, scan_show, process_show_topdir, consolidate,
    copy_season, stamp, season_dirs, decide_all, decide_season, decide_and_flag,
    collect_videos_two_depth, process_movie_file, confirmation_gate, stability_gate,
    probe_step, transcode_step, size_comparison_step, status_of, mirrored, is_file, is_dir.

(** X11. No pass over the downloads root ever writes the status
    [processing]: whether the pass returns or raises, a row that has this
    status afterwards had it before.  (The idempotency gate lists the status,
    so it can only match rows that come from elsewhere.) *)
Theorem never_records_processing (downloads output : Path) (tmdb_key : option string) :
  keeps (no_new processing) (scan_pass downloads output tmdb_key).
Proof. unfold_pass. frame. Qed.

(** *** Unattended, it never reads the operator's input *)

#[local] Instance same_stdin_refl : Reflexive same_stdin.
Proof. intros w. reflexivity. Qed.
#[local] Instance same_stdin_trans : Transitive same_stdin.
Proof. intros a b c H1 H2. unfold same_stdin in *. congruence. Qed.

Ltac prim_same_stdin :=
  let w := fresh "w" in
  intros w; unfold same_stdin; cbv beta delta
    [sleep stat_size path_exists unlink rename copy2 ensure_dir copytree iterdir rglob
     unique_dest run_handbrake write_file probe_video log mark gets modify raise];
  simpl; repeat case_match; simplify_eq; simpl; try reflexivity; try exact I.

Lemma sleep_same_stdin secs : keeps same_stdin (sleep secs).
Proof. prim_same_stdin. Qed.
Lemma log_same_stdin msg : keeps same_stdin (log msg).
Proof. prim_same_stdin. Qed.
Lemma mark_same_stdin p s nt : keeps same_stdin (mark p s nt).
Proof. prim_same_stdin. Qed.
Lemma stat_size_same_stdin p : keeps same_stdin (stat_size p).
Proof. prim_same_stdin. Qed.
Lemma path_exists_same_stdin p : keeps same_stdin (path_exists p).
Proof. prim_same_stdin. Qed.
Lemma unlink_same_stdin p : keeps same_stdin (unlink p).
Proof. prim_same_stdin. Qed.
Lemma rename_same_stdin a b : keeps same_stdin (rename a b).
Proof. prim_same_stdin. Qed.
Lemma copy2_same_stdin a b : keeps same_stdin (copy2 a b).
Proof. prim_same_stdin. Qed.
Lemma ensure_dir_same_stdin p : keeps same_stdin (ensure_dir p).
Proof. prim_same_stdin. Qed.
Lemma copytree_same_stdin a b : keeps same_stdin (copytree a b).
Proof. prim_same_stdin. Qed.
Lemma iterdir_same_stdin p : keeps same_stdin (iterdir p).
Proof. prim_same_stdin. Qed.
Lemma rglob_same_stdin p : keeps same_stdin (rglob p).
Proof. prim_same_stdin. Qed.
Lemma unique_dest_same_stdin p : keeps same_stdin (unique_dest p).
Proof. prim_same_stdin. Qed.
Lemma run_handbrake_same_stdin a b : keeps same_stdin (run_handbrake a b).
Proof. prim_same_stdin. Qed.
Lemma write_file_same_stdin p d : keeps same_stdin (write_file p d).
Proof. prim_same_stdin. Qed.
Lemma probe_video_same_stdin p : keeps same_stdin (probe_video p).
Proof. prim_same_stdin. Qed.

Create HintDb unattended.
#[local] Hint Resolve sleep_same_stdin log_same_stdin mark_same_stdin stat_size_same_stdin
  path_exists_same_stdin unlink_same_stdin rename_same_stdin copy2_same_stdin
  ensure_dir_same_stdin copytree_same_stdin iterdir_same_stdin rglob_same_stdin
  unique_dest_same_stdin run_handbrake_same_stdin write_file_same_stdin
  probe_video_same_stdin : unattended.

Ltac unattended := repeat (first [solve [auto with unattended] | keeps_step]).

(** in a dry run the question is answered without reading *)
Lemma ask_confirm_dry_same_stdin (prompt : string) :
  dry_run ARGS = true -> keeps same_stdin (ask_confirm prompt).
Proof. intros Hdry. unfold ask_confirm. rewrite Hdry. unattended. Qed.

(** X10. Without --confirm, or in a dry run, a pass over the downloads root
    never reads the operator's input: whether the pass returns or raises,
    the lines waiting on standard input are the ones that waited before. *)
Theorem unattended_reads_no_input (downloads output : Path) (tmdb_key : option string) :
  confirm ARGS = false \/ dry_run ARGS = true ->
  keeps same_stdin (scan_pass downloads output tmdb_key).
Proof.
  intros [Hc|Hd].
  - unfold_pass.
    unfold operator_declines, file_is_stable, catch_not_found, move_safe, copy_tree_safe,
      transcode_with_handbrake, fetch_and_save_show_poster.
    rewrite Hc. unattended.
  - pose proof (fun prompt => ask_confirm_dry_same_stdin prompt Hd) as Hask.
    unfold_pass.
    unfold operator_declines, file_is_stable, catch_not_found, move_safe, copy_tree_safe,
      transcode_with_handbrake, fetch_and_save_show_poster.
    unattended.
Qed.

(** *** In posters-only mode it writes no status and removes nothing *)

#[local] Instance nothing_lost_refl : Reflexive nothing_lost.
Proof. intros w. split; [reflexivity | auto]. Qed.
#[local] Instance nothing_lost_trans : Transitive nothing_lost.
Proof. intros a b c [H1 H2] [H3 H4]. split; [congruence | auto]. Qed.

Lemma keeps_same_store_nothing_lost {A} (m : M A) :
  keeps same_store m -> keeps nothing_lost m.
Proof.
  apply keeps_mono. intros w w' [Hf Ht]. split; [exact Ht|].
  intros p Hp. rewrite Hf. exact Hp.
Qed.

Lemma ensure_dir_nothing_lost p : keeps nothing_lost (ensure_dir p).
Proof.
  intros w. unfold ensure_dir.
  destruct (existsb _ _); [reflexivity|].
  destruct (Fs.is_file _ _); [reflexivity|].
  split; [reflexivity|]. intros q Hq. simpl. rewrite mkdirs_lookup.
  destruct (decide _); [eauto | exact Hq].
Qed.

Lemma write_file_nothing_lost p d : keeps nothing_lost (write_file p d).
Proof.
  intros w. unfold write_file.
  destruct (Fs.is_dir _ _); [reflexivity|].
  destruct (negb _); [reflexivity|].
  split; [reflexivity|]. intros q Hq. simpl.
  destruct (decide (q = p)) as [->|Hne].
  - rewrite lookup_insert_eq. eauto.
  - rewrite lookup_insert_ne by congruence. exact Hq.
Qed.

Lemma log_nothing_lost msg : keeps nothing_lost (log msg).
Proof. apply keeps_same_store_nothing_lost, log_same_store. Qed.

Lemma ask_confirm_nothing_lost prompt : keeps nothing_lost (ask_confirm prompt).
Proof. apply keeps_same_store_nothing_lost, ask_confirm_same_store. Qed.

Lemma iterdir_nothing_lost p : keeps nothing_lost (iterdir p).
Proof. intros w. unfold iterdir. destruct (files w !! p) as [[d|]|]; reflexivity. Qed.

Create HintDb posters.
#[local] Hint Resolve ensure_dir_nothing_lost write_file_nothing_lost log_nothing_lost
  ask_confirm_nothing_lost iterdir_nothing_lost : posters.

Ltac posters := repeat (first [solve [auto with posters] | keeps_step]).

(** X19. In posters-only mode a pass over the downloads root writes no
    status and removes nothing: whether it returns or raises, the status
    table is the one before and every path that existed still exists. *)
Theorem posters_only_writes_no_status (downloads output : Path) (tmdb_key : option string) :
  posters_only ARGS = true ->
  keeps nothing_lost (scan_pass downloads output tmdb_key).
Proof.
  intros Hpo. unfold scan_pass, scan_entry, is_dir, fetch_and_save_show_poster.
  rewrite Hpo. posters.
Qed.

(** ** A dry run of the transcode step (lines 128-132, 273-288) *)

(** X13. In a dry run the encoder is not started and the transcode step
    reads its own exit code 0 as a success without an artifact: for a source
    below the downloads root whose temporary path is free, the step makes the
    mirrored directory, records the status [error] with the note [no_output]
    and changes nothing else in the store. *)
Theorem dry_run_records_no_output (src dl out rel dest_tmp : Path) (w : World) :
  dry_run ARGS = true ->
  relative_to src dl = Some rel ->
  with_suffix (out ++ rel) (".mp4" +:+ TEMP_SUFFIX) = Some dest_tmp ->
  Fs.can_mkdirs (files w) (parent dest_tmp) = true ->
  files w !! dest_tmp = None ->
  exists w',
    transcode_step src dl out w = Val tt w' /\
    rec_status <$> table w' !! src = Some error /\
    note <$> table w' !! src = Some (Some "no_output") /\
    files w' = Fs.mkdirs (files w) (parent dest_tmp).
Proof.
  intros Hdry Hrel Htmp Hok Hnone.
  rewrite (transcode_step_run _ _ _ _ _ _ Hrel Htmp Hok).
  assert (Henc : exists msg,
             transcode_with_handbrake src dest_tmp (queued_world src dest_tmp w) =
             Val 0%Z (logged msg (queued_world src dest_tmp w))).
  { unfold transcode_with_handbrake. rewrite Hdry. eexists. reflexivity. }
  destruct Henc as [msg Henc]. rewrite (bind_val _ _ _ _ _ Henc).
  change (negb (0 =? 0)%Z) with false. cbv iota.
  assert (Hgone : Fs.exists_ (files (logged msg (queued_world src dest_tmp w))) dest_tmp = false).
  { apply exists_false.
    change (Fs.mkdirs (files w) (parent dest_tmp) !! dest_tmp = None).
    rewrite mkdirs_child; [exact Hnone|].
    apply with_suffix_inv in Htmp as [_ ->]. rewrite parent_snoc, length_app. simpl. lia. }
  unfold path_exists, gets, mbind, M_bind. rewrite Hgone. cbn [negb].
  eexists. split; [reflexivity|].
  split; [apply upsert_status|]. split; [apply upsert_note|]. reflexivity.
Qed.

(** ** The poster of a show (lines 182-213) *)

(** X14. [fetch_and_save_show_poster] never raises: it always returns,
    prints exactly one line, and leaves the status table and the operator's
    input alone.  It answers true only for a non-empty key for which TMDb
    gave poster bytes; outside a dry run those bytes are then the file
    [<show>.jpg] in the output root (in the downloads root in posters-only
    mode).  A dry run leaves the store as it was, and no other entry of the
    store is ever lost or changed. *)
Theorem poster_fetch_total (show_name : string) (out_root : Path)
    (api_key : option string) (downloads_root : Path) (only : bool) (w : World) :
  let dest := div (if only then downloads_root else out_root) (show_name +:+ ".jpg") in
  exists b w',
    fetch_and_save_show_poster show_name out_root api_key downloads_root only w = Val b w' /\
    table w' = table w /\ stdin w' = stdin w /\
    (exists line, stdout w' = stdout w ++ [line]) /\
    (b = true ->
     exists key data, api_key = Some key /\ key <> "" /\
                      tmdb key show_name = PosterBytes data /\
                      (dry_run ARGS = false -> files w' !! dest = Some (File data))) /\
    (dry_run ARGS = true -> files w' = files w) /\
    (forall p n, files w !! p = Some n -> p <> dest -> files w' !! p = Some n).
Proof.
  intros dest. unfold fetch_and_save_show_poster. fold dest. clearbody dest.
  assert (Hquiet : forall msg,
            exists b w', (log msg ;; mret false) w = Val b w' /\
              table w' = table w /\ stdin w' = stdin w /\
              (exists line, stdout w' = stdout w ++ [line]) /\
              (b = true ->
               exists key data, api_key = Some key /\ key <> "" /\
                                tmdb key show_name = PosterBytes data /\
                                (dry_run ARGS = false -> files w' !! dest = Some (File data))) /\
              (dry_run ARGS = true -> files w' = files w) /\
              (forall p n, files w !! p = Some n -> p <> dest -> files w' !! p = Some n)).
  { intros msg. eexists false, _. split; [reflexivity|].
    split; [reflexivity|]. split; [reflexivity|]. split; [eexists; reflexivity|].
    split; [discriminate|]. split; [reflexivity|]. intros p n Hp _. exact Hp. }
  destruct api_key as [key|]; [|apply Hquiet].
  destruct (String.eqb key "") eqn:Ekey; [apply Hquiet|].
  apply String.eqb_neq in Ekey.
  destruct (tmdb key show_name) as [| |data|msg] eqn:Etm; try apply Hquiet.
  destruct (dry_run ARGS) eqn:Hdry.
  - eexists true, _. split; [reflexivity|].
    split; [reflexivity|]. split; [reflexivity|]. split; [eexists; reflexivity|].
    split; [|split; [reflexivity | intros p n Hp _; exact Hp]].
    intros _. exists key, data.
    split; [reflexivity|]. split; [exact Ekey|]. split; [exact Etm|]. discriminate.
  - unfold try_except, mbind, M_bind, ensure_dir, write_file.
    destruct (existsb (Fs.is_file (files w)) (ancestors (parent dest))) eqn:E1;
      [apply Hquiet|].
    destruct (Fs.is_file (files w) (parent dest)) eqn:E2; [apply Hquiet|].
    assert (Hok : Fs.can_mkdirs (files w) (parent dest) = true).
    { unfold Fs.can_mkdirs. rewrite E1, E2. reflexivity. }
    cbn [files set_files].
    destruct (Fs.is_dir (Fs.mkdirs (files w) (parent dest)) dest) eqn:E3;
      [|destruct (negb (Fs.is_dir (Fs.mkdirs (files w) (parent dest)) (parent dest))) eqn:E4].
    + eexists false, _. split; [reflexivity|].
      split; [reflexivity|]. split; [reflexivity|]. split; [eexists; reflexivity|].
      split; [discriminate|]. split; [discriminate|].
      intros p n Hp _. simpl. apply mkdirs_keeps; assumption.
    + eexists false, _. split; [reflexivity|].
      split; [reflexivity|]. split; [reflexivity|]. split; [eexists; reflexivity|].
      split; [discriminate|]. split; [discriminate|].
      intros p n Hp _. simpl. apply mkdirs_keeps; assumption.
    + eexists true, _. split; [reflexivity|].
      split; [reflexivity|]. split; [reflexivity|]. split; [eexists; reflexivity|].
      split; [|split; [discriminate|]].
      * intros _. exists key, data.
        split; [reflexivity|]. split; [exact Ekey|]. split; [exact Etm|].
        intros _. apply lookup_insert_eq.
      * intros p n Hp Hne. simpl. rewrite lookup_insert_ne by congruence.
        apply mkdirs_keeps; assumption.
Qed.

(** ** Copying a tree (lines 153-158) *)

(** X15. Outside a dry run a [copy_tree_safe] that returns has merged the
    source tree into the destination: the source is a directory, and every
    entry the walk of it reaches is in place below the destination - at the
    same relative path, or, for a file that met a directory of the
    destination, inside that directory under its own name.  An entry the
    store held is kept unless an entry of the source landed on its path;
    nothing outside the destination is lost or, the directories above the
    destination apart, changed, the source included; and no status is
    written. *)
Theorem copy_tree_safe_merges (src_dir dest_dir : Path) (w w' : World) :
  dry_run ARGS = false ->
  copy_tree_safe src_dir dest_dir w = Val tt w' ->
  files w !! src_dir = Some Dir /\
  (forall r n, files w !! (src_dir ++ r) = Some n ->
               Fs.visited (files w) src_dir r = true ->
               landed (files w') dest_dir r n) /\
  (forall q n, files w !! q = Some n ->
     files w' !! q = Some n \/
     exists r n', files w !! (src_dir ++ r) = Some n' /\
                  Fs.visited (files w) src_dir r = true /\
                  (q = dest_dir ++ r \/ q = dest_dir ++ r ++ [name r]) /\
                  files w' !! q = Some n') /\
  (forall q n, files w !! q = Some n -> ~ dest_dir `prefix_of` q -> files w' !! q = Some n) /\
  (forall q, ~ dest_dir `prefix_of` q -> ~ q `prefix_of` dest_dir ->
             files w' !! q = files w !! q) /\
  table w' = table w.
Proof.
  intros Hdry Hrun.
  apply (copy_tree_safe_inv _ _ _ _ Hdry) in Hrun as (Hok & Hdir & Hcmp & ->).
  cbn [files set_files table].
  assert (Hapart : Fs.comparable src_dir (dest_dir ++ []) = false)
    by (rewrite app_nil_r; exact Hcmp).
  assert (Hj : files w !! season_src src_dir "" = Some Dir)
    by (unfold season_src; simpl; rewrite app_nil_r; exact Hdir).
  pose proof (copied_new src_dir dest_dir [] Hapart (files w) "" Hj) as Hnew.
  pose proof (copied_cases src_dir dest_dir [] Hapart (files w) "") as Hcases.
  unfold season_src, season_dest in Hnew, Hcases. simpl in Hnew, Hcases.
  rewrite !app_nil_r in Hnew, Hcases.
  split; [exact Hdir|]. split; [exact Hnew|].
  split; [|split; [|split; [|reflexivity]]].
  - intros q n Hq. destruct (Hcases q) as [(r & n' & Hr & Hv & Hl & Hval)|Heq].
    + right. exists r, n'. split; [exact Hr|]. split; [exact Hv|]. split; [|exact Hval].
      destruct (landing_cases (Fs.mkdirs (files w) dest_dir) dest_dir r n')
        as [E|(_ & _ & _ & E)]; rewrite E in Hl; auto.
    + left. rewrite Heq. apply mkdirs_keeps; assumption.
  - intros q n Hq Hnp. rewrite tree_copied_outside by exact Hnp.
    apply mkdirs_keeps; assumption.
  - intros q Hnp Hnq. rewrite tree_copied_outside by exact Hnp.
    rewrite mkdirs_lookup, decide_False; [reflexivity|].
    intros Hin. apply Hnq, ancestors_prefix, Hin.
Qed.

(** ** The grouping of a show's videos (lines 216-232) *)

Lemma elem_of_children_iff (fs : FS) (d f : Path) :
  f ∈ Fs.children fs d <-> exists x, f = d ++ [x] /\ is_Some (fs !! f).
Proof.
  unfold Fs.children. rewrite list_elem_of_omap. split.
  - intros ([r n] & Hin & Hf). apply elem_of_subtree in Hin.
    destruct r as [|x [|y r]]; try discriminate. injection Hf as <-. eauto.
  - intros (x & -> & [n Hn]). exists ([x], n).
    split; [apply elem_of_subtree, Hn | reflexivity].
Qed.

Lemma elem_of_filter_iff {A} (f : A -> bool) (l : list A) (x : A) :
  x ∈ List.filter f l <-> x ∈ l /\ f x = true.
Proof. rewrite !list_elem_of_In. apply filter_In. Qed.

Lemma is_video_file (fs : FS) (p : Path) :
  is_video fs p = true -> exists data, fs !! p = Some (File data).
Proof.
  unfold is_video, Fs.is_file. intros [H _]%andb_true_iff.
  destruct (fs !! p) as [[data|]|]; try discriminate. eauto.
Qed.

(** the videos of a season directory: its own video files, and every video
    below one of its sub-directories *)
Lemma elem_of_season_videos (fs : FS) (d p : Path) :
  p ∈ season_videos fs d <->
  is_video fs p = true /\
  exists x, is_Some (fs !! (d ++ [x])) /\
    (p = d ++ [x] \/
     (is_video fs (d ++ [x]) = false /\ Fs.is_dir fs (d ++ [x]) = true /\
      exists r, r <> [] /\ p = d ++ x :: r)).
Proof.
  unfold season_videos. rewrite list_elem_of_In, in_flat_map. split.
  - intros (f & Hf & Hp).
    apply list_elem_of_In, elem_of_children_iff in Hf as (x & -> & Hsome).
    destruct (is_video fs (d ++ [x])) eqn:Ev.
    + destruct Hp as [<-|[]]. split; [exact Ev|]. exists x. auto.
    + destruct (Fs.is_dir fs (d ++ [x])) eqn:Ed; [|destruct Hp].
      apply list_elem_of_In, elem_of_filter_iff in Hp as [Hp Hv].
      apply elem_of_descendants in Hp as (r & Hr & -> & _).
      split; [exact Hv|]. exists x. split; [exact Hsome|]. right.
      split; [exact Ev|]. split; [exact Ed|].
      exists r. split; [exact Hr|]. rewrite <- app_assoc. reflexivity.
  - intros (Hv & x & Hsome & Hcase). exists (d ++ [x]).
    split; [apply list_elem_of_In, elem_of_children_iff; eauto|].
    destruct Hcase as [->|(Ev & Ed & r & Hr & ->)].
    + rewrite Hv. left. reflexivity.
    + rewrite Ev, Ed. apply list_elem_of_In, elem_of_filter_iff. split; [|exact Hv].
      apply elem_of_descendants. exists r. split; [exact Hr|].
      split; [rewrite <- app_assoc; reflexivity|].
      destruct (is_video_file _ _ Hv) as [data Hd]. eauto.
Qed.

Lemma dict_set_elem_of {V} (k k0 : string) (v v0 : V) (d : list (string * V)) :
  (k, v) ∈ dict_set k0 v0 d -> (k = k0 /\ v = v0) \/ (k, v) ∈ d.
Proof.
  induction d as [|[k1 v1] d IH]; simpl.
  - intros H. apply list_elem_of_singleton in H. injection H as -> ->. left. auto.
  - destruct (String.eqb k0 k1).
    + intros [H|H]%elem_of_cons; [injection H as -> ->; left; auto|].
      right. right. exact H.
    + intros [H|H]%elem_of_cons; [right; rewrite H; left|].
      destruct (IH H) as [Heq|Hin]; [left; exact Heq | right; right; exact Hin].
Qed.

Lemma dict_set_here {V} (k : string) (v : V) (d : list (string * V)) :
  (k, v) ∈ dict_set k v d.
Proof.
  induction d as [|[k1 v1] d IH]; simpl; [left|].
  destruct (String.eqb k k1); [left | right; exact IH].
Qed.

Lemma dict_set_other {V} (k k' : string) (v v' : V) (d : list (string * V)) :
  (k', v') ∈ d -> k' <> k -> (k', v') ∈ dict_set k v d.
Proof.
  intros Hin Hne. induction d as [|[k1 v1] d IH]; simpl; [inversion Hin|].
  apply elem_of_cons in Hin as [Heq|Hin].
  - injection Heq as <- <-. apply String.eqb_neq in Hne.
    rewrite String.eqb_sym, Hne. left.
  - destruct (String.eqb k k1); right; [exact Hin | apply IH, Hin].
Qed.

(** what the loop over the season directories leaves in the dict *)
Lemma collect_fold_elem_of (fs : FS) (ds : list Path) (out : list (string * list Path))
    (k : string) (vids : list Path) :
  (k, vids) ∈ foldl (fun out d =>
                       match season_videos fs d with
                       | [] => out
                       | vids => dict_set (name d) vids out
                       end) out ds ->
  (k, vids) ∈ out \/ exists d, d ∈ ds /\ k = name d /\ vids = season_videos fs d.
Proof.
  revert out. induction ds as [|d ds IH]; intros out H; simpl in H; [left; exact H|].
  apply IH in H as [H|(d' & Hd' & Hk & Hv)].
  - destruct (season_videos fs d) as [|v vs] eqn:E; [left; exact H|].
    apply dict_set_elem_of in H as [[-> ->]|H]; [|left; exact H].
    right. exists d. split; [left|]. split; [reflexivity | symmetry; exact E].
  - right. exists d'. split; [right; exact Hd' | auto].
Qed.

Lemma collect_fold_keeps (fs : FS) (ds : list Path) (out : list (string * list Path))
    (k : string) (v : list Path) :
  (k, v) ∈ out -> (forall d, d ∈ ds -> name d <> k) ->
  (k, v) ∈ foldl (fun out d =>
                    match season_videos fs d with
                    | [] => out
                    | vids => dict_set (name d) vids out
                    end) out ds.
Proof.
  revert out. induction ds as [|d ds IH]; intros out Hin Hne; simpl; [exact Hin|].
  apply IH; [|intros d' Hd'; apply Hne; right; exact Hd'].
  destruct (season_videos fs d); [exact Hin|].
  apply dict_set_other; [exact Hin|].
  intros Heq. apply (Hne d); [left | symmetry; exact Heq].
Qed.

Lemma collect_fold_adds (fs : FS) (ds : list Path) (out : list (string * list Path))
    (d : Path) :
  NoDup (name <$> ds) -> d ∈ ds -> season_videos fs d <> [] ->
  (name d, season_videos fs d) ∈
    foldl (fun out d =>
             match season_videos fs d with
             | [] => out
             | vids => dict_set (name d) vids out
             end) out ds.
Proof.
  revert out. induction ds as [|d0 ds IH]; intros out Hnd Hd Hne; [inversion Hd|].
  rewrite fmap_cons in Hnd. apply NoDup_cons in Hnd as [Hnotin Hnd].
  simpl. apply elem_of_cons in Hd as [->|Hd].
  - apply collect_fold_keeps.
    + destruct (season_videos fs d0) as [|v vs]; [congruence | apply dict_set_here].
    + intros d Hd Heq. apply Hnotin. rewrite <- Heq.
      apply list_elem_of_fmap. exists d. auto.
  - apply IH; assumption.
Qed.

(** every listed path is a video; it sits in the show directory under the
    key [""], or below the season directory its key names *)
Lemma collect_elem_of (fs : FS) (top : Path) (k : string) (vids : list Path) (p : Path) :
  (k, vids) ∈ collect fs top -> p ∈ vids ->
  is_video fs p = true /\
  ((k = "" /\ exists x, p = top ++ [x]) \/
   (Fs.is_dir fs (top ++ [k]) = true /\ exists x r, p = top ++ k :: x :: r)).
Proof.
  unfold collect. intros Hin Hp.
  apply collect_fold_elem_of in Hin as [Hin|(d & Hd & -> & ->)].
  - destruct (List.filter (is_video fs) (Fs.children fs top)) as [|v vs] eqn:E;
      [inversion Hin|].
    simpl in Hin. apply list_elem_of_singleton in Hin. injection Hin as -> ->.
    rewrite <- E in Hp. apply elem_of_filter_iff in Hp as [Hp Hv].
    split; [exact Hv|]. left. split; [reflexivity|].
    apply elem_of_children in Hp. exact Hp.
  - apply elem_of_filter_iff in Hd as [Hd Hdir].
    apply elem_of_children in Hd as (y & ->). rewrite name_snoc.
    apply elem_of_season_videos in Hp as (Hv & x & _ & Hcase).
    split; [exact Hv|]. right. split; [exact Hdir|].
    destruct Hcase as [->|(_ & _ & r & _ & ->)].
    + exists x, []. rewrite <- app_assoc. reflexivity.
    + exists x, r. rewrite <- app_assoc. reflexivity.
Qed.

(** X16. The grouping lists only video files, each of them once and every
    key once.  A video under the key [""] lies directly in the show
    directory; a video under any other key lies below the sub-directory of
    the show directory that the key names, directly or at any depth. *)
Theorem collect_sound (fs : FS) (top : Path) :
  NoDup ((collect fs top).*1) /\
  NoDup (all_videos (collect fs top)) /\
  forall k vids p, (k, vids) ∈ collect fs top -> p ∈ vids ->
    is_video fs p = true /\
    ((k = "" /\ exists x, p = top ++ [x]) \/
     (Fs.is_dir fs (top ++ [k]) = true /\ exists x r, p = top ++ k :: x :: r)).
Proof.
  split; [apply collect_keys_NoDup|]. split; [apply collect_videos_NoDup|].
  apply collect_elem_of.
Qed.

Lemma well_formed_inv (fs : FS) (p : Path) (n : node) :
  well_formed fs = true -> fs !! p = Some n ->
  (forall q, q ∈ ancestors p -> fs !! q = Some Dir) /\
  (forall x, x ∈ p -> x <> "").
Proof.
  unfold well_formed. intros Hwf Hp.
  rewrite forallb_forall in Hwf.
  specialize (Hwf (p, n)). cbv beta iota in Hwf.
  apply andb_true_iff in Hwf as [Ha Hx];
    [|apply list_elem_of_In, elem_of_map_to_list, Hp].
  rewrite forallb_forall in Ha, Hx. split.
  - intros q Hq. apply list_elem_of_In, Ha in Hq. unfold Fs.is_dir in Hq.
    destruct (fs !! q) as [[d|]|]; try discriminate. reflexivity.
  - intros x Hin. apply list_elem_of_In, Hx in Hin.
    apply negb_true_iff, String.eqb_neq in Hin. exact Hin.
Qed.

(** X17. On a well-formed store the grouping misses no video: a video file
    directly in the show directory is listed under the key [""], and a video
    file below a sub-directory of the show directory, at any depth, is
    listed under the name of that sub-directory. *)
Theorem collect_complete (fs : FS) (top : Path) (x : string) (r : Path) :
  well_formed fs = true ->
  is_video fs (top ++ x :: r) = true ->
  exists vids,
    (match r with [] => "" | _ => x end, vids) ∈ collect fs top /\
    top ++ x :: r ∈ vids.
Proof.
  intros Hwf Hv. destruct (is_video_file _ _ Hv) as [data Hp].
  destruct (well_formed_inv _ _ _ Hwf Hp) as [Hanc Hparts].
  assert (Hnames : forall d, d ∈ List.filter (Fs.is_dir fs) (Fs.children fs top) ->
                             name d <> "").
  { intros d Hd. apply elem_of_filter_iff in Hd as [Hd _].
    apply elem_of_children_iff in Hd as (y & -> & [n Hn]). rewrite name_snoc.
    destruct (well_formed_inv _ _ _ Hwf Hn) as [_ Hy]. apply Hy.
    apply elem_of_app. right. left. }
  unfold collect. destruct r as [|y r].
  - exists (List.filter (is_video fs) (Fs.children fs top)).
    assert (Hin : top ++ [x] ∈ List.filter (is_video fs) (Fs.children fs top)).
    { apply elem_of_filter_iff. split; [|exact Hv].
      apply elem_of_children_iff. eauto. }
    split; [|exact Hin].
    apply collect_fold_keeps; [|exact Hnames].
    destruct (List.filter (is_video fs) (Fs.children fs top)) as [|v vs];
      [inversion Hin | left].
  - set (d := top ++ [x]).
    assert (Hd : fs !! d = Some Dir).
    { apply Hanc, elem_of_ancestors. exists (y :: r). split; [discriminate|].
      unfold d. rewrite <- app_assoc. reflexivity. }
    assert (Hvid : top ++ x :: y :: r ∈ season_videos fs d).
    { apply elem_of_season_videos. split; [exact Hv|]. exists y.
      destruct r as [|z r].
      - split; [|left; unfold d; rewrite <- app_assoc; reflexivity].
        unfold d. rewrite <- app_assoc. simpl. eauto.
      - assert (Hf : fs !! (d ++ [y]) = Some Dir).
        { apply Hanc, elem_of_ancestors. exists (z :: r). split; [discriminate|].
          unfold d. rewrite <- !app_assoc. reflexivity. }
        split; [eauto|]. right.
        split; [unfold is_video, Fs.is_file; rewrite Hf; reflexivity|].
        split; [unfold Fs.is_dir; rewrite Hf; reflexivity|].
        exists (z :: r). split; [discriminate|].
        unfold d. rewrite <- app_assoc. reflexivity. }
    exists (season_videos fs d). split; [|exact Hvid].
    replace x with (name d) by apply name_snoc.
    apply collect_fold_adds.
    + apply NoDup_fmap_2_strong; [|apply NoDup_filter_bool, children_NoDup].
      intros a b Ha Hb Hab.
      apply elem_of_filter_iff in Ha as [Ha _]. apply elem_of_filter_iff in Hb as [Hb _].
      apply elem_of_children in Ha as (a' & ->). apply elem_of_children in Hb as (b' & ->).
      rewrite !name_snoc in Hab. subst b'. reflexivity.
    + apply elem_of_filter_iff. split; [|unfold Fs.is_dir; rewrite Hd; reflexivity].
      apply elem_of_children_iff. exists x. split; [reflexivity | eauto].
    + intros Hnil. rewrite Hnil in Hvid. inversion Hvid.
Qed.

(** ** The rows a show can change (lines 317-356) *)

#[local] Instance rows_under_refl d : Reflexive (rows_under d).
Proof. intros w p _. reflexivity. Qed.
#[local] Instance rows_under_trans d : Transitive (rows_under d).
Proof. intros a b c H1 H2 p Hp. rewrite H2, H1; auto. Qed.

Lemma keeps_table_but_under {A} (d src : Path) (m : M A) :
  d `prefix_of` src -> keeps (table_but src) m -> keeps (rows_under d) m.
Proof.
  intros Hpre. apply keeps_mono. intros w w' H p Hp. apply H.
  intros ->. contradiction.
Qed.

Lemma keeps_same_table_under {A} (d : Path) (m : M A) :
  keeps same_table m -> keeps (rows_under d) m.
Proof.
  apply keeps_mono. intros w w' H p _. unfold same_table in H. rewrite H. reflexivity.
Qed.

#[local] Hint Extern 5 (keeps (rows_under _) _) =>
  (apply keeps_same_table_under; solve [auto with frame]) : frame.

(** a continuation need only keep the relation for the values the first
    step can return *)
Lemma keeps_bind_val {A B} (R : relation World) `{!Reflexive R, !Transitive R}
    (m : M A) (k : A -> M B) :
  keeps R m -> (forall w a w1, m w = Val a w1 -> keeps R (k a)) -> keeps R (m ≫= k).
Proof.
  intros Hm Hk w. unfold mbind, M_bind. specialize (Hm w).
  destruct (m w) as [a w1|e w1|] eqn:E; auto.
  specialize (Hk w a w1 E w1). destruct (k a w1); auto; etransitivity; eauto.
Qed.

Lemma keeps_fold_each_in {A S} (R : relation World) `{!Reflexive R, !Transitive R}
    (xs : list A) (acc : S) (body : S -> A -> M S) :
  (forall s x, x ∈ xs -> keeps R (body s x)) -> keeps R (fold_each xs acc body).
Proof.
  revert acc. induction xs as [|x xs IH]; intros acc Hb; simpl.
  - apply keeps_ret; assumption.
  - apply keeps_bind; try assumption.
    + apply Hb. left.
    + intros a. apply IH. intros s y Hy. apply Hb. right. exact Hy.
Qed.

Lemma keeps_for_each_in {A} (R : relation World) `{!Reflexive R, !Transitive R}
    (xs : list A) (body : A -> M unit) :
  (forall x, x ∈ xs -> keeps R (body x)) -> keeps R (for_each xs body).
Proof.
  induction xs as [|x xs IH]; intros Hb; simpl.
  - apply keeps_ret; assumption.
  - apply keeps_bind; try assumption.
    + apply Hb. left.
    + intros _. apply IH. intros y Hy. apply Hb. right. exact Hy.
Qed.

Lemma decide_and_flag_under (topdir dl out : Path) (key : string)
    (flags : gset string) (vid : Path) :
  topdir `prefix_of` vid ->
  keeps (rows_under topdir) (decide_and_flag dl out key flags vid).
Proof.
  intros Hpre. unfold decide_and_flag, status_of. keeps_step.
  - apply (keeps_table_but_under _ vid); [exact Hpre|].
    apply process_movie_file_table_but.
  - repeat keeps_step.
Qed.

Lemma decide_all_under (topdir dl out : Path) (mapping : list (string * list Path)) :
  (forall p, p ∈ all_videos mapping -> topdir `prefix_of` p) ->
  keeps (rows_under topdir) (decide_all mapping dl out).
Proof.
  intros Hunder. unfold decide_all. keeps_step.
  - destruct (dict_get "" mapping) as [vids|] eqn:E; [|keeps_step].
    apply keeps_fold_each_in; try exact _. intros s vid Hvid.
    apply decide_and_flag_under, Hunder, elem_of_all_videos.
    exists "", vids. split; [apply dict_get_elem_of, E | exact Hvid].
  - apply keeps_fold_each_in; try exact _. intros s [k videos] Hitem.
    unfold decide_season. destruct (String.eqb k ""); [keeps_step|].
    apply keeps_fold_each_in; try exact _. intros s' vid Hvid.
    apply decide_and_flag_under, Hunder, elem_of_all_videos.
    exists k, videos. split; [exact Hitem | exact Hvid].
Qed.

Lemma copy_season_under (topdir dl out : Path) (sk : string) :
  keeps (rows_under topdir) (copy_season topdir dl out sk).
Proof.
  unfold copy_season. apply keeps_bind_val; try exact _.
  { unfold season_dirs. repeat keeps_step. }
  intros w [src_dir dest_dir] w1 Hdirs.
  assert (Hpre : topdir `prefix_of` src_dir).
  { unfold season_dirs in Hdirs. apply bind_inv in Hdirs as (rel & w0 & _ & Hdirs).
    destruct (String.eqb sk "") eqn:E; injection Hdirs as <- _ _.
    - reflexivity.
    - unfold div. rewrite E. exists [sk]. reflexivity. }
  unfold path_exists. keeps_step; [keeps_step|].
  keeps_step; [|keeps_step].
  keeps_step; [auto with frame|]. keeps_step; [auto with frame|].
  apply keeps_bind_val; try exact _.
  { unfold rglob. keeps_step. }
  intros w2 l w3 Hl. apply keeps_for_each_in; try exact _. intros f Hf.
  assert (Hunder : topdir `prefix_of` f).
  { unfold rglob, gets in Hl. injection Hl as <- _.
    destruct (Fs.is_dir (files w2) src_dir); [|inversion Hf].
    apply elem_of_descendants in Hf as (r & _ & -> & _).
    destruct Hpre as [t ->]. exists (t ++ r). rewrite app_assoc. reflexivity. }
  unfold stamp. keeps_step; [keeps_step|].
  keeps_step; [|keeps_step].
  apply (keeps_table_but_under _ f); [exact Hunder | apply mark_table_but].
Qed.

(** X18. Processing a show changes no status row outside the show: whether
    [process_show_topdir] returns or raises, the row of every path that is
    not the show directory or a path below it is as it was. *)
Theorem show_rows_under (topdir dl out : Path) (tmdb_key : option string) :
  keeps (rows_under topdir) (process_show_topdir topdir dl out tmdb_key).
Proof.
  unfold process_show_topdir. keeps_step; [auto with frame|].
  apply keeps_bind_val; try exact _.
  { unfold collect_videos_two_depth. frame. }
  intros w mapping w1 Hmap.
  assert (Hunder : forall p, p ∈ all_videos mapping -> topdir `prefix_of` p).
  { unfold collect_videos_two_depth in Hmap.
    apply bind_inv in Hmap as (l & w0 & _ & Hmap). injection Hmap as <- _.
    intros p (k & vids & Hin & Hp)%elem_of_all_videos.
    destruct (collect_elem_of _ _ _ _ _ Hin Hp) as [_ [[_ [x ->]]|[_ (x & r & ->)]]];
      eexists; reflexivity. }
  destruct mapping as [|g gs] eqn:Em; [auto with frame|]. rewrite <- Em in *.
  keeps_step; [apply decide_all_under, Hunder|].
  keeps_step.
  { unfold consolidate. apply keeps_for_each_at; try exact _.
    intros sk. apply copy_season_under. }
  frame.
Qed.

(** ** How the engine leaves a file (lines 250-315) *)

Lemma try_inv {A} (m : M A) (h : exn -> M A) (w : World) (a : A) (w' : World) :
  try_except m h w = Val a w' ->
  m w = Val a w' \/ exists e w0, m w = Exc e w0 /\ h e w0 = Val a w'.
Proof.
  unfold try_except. destruct (m w) as [a0 w0|e w0|]; [left | right; eauto | discriminate].
  exact H.
Qed.

(** a status written last stands: the steps after it leave the table alone *)
Lemma mark_last {A} (src : Path) (s : status) (nt : option string) (k : M A)
    (w : World) (a : A) (w' : World) :
  keeps same_table k ->
  (mark src s nt ;; k) w = Val a w' ->
  rec_status <$> table w' !! src = Some s.
Proof.
  intros Hk H. apply bind_inv in H as ([] & w1 & Hm & H). injection Hm as <-.
  apply (keeps_val _ _ _ _ _ Hk) in H. unfold same_table in H.
  rewrite H. apply upsert_status.
Qed.

Lemma size_comparison_settles (src dl out dest_tmp : Path) (w w' : World) :
  size_comparison_step src dl out dest_tmp w = Val tt w' ->
  status_in (rec_status <$> table w' !! src) settled = true.
Proof.
  intros H. unfold size_comparison_step in H.
  apply bind_inv in H as (sizes & w1 & H1 & H2).
  apply try_inv in H1 as [H1|(e & w0 & _ & H1)].
  - apply bind_inv in H1 as (o & wa & _ & H1).
    apply bind_inv in H1 as (n & wb & _ & H1). injection H1 as <- <-.
    cbv beta iota in H2. destruct (o <=? n)%Z.
    + apply bind_inv in H2 as (u & w2 & _ & H2).
      apply bind_inv in H2 as (m & w3 & _ & H2).
      apply bind_inv in H2 as (moved & w4 & _ & H2).
      apply mark_last in H2; [|frame]. rewrite H2. reflexivity.
    + apply bind_inv in H2 as (m & w2 & _ & H2).
      apply bind_inv in H2 as (d0 & w3 & _ & H2).
      apply bind_inv in H2 as (taken & w4 & _ & H2).
      apply bind_inv in H2 as (d1 & w5 & _ & H2).
      apply try_inv in H2 as [H2|(e & w6 & _ & H2)].
      * apply bind_inv in H2 as (u & w6 & _ & H2).
        apply mark_last in H2; [|frame]. rewrite H2. reflexivity.
      * apply mark_last in H2; [|frame]. rewrite H2. reflexivity.
  - apply bind_inv in H1 as ([] & wa & Hm & H1). injection Hm as <-.
    injection H1 as <- <-. injection H2 as <-.
    rewrite upsert_status. reflexivity.
Qed.

Lemma transcode_step_settles (src dl out : Path) (w w' : World) :
  transcode_step src dl out w = Val tt w' ->
  status_in (rec_status <$> table w' !! src) settled = true.
Proof.
  intros H. unfold transcode_step in H.
  apply bind_inv in H as (u & w1 & _ & H).
  apply bind_inv in H as (m & w2 & _ & H).
  apply bind_inv in H as (dest_tmp & w3 & _ & H).
  apply bind_inv in H as (u' & w4 & _ & H).
  apply bind_inv in H as (rc & w5 & _ & H).
  destruct (negb (rc =? 0)%Z).
  - apply mark_last in H; [|unfold swallow; frame]. rewrite H. reflexivity.
  - apply bind_inv in H as (present & w6 & _ & H).
    destruct (negb present).
    + apply mark_last in H; [|frame]. rewrite H. reflexivity.
    + apply size_comparison_settles in H. exact H.
Qed.

Lemma probe_step_settles (src dl out : Path) (w w' : World) :
  probe_step src dl out w = Val tt w' ->
  status_in (rec_status <$> table w' !! src) settled = true.
Proof.
  intros H. unfold probe_step in H.
  apply bind_inv in H as (info & w1 & _ & H).
  destruct (should_skip_by_probe info).
  - apply bind_inv in H as (m & w2 & _ & H).
    apply bind_inv in H as (moved & w3 & _ & H).
    apply mark_last in H; [|frame]. rewrite H. reflexivity.
  - apply transcode_step_settles in H. exact H.
Qed.

Lemma confirmation_gate_settles (src dl out : Path) (w w' : World) :
  confirmation_gate src dl out w = Val tt w' ->
  table w' = table w \/ status_in (rec_status <$> table w' !! src) settled = true.
Proof.
  intros H. unfold confirmation_gate in H.
  destruct (is_temporary_name (name src)).
  { injection H as <-. left. reflexivity. }
  apply bind_inv in H as (declined & w1 & Hd & H).
  apply (keeps_val _ _ _ _ _ (operator_declines_same_table src)) in Hd.
  destruct declined.
  { right. apply mark_last in H; [|frame]. rewrite H. reflexivity. }
  unfold stability_gate in H.
  apply bind_inv in H as ([] & w2 & Hl & H). injection Hl as <-.
  apply bind_inv in H as (stable & w3 & Hs & H).
  apply (keeps_val _ _ _ _ _ (file_is_stable_same_table _ _)) in Hs.
  destruct (negb stable).
  - injection H as <-. left. unfold same_table in *. simpl in *. congruence.
  - right. apply probe_step_settles in H. exact H.
Qed.

(** X12. When [process_movie_file] returns, either the status table is the
    one before the call, or the row of the file holds one of
    [skipped_by_user], [skipped_moved], [kept_original_moved], [done_moved]
    and [error]: the status [queued] written on the way never outlasts a
    call that returns.  No row of another path changes. *)
Theorem process_movie_file_outcome (src dl out : Path) (w w' : World) :
  process_movie_file src dl out w = Val tt w' ->
  (table w' = table w \/
   status_in (rec_status <$> table w' !! src) settled = true) /\
  (forall p, p <> src -> table w' !! p = table w !! p).
Proof.
  intros H. split.
  - unfold process_movie_file in H.
    apply bind_inv in H as (s & w1 & Hs & H). injection Hs as _ <-.
    destruct (status_in s gated).
    + injection H as <-. left. reflexivity.
    + apply confirmation_gate_settles in H. exact H.
  - apply (keeps_val _ _ _ _ _ (process_movie_file_table_but src dl out)) in H. exact H.
Qed.

(** X23. A call that raises can leave the file queued: when the directory
    for the temporary artifact cannot be made because a regular file stands
    in its place or above it, the transcode step raises the error of
    [mkdir] after the row was set to [queued], and nothing else changed. *)
Theorem blocked_mirror_leaves_queued (src dl out rel dest_tmp : Path) (w : World) :
  relative_to src dl = Some rel ->
  with_suffix (out ++ rel) (".mp4" +:+ TEMP_SUFFIX) = Some dest_tmp ->
  Fs.can_mkdirs (files w) (parent dest_tmp) = false ->
  exists e,
    transcode_step src dl out w = Exc e (upsert src queued (Some "ready") w) /\
    (e = NotADirectoryError \/ e = FileExistsError).
Proof.
  intros Hrel Htmp Hno. unfold transcode_step.
  erewrite bind_val by reflexivity.
  erewrite bind_val by (apply mirrored_run, Hrel).
  rewrite Htmp.
  erewrite bind_val by reflexivity.
  unfold mbind, M_bind, ensure_dir. cbn [files upsert set_table].
  unfold Fs.can_mkdirs in Hno.
  destruct (existsb (Fs.is_file (files w)) (ancestors (parent dest_tmp))).
  - exists NotADirectoryError. split; [reflexivity | left; reflexivity].
  - destruct (Fs.is_file (files w) (parent dest_tmp)); [|discriminate].
    exists FileExistsError. split; [reflexivity | right; reflexivity].
Qed.

(** ** A directory without videos (lines 378-380) *)

(** X22. A top-level directory with no video file below it is passed over:
    outside posters-only mode the scan leaves the world as it is (no log
    line, no status, no poster) and does not count the directory as a
    candidate. *)
Theorem empty_show_is_ignored (entry downloads output : Path) (tmdb_key : option string)
    (any_found : bool) (w : World) :
  Str.startswith (name entry) "." = false ->
  posters_only ARGS = false ->
  is_temporary_name (name entry) = false ->
  Fs.is_dir (files w) entry = true ->
  forallb (fun p => negb (is_video (files w) p)) (Fs.descendants (files w) entry) = true ->
  scan_entry downloads output tmdb_key any_found entry w = Val any_found w.
Proof.
  intros Hdot Hpo Htemp Hdir Hall.
  assert (Hnone : forall r, r <> [] -> is_video (files w) (entry ++ r) = false).
  { intros r Hr. destruct (is_video (files w) (entry ++ r)) eqn:Ev; [|reflexivity].
    rewrite forallb_forall in Hall.
    specialize (Hall (entry ++ r)). rewrite Ev in Hall. symmetry. apply Hall.
    apply list_elem_of_In, elem_of_descendants. exists r.
    split; [exact Hr|]. split; [reflexivity|].
    destruct (is_video_file _ _ Ev) as [data Hd]. eauto. }
  assert (Hempty : collect (files w) entry = []).
  { destruct (collect (files w) entry) as [|[k vids] gs] eqn:E; [reflexivity|].
    exfalso.
    pose proof (collect_nonempty (files w) entry) as Hne. rewrite E in Hne.
    apply Forall_cons in Hne as [Hne _]. simpl in Hne.
    destruct vids as [|p vids]; [congruence|].
    destruct (collect_elem_of (files w) entry k (p :: vids) p) as [Hv Hwhere];
      [rewrite E; left | left |].
    destruct Hwhere as [[_ [x ->]]|[_ (x & r & ->)]];
      rewrite Hnone in Hv; discriminate. }
  clear Hnone.
  unfold scan_entry. rewrite Hdot, Hpo, Htemp.
  unfold is_dir, gets, mbind, M_bind. rewrite Hdir.
  unfold scan_show. rewrite (bind_val _ _ _ _ _ (collect_videos_run _ _ Hdir)).
  rewrite Hempty. reflexivity.
Qed.

(** ** What a dry run keeps (the [ARGS.dry_run] tests of lines 130-315) *)

#[local] Instance store_kept_refl : Reflexive store_kept.
Proof. intros w p n H. exact H. Qed.
#[local] Instance store_kept_trans : Transitive store_kept.
Proof. intros a b c H1 H2 p n H. apply H2, H1, H. Qed.

Lemma keeps_same_store_kept {A} (m : M A) : keeps same_store m -> keeps store_kept m.
Proof.
  apply keeps_mono. intros w w' [Hf _] p n Hp. rewrite Hf. exact Hp.
Qed.

Ltac prim_store_kept :=
  let w := fresh "w" in
  intros w; unfold store_kept; cbv beta delta
    [stat_size path_exists iterdir rglob unique_dest probe_video log mark gets modify];
  simpl; repeat case_match; simplify_eq; simpl; auto.

Lemma log_store_kept msg : keeps store_kept (log msg).
Proof. prim_store_kept. Qed.
Lemma mark_store_kept p s nt : keeps store_kept (mark p s nt).
Proof. prim_store_kept. Qed.
Lemma stat_size_store_kept p : keeps store_kept (stat_size p).
Proof. prim_store_kept. Qed.
Lemma path_exists_store_kept p : keeps store_kept (path_exists p).
Proof. prim_store_kept. Qed.
Lemma iterdir_store_kept p : keeps store_kept (iterdir p).
Proof. prim_store_kept. Qed.
Lemma rglob_store_kept p : keeps store_kept (rglob p).
Proof. prim_store_kept. Qed.
Lemma unique_dest_store_kept p : keeps store_kept (unique_dest p).
Proof. prim_store_kept. Qed.
Lemma probe_video_store_kept p : keeps store_kept (probe_video p).
Proof. prim_store_kept. Qed.

Lemma ensure_dir_store_kept p : keeps store_kept (ensure_dir p).
Proof.
  intros w. destruct (ensure_dir p w) as [[] w'|e w'|] eqn:E.
  - apply ensure_dir_inv in E as [Hok ->]. intros q n Hq. simpl.
    apply mkdirs_keeps; assumption.
  - unfold ensure_dir in E. repeat case_match; simplify_eq; reflexivity.
  - exact I.
Qed.

Lemma ask_confirm_store_kept prompt : keeps store_kept (ask_confirm prompt).
Proof. apply keeps_same_store_kept, ask_confirm_same_store. Qed.

Lemma sleep_idle_store_kept secs :
  (forall t fs, downloader t fs = fs) -> keeps store_kept (sleep secs).
Proof.
  intros Hidle w. unfold sleep, raise, modify.
  destruct (secs <? 0)%Z; [reflexivity|].
  intros p n Hp. simpl. rewrite Hidle. exact Hp.
Qed.

Create HintDb dry.
#[local] Hint Resolve log_store_kept mark_store_kept stat_size_store_kept
  path_exists_store_kept iterdir_store_kept rglob_store_kept unique_dest_store_kept
  probe_video_store_kept ensure_dir_store_kept ask_confirm_store_kept : dry.

Ltac dry := repeat (first [solve [auto with dry] | keeps_step]).

Lemma transcode_step_dry_kept (src dl out : Path) :
  dry_run ARGS = true ->
  keeps store_kept (transcode_step src dl out).
Proof.
  intros Hdry. unfold transcode_step, mirrored.
  keeps_step; [auto with dry|].
  keeps_step; [dry|].
  keeps_step; [dry|].
  keeps_step; [auto with dry|].
  apply keeps_bind_val; try exact _.
  { unfold transcode_with_handbrake. rewrite Hdry. dry. }
  intros w rc w1 Hrc.
  assert (rc = 0%Z) as ->.
  { unfold transcode_with_handbrake in Hrc. rewrite Hdry in Hrc.
    apply bind_inv in Hrc as (u & w0 & _ & Hrc). injection Hrc as <- _. reflexivity. }
  change (negb (0 =? 0)%Z) with false. cbv iota.
  unfold size_comparison_step, move_safe, mirrored. rewrite Hdry. cbn [negb].
  dry.
Qed.

(** X25. A dry run loses nothing: with --dry-run, and no other process
    writing while the program sleeps, every entry of the store is still
    there unchanged after a pass over the downloads root, whether the pass
    returns or raises.  (Directories may have been added, and statuses
    written.) *)
Theorem dry_run_loses_nothing (downloads output : Path) (tmdb_key : option string) :
  dry_run ARGS = true ->
  (forall t fs, downloader t fs = fs) ->
  keeps store_kept (scan_pass downloads output tmdb_key).
Proof.
  intros Hdry Hidle.
  pose proof (fun secs => sleep_idle_store_kept secs Hidle) as Hsleep.
  pose proof (fun src dl out => transcode_step_dry_kept src dl out Hdry) as Htrans.
  unfold scan_pass, scan_entry, scan_show, process_show_topdir, consolidate,
    copy_season, stamp, season_dirs, decide_all, decide_season, decide_and_flag,
    collect_videos_two_depth, process_movie_file, confirmation_gate, stability_gate,
    probe_step, status_of, mirrored, is_file, is_dir,
    operator_declines, file_is_stable, catch_not_found, move_safe, copy_tree_safe,
    fetch_and_save_show_poster.
  rewrite Hdry. dry.
Qed.
End NomadManager.

(** ** The theorems at work on the sample data *)

Import Demo.

Ltac evaluate := vm_compute; first [reflexivity | discriminate].

(** a path recorded as [done_moved] is left alone *)
Lemma idempotency_gate_witness :
  process_movie_file args_run one_device idle probe_unknown encoder_small
    movie downloads output (world_with done_moved) = Val tt (world_with done_moved).
Proof.
  pose proof (idempotency_gate args_run one_device idle probe_unknown encoder_small
                movie downloads output (world_with done_moved) done_moved) as H.
  destruct H as [H _]; [evaluate|].
  apply H. apply list_elem_of_In. simpl. auto.
Defined.

(** C1 fails on the code.  The gate of [process_movie_file] lists
    [processing] where the terminal statuses have [skipped_by_user]: under
    --confirm a file the operator declined is recorded as
    [skipped_by_user] and left where it is, and the next call of the engine
    on it does not stop at the gate: the operator is asked again and, on a
    yes, the file is transcoded, the source deleted and the status
    overwritten with [done_moved]. *)
Theorem declined_file_is_processed_again :
  table (world_typing ["n"; "y"]) !! movie = None /\
  match process_movie_file args_confirm one_device idle probe_unknown encoder_small
          movie downloads output (world_typing ["n"; "y"]) with
  | Val _ w1 =>
      rec_status <$> table w1 !! movie = Some skipped_by_user /\
      files w1 !! movie = Some (File (bytes "hello")) /\
      stdin w1 = ["y"] /\
      match process_movie_file args_confirm one_device idle probe_unknown encoder_small
              movie downloads output w1 with
      | Val _ w2 =>
          stdin w2 = [] /\
          rec_status <$> table w2 !! movie = Some done_moved /\
          files w2 !! movie = None /\
          files w2 !! ["out"; "movie_1.mp4"] = Some (File (bytes "ab"))
      | _ => False
      end
  | _ => False
  end.
Proof. vm_compute. repeat split; reflexivity. Qed.

(** [movie.mp4] moved into a directory that holds a [movie.mp4] arrives as
    [movie_1.mp4]; the file that was there keeps its bytes *)
Lemma move_safe_never_overwrites_witness :
  exists w',
    move_safe args_run one_device movie output world = Val ["out"; "movie_1.mp4"] w' /\
    files w' !! ["out"; "movie.mp4"] = Some (File (bytes "taken")) /\
    files w' !! ["out"; "movie_1.mp4"] = Some (File (bytes "hello")).
Proof.
  pose proof (move_safe_never_overwrites args_run one_device movie output
                (bytes "hello") world) as H.
  destruct H as (moved & w' & Hrun & _ & _ & Hfirst & Hkeep & Hmoved);
    [evaluate | evaluate | evaluate |].
  assert (Hm : moved = ["out"; "movie_1.mp4"]).
  { apply Hfirst; [eexists; evaluate | evaluate]. }
  subst moved. exists w'. split; [exact Hrun|]. split.
  - apply Hkeep; [evaluate | discriminate].
  - apply Hmoved. reflexivity.
Defined.

(** a file that grows during the sleep leaves no row behind *)
Lemma unstable_leaves_no_status_witness :
  exists w',
    process_movie_file args_run one_device (growing movie) probe_unknown encoder_small
      movie downloads output world = Val tt w' /\
    table w' = table world.
Proof.
  pose proof (unstable_leaves_no_status args_run one_device (growing movie)
                probe_unknown encoder_small movie downloads output world world
                (slept (growing movie) SIZE_STABLE_SECONDS
                   (logged ("Processing file: " +:+ str movie) world))) as H.
  destruct H as (H1 & H2 & _); [evaluate | evaluate | evaluate | evaluate |].
  eexists. split; [exact H1 | exact H2].
Defined.

(** a 480p H.264 mp4 is moved as it is *)
Lemma skip_policy_witness :
  exists moved w',
    probe_step args_run one_device probe_480p encoder_small movie downloads output world
      = Val tt w' /\
    rec_status <$> table w' !! movie = Some skipped_moved /\
    files world !! moved = None /\
    parent moved = parent (output ++ ["movie.mp4"]) /\
    files w' !! moved = Some (File (bytes "hello")) /\
    files w' !! movie = None.
Proof.
  pose proof (skip_policy args_run one_device probe_480p encoder_small) as H.
  destruct H as (_ & _ & _ & _ & H & _).
  apply (H movie downloads output ["movie.mp4"] (bytes "hello") world); evaluate.
Defined.

(** an encoder that exits with code 3 *)
Lemma transcode_failure_witness :
  exists w',
    transcode_step args_run one_device encoder_fails movie downloads output world
      = Val tt w' /\
    rec_status <$> table w' !! movie = Some error /\
    note <$> table w' !! movie = Some (Some "handbrake_exit_3") /\
    Fs.is_file (files w') artifact = false /\
    files w' !! movie = Some (File (bytes "hello")).
Proof.
  pose proof (transcode_failure args_run one_device encoder_fails movie downloads output
                ["movie.mp4"] artifact (bytes "hello") world
                (set_files (insert artifact (File (bytes "a")))
                   (logged "HandBrakeCLI -> movie.mp4" (queued_world movie artifact world)))
                3) as H.
  destruct H as (w' & H1 & H2 & H3 & H4 & H5);
    [evaluate | evaluate | evaluate | evaluate | discriminate | evaluate | left; discriminate |].
  exists w'. split; [exact H1|]. split; [exact H2|]. split; [exact H3|].
  split; [exact H4 | exact H5].
Defined.

(** an artifact of 2 bytes replaces an original of 5 *)
Lemma size_comparison_witness :
  exists w',
    size_comparison_step args_run one_device movie downloads output artifact
      (world_encoded (bytes "ab")) = Val tt w' /\
    rec_status <$> table w' !! movie = Some done_moved /\
    files w' !! movie = None /\
    files w' !! artifact = None.
Proof.
  pose proof (size_comparison args_run one_device movie downloads output ["movie.mp4"]
                artifact (bytes "hello") (bytes "ab") (world_encoded (bytes "ab"))) as H.
  destruct H as (w' & Hrun & _ & Hbig);
    [evaluate | evaluate | discriminate | evaluate | evaluate | evaluate | evaluate
    | evaluate | evaluate |].
  destruct Hbig as (Hst & c & _ & _ & _ & _ & Ht & Hs); [simpl; lia|].
  exists w'. auto.
Defined.

(** the sample [ep2.mkv] is still growing: the show is skipped, and the
    stable [ep1.avi] gets no row either *)
Lemma unstable_sample_skips_show_witness :
  exists w',
    scan_entry args_run one_device (growing ep2) probe_480p encoder_small no_tmdb in_order
      downloads output None false show_dir world = Val true w' /\
    table w' = table world.
Proof.
  pose proof (unstable_sample_skips_show args_run one_device (growing ep2) probe_480p
                encoder_small no_tmdb in_order show_dir downloads output None false world)
    as H.
  destruct H as (k & sample & vids & rest & Hmap & Hun & _);
    [evaluate | evaluate | evaluate | evaluate | evaluate |].
  vm_compute in Hmap. injection Hmap as <- <- <- <-.
  destruct (Hun (slept (growing ep2) SIZE_STABLE_SECONDS world)) as (H1 & H2 & _);
    [evaluate|].
  eexists. split; [exact H1 | exact H2].
Defined.

(** [ep1.avi] is gated as [done_moved]; [ep2.mkv] comes out larger from the
    encoder, so the original is kept and moved and its season is flagged:
    the subtitle file is copied and the row of [ep1.avi] becomes
    [copied_season] *)
Lemma season_consolidation_witness :
  exists w1 w2,
    decide_all args_run one_device idle probe_unknown encoder_large
      (collect store show_dir) downloads output world_later = Val {["Season 1"]} w1 /\
    consolidate args_run in_order show_dir downloads output {["Season 1"]} w1 = Val tt w2 /\
    rec_status <$> table w1 !! ep1 = Some done_moved /\
    rec_status <$> table w1 !! ep2 = Some kept_original_moved /\
    landed (files w2) ["out"; "ShowA"; "Season 1"] ["ep1.srt"] (File (bytes "subs")) /\
    rec_status <$> table w2 !! ep1 = Some copied_season.
Proof.
  pose (w1 := match decide_all args_run one_device idle probe_unknown encoder_large
                      (collect store show_dir) downloads output world_later with
              | Val _ w => w
              | _ => world_later
              end).
  pose (w2 := match consolidate args_run in_order show_dir downloads output
                      {["Season 1"]} w1 with
              | Val _ w => w
              | _ => w1
              end).
  pose proof (season_consolidation args_run one_device idle probe_unknown encoder_large
                in_order show_dir downloads output ["ShowA"]
                {["Season 1"]} world_later w1 w2) as H.
  destruct H as (_ & _ & Hcopy & _);
    [evaluate | evaluate | evaluate | reflexivity | evaluate | evaluate |].
  exists w1, w2.
  split; [evaluate|]. split; [evaluate|]. split; [evaluate|]. split; [evaluate|].
  destruct (Hcopy "Season 1") as [Hentries Hstamps];
    [apply elem_of_singleton; reflexivity | eexists; evaluate |].
  split.
  - apply (Hentries ["ep1.srt"] (File (bytes "subs"))); evaluate.
  - apply Hstamps; [|evaluate].
    apply elem_of_descendants. exists ["ep1.avi"].
    split; [discriminate|]. split; [reflexivity | eexists; evaluate].
Defined.

(** C4 as stated fails: [pilot.mp4], directly in the show, is moved as it
    is, which flags the empty identifier only; the video of season [S1]
    ends in [error].  The consolidation copies the whole show, the subtree
    of the unflagged season included, and stamps its video
    [copied_season]. *)
Lemma unflagged_season_is_copied :
  match decide_all args_run one_device idle probe_mp4 encoder_fails
          (collect store_b show_b) downloads output world_b with
  | Val flags w1 =>
      elements flags = [""] /\
      rec_status <$> table w1 !! pilot = Some skipped_moved /\
      rec_status <$> table w1 !! ep_b = Some error /\
      files w1 !! ["out"; "ShowB"; "S1"; "ep.avi"] = None /\
      match consolidate args_run in_order show_b downloads output flags w1 with
      | Val _ w2 =>
          files w2 !! ["out"; "ShowB"; "S1"; "ep.avi"] = Some (File (bytes "episode")) /\
          rec_status <$> table w2 !! ep_b = Some copied_season
      | _ => False
      end
  | _ => False
  end.
Proof. vm_compute. repeat split; reflexivity. Qed.

(** C8 fails on the code for a file of a show.  [ep1.avi] is still
    growing: the engine judges it unstable and writes no status.  [ep2.mkv]
    is moved as it is, which flags the season, and the consolidation, in
    the same pass, stamps every video still below the season's directory:
    the row of [ep1.avi] is [copied_season] when the pass ends, and the
    gate stops every later call of the engine on the file, which stays in
    the input. *)
Theorem unstable_episode_is_stamped :
  table world !! ep1 = None /\
  match scan_entry args_run one_device (growing ep1) probe_480p encoder_small no_tmdb
          in_order downloads output None false show_dir world with
  | Val _ w1 =>
      existsb (String.eqb "File not stable yet: /in/ShowA/Season 1/ep1.avi")
              (stdout w1) = true /\
      Fs.is_file (files w1) ep1 = true /\
      rec_status <$> table w1 !! ep1 = Some copied_season /\
      process_movie_file args_run one_device idle probe_480p encoder_small
        ep1 downloads output w1 = Val tt w1
  | _ => False
  end.
Proof. vm_compute. repeat split; reflexivity. Qed.

(** C9 fails on the code.  In a dry run on a stable 480p H.264 file the
    transcoder is not run and the file stays where it is, but the mirrored
    directory is created and the status [skipped_moved] is written; a later
    real run then finds the path gated and leaves the file in the input. *)
Theorem dry_run_writes_status :
  files world !! ["out"; "new"] = None /\
  table world !! movie = None /\
  match process_movie_file args_dry one_device idle probe_480p encoder_small
          movie downloads ["out"; "new"] world with
  | Val _ w' =>
      files w' !! movie = files world !! movie /\
      files w' !! ["out"; "new"] = Some Dir /\
      rec_status <$> table w' !! movie = Some skipped_moved /\
      process_movie_file args_run one_device idle probe_480p encoder_small
        movie downloads ["out"; "new"] w' = Val tt w'
  | _ => False
  end.
Proof. vm_compute. repeat split; reflexivity. Qed.

(** ** Without posters TMDb plays no part *)

Lemma process_show_topdir_ignores_tmdb (ARGS : Args) (device : Path -> nat)
    (downloader : Z -> FS -> FS) (ffprobe : FS -> Path -> option ProbeInfo)
    (HandBrakeCLI : FS -> Path -> Path -> Z * option (list byte))
    (tmdb1 tmdb2 : string -> string -> PosterResult)
    (set_order : World -> gset string -> list string) :
  no_posters ARGS = true ->
  process_show_topdir ARGS device downloader ffprobe HandBrakeCLI tmdb1 set_order =
  process_show_topdir ARGS device downloader ffprobe HandBrakeCLI tmdb2 set_order.
Proof. intros H. unfold process_show_topdir. rewrite H. reflexivity. Qed.

(** X20. With --no-posters and without --posters-only the TMDb service has
    no influence on a pass: for any two behaviours of the service the pass
    gives the same result and leaves the same world. *)
Theorem no_posters_ignores_tmdb (ARGS : Args) (device : Path -> nat)
    (downloader : Z -> FS -> FS) (ffprobe : FS -> Path -> option ProbeInfo)
    (HandBrakeCLI : FS -> Path -> Path -> Z * option (list byte))
    (tmdb1 tmdb2 : string -> string -> PosterResult)
    (set_order : World -> gset string -> list string)
    (downloads output : Path) (tmdb_key : option string) (w : World) :
  no_posters ARGS = true ->
  posters_only ARGS = false ->
  scan_pass ARGS device downloader ffprobe HandBrakeCLI tmdb1 set_order
    downloads output tmdb_key w =
  scan_pass ARGS device downloader ffprobe HandBrakeCLI tmdb2 set_order
    downloads output tmdb_key w.
Proof.
  intros Hnp Hpo. unfold scan_pass, scan_entry, scan_show.
  rewrite Hpo.
  rewrite (process_show_topdir_ignores_tmdb ARGS device downloader ffprobe HandBrakeCLI
             tmdb1 tmdb2 set_order Hnp).
  reflexivity.
Qed.

(** ** A move across devices (lines 143-150) *)

(** X24. The device a directory lives on makes no difference to
    [move_safe]: for a regular file with a name and a destination that can
    be made, the rename and the fallback to copy and unlink (taken when the
    rename fails across devices) give the same path and leave the same
    world. *)
Theorem move_safe_device_independent (ARGS : Args) (device1 device2 : Path -> nat)
    (src dest_dir : Path) (data : list byte) (w : World) :
  files w !! src = Some (File data) ->
  Fs.can_mkdirs (files w) dest_dir = true ->
  name src <> "" ->
  move_safe ARGS device1 src dest_dir w = move_safe ARGS device2 src dest_dir w.
Proof.
  intros Hsrc Hok Hname. destruct (dry_run ARGS) eqn:Hdry.
  - destruct (move_safe_dry ARGS device1 src dest_dir w Hdry Hok Hname) as (m1 & H1 & U1).
    destruct (move_safe_dry ARGS device2 src dest_dir w Hdry Hok Hname) as (m2 & H2 & U2).
    rewrite U1 in U2. injection U2 as <-. rewrite H1, H2. reflexivity.
  - destruct (move_safe_run ARGS device1 src dest_dir data w Hdry Hsrc Hok Hname)
      as (m1 & H1 & U1).
    destruct (move_safe_run ARGS device2 src dest_dir data w Hdry Hsrc Hok Hname)
      as (m2 & H2 & U2).
    rewrite U1 in U2. injection U2 as <-. rewrite H1, H2. reflexivity.
Qed.

(** ** The further theorems at work on the sample data *)

(** [/out/movie.mp4] is taken, so another name is picked for it *)
Lemma unique_dest_fresh_witness :
  exists c, unique_dest ["out"; "movie.mp4"] world = Val c world /\
            files world !! c = None /\ parent c = ["out"].
Proof.
  destruct (unique_dest_fresh ["out"; "movie.mp4"] world) as (c & Hrun & Hfree & Hpar & _);
    [evaluate|].
  exists c. split; [exact Hrun|]. split; [exact Hfree | exact Hpar].
Defined.

Lemma candidate_keeps_suffix_witness :
  suffix (candidate ["out"; "movie.mp4"] 1) = suffix ["out"; "movie.mp4"] /\
  stem (candidate ["out"; "movie.mp4"] 1) = stem ["out"; "movie.mp4"] +:+ "_" +:+ pretty 1%nat.
Proof. apply candidate_keeps_suffix. evaluate. Defined.

(** a partial download is left alone *)
Lemma temporary_name_never_processed_witness :
  exists w',
    process_movie_file args_run one_device idle probe_unknown encoder_small
      ["in"; "movie.mp4.part"] downloads output world = Val tt w' /\
    files w' = files world /\ table w' = table world /\
    stdin w' = stdin world /\ clock w' = clock world.
Proof. apply temporary_name_never_processed. evaluate. Defined.

(** the operator types "maybe", then " YES ", then "n" *)
Lemma ask_confirm_answer_witness :
  exists w',
    ask_confirm args_run "Process?"
      (set_stdin (fun _ => ["maybe"; " YES "; "n"]) world) = Val true w' /\
    stdin w' = ["n"].
Proof.
  destruct (ask_confirm_answer args_run "Process?" ["maybe"] " YES " ["n"] true
              (set_stdin (fun _ => ["maybe"; " YES "; "n"]) world))
    as (w' & Hrun & Hin & _);
    [evaluate | constructor; [evaluate | constructor] | evaluate | evaluate |].
  exists w'. split; [exact Hrun | exact Hin].
Defined.

(** the operator types "maybe" and closes the input *)
Lemma ask_confirm_eof_witness :
  exists w',
    ask_confirm args_run "Process?" (set_stdin (fun _ => ["maybe"]) world)
      = Exc EOFError w' /\
    stdin w' = [].
Proof.
  destruct (ask_confirm_eof args_run "Process?" (set_stdin (fun _ => ["maybe"]) world))
    as (w' & Hrun & Hin & _);
    [evaluate | constructor; [evaluate | constructor] |].
  exists w'. split; [exact Hrun | exact Hin].
Defined.

(** under --confirm the operator answers "no" *)
Lemma operator_decline_recorded_witness :
  exists w',
    process_movie_file (mkArgs false true true false) one_device idle probe_unknown
      encoder_small movie downloads output (set_stdin (fun _ => ["no"]) world) = Val tt w' /\
    rec_status <$> table w' !! movie = Some skipped_by_user /\
    files w' = files world.
Proof.
  destruct (operator_decline_recorded (mkArgs false true true false) one_device idle
              probe_unknown encoder_small movie downloads output "no" []
              (set_stdin (fun _ => ["no"]) world))
    as (w' & Hrun & Hst & _ & Hfiles & _);
    [evaluate | evaluate | evaluate | evaluate | evaluate | evaluate |].
  exists w'. split; [exact Hrun|]. split; [exact Hst | exact Hfiles].
Defined.

Lemma unattended_reads_no_input_witness :
  match scan_pass args_run one_device idle probe_unknown encoder_small no_tmdb
          in_order downloads output None world with
  | Val _ w' => same_stdin world w'
  | Exc _ w' => same_stdin world w'
  | Stuck => True
  end.
Proof.
  apply (unattended_reads_no_input args_run one_device idle probe_unknown encoder_small
           no_tmdb in_order downloads output None).
  left. reflexivity.
Defined.

(** the movie is transcoded to 2 bytes and replaced *)
Lemma process_movie_file_outcome_witness :
  exists w',
    process_movie_file args_run one_device idle probe_unknown encoder_small
      movie downloads output world = Val tt w' /\
    forall p, p <> movie -> table w' !! p = table world !! p.
Proof.
  pose (w' := match process_movie_file args_run one_device idle probe_unknown encoder_small
                      movie downloads output world with
              | Val _ w => w
              | _ => world
              end).
  destruct (process_movie_file_outcome args_run one_device idle probe_unknown encoder_small
              movie downloads output world w') as [_ Hframe]; [evaluate|].
  exists w'. split; [evaluate | exact Hframe].
Defined.

(** a dry run of a file that needs transcoding *)
Lemma dry_run_records_no_output_witness :
  exists w',
    transcode_step args_dry one_device encoder_small movie downloads output world
      = Val tt w' /\
    rec_status <$> table w' !! movie = Some error /\
    note <$> table w' !! movie = Some (Some "no_output").
Proof.
  destruct (dry_run_records_no_output args_dry one_device encoder_small movie downloads
              output ["movie.mp4"] artifact world)
    as (w' & Hrun & Hst & Hnote & _);
    [evaluate | evaluate | evaluate | evaluate | evaluate |].
  exists w'. split; [exact Hrun|]. split; [exact Hst | exact Hnote].
Defined.

(** a tree with a file [a] is copied over a directory that holds a
    directory [a]: the file is written inside it *)
Lemma copy_tree_safe_merges_witness :
  exists w',
    copy_tree_safe args_run ["src"] ["dst"] world_c = Val tt w' /\
    files w' !! ["dst"; "a"] = Some Dir /\
    files w' !! ["dst"; "a"; "a"] = Some (File (bytes "new")).
Proof.
  pose (w' := match copy_tree_safe args_run ["src"] ["dst"] world_c with
              | Val _ w => w
              | _ => world_c
              end).
  destruct (copy_tree_safe_merges args_run ["src"] ["dst"] world_c w')
    as (_ & Hcopy & _); [evaluate | evaluate |].
  exists w'. split; [evaluate|].
  destruct (Hcopy ["a"] (File (bytes "new"))) as [H|(data & Hdata & Hdir & Hin)];
    [evaluate | evaluate | vm_compute in H; discriminate H |].
  split; [exact Hdir | exact Hin].
Defined.

(** [ep2.mkv] is found below its season *)
Lemma collect_complete_witness :
  exists vids, ("Season 1", vids) ∈ collect store show_dir /\ ep2 ∈ vids.
Proof.
  apply (collect_complete store show_dir "Season 1" ["ep2.mkv"]); evaluate.
Defined.

Lemma posters_only_writes_no_status_witness :
  match scan_pass (mkArgs false false false true) one_device idle probe_unknown
          encoder_small no_tmdb in_order downloads output (Some "key") world with
  | Val _ w' => nothing_lost world w'
  | Exc _ w' => nothing_lost world w'
  | Stuck => True
  end.
Proof.
  apply (posters_only_writes_no_status (mkArgs false false false true) one_device idle
           probe_unknown encoder_small no_tmdb in_order downloads output (Some "key")).
  reflexivity.
Defined.

Lemma no_posters_ignores_tmdb_witness :
  scan_pass args_run one_device idle probe_unknown encoder_small no_tmdb in_order
    downloads output (Some "key") world =
  scan_pass args_run one_device idle probe_unknown encoder_small
    (fun _ _ => PosterBytes (bytes "jpg")) in_order downloads output (Some "key") world.
Proof. apply no_posters_ignores_tmdb; reflexivity. Defined.

(** an empty directory in the downloads root *)
Lemma empty_show_is_ignored_witness :
  scan_entry args_run one_device idle probe_unknown encoder_small no_tmdb in_order
    downloads output None false ["in"; "Empty"]
    (set_files (insert ["in"; "Empty"] Dir) world)
  = Val false (set_files (insert ["in"; "Empty"] Dir) world).
Proof. apply empty_show_is_ignored; evaluate. Defined.

(** the output root is a regular file *)
Lemma blocked_mirror_leaves_queued_witness :
  exists e,
    transcode_step args_run one_device encoder_small movie downloads ["in"; "movie.mp4"] world
      = Exc e (upsert movie queued (Some "ready") world) /\
    (e = NotADirectoryError \/ e = FileExistsError).
Proof.
  apply (blocked_mirror_leaves_queued args_run one_device encoder_small movie downloads
           ["in"; "movie.mp4"] ["movie.mp4"] ["in"; "movie.mp4"; "movie.mp4.transcoding"]);
    evaluate.
Defined.

(** the input root and the output root on two devices *)
Lemma move_safe_device_independent_witness :
  move_safe args_run one_device movie output world =
  move_safe args_run (fun p => match p with "in" :: _ => 1%nat | _ => 0%nat end)
    movie output world.
Proof.
  apply (move_safe_device_independent args_run one_device _ movie output (bytes "hello"));
    evaluate.
Defined.

Lemma dry_run_loses_nothing_witness :
  match scan_pass args_dry one_device idle probe_480p encoder_small no_tmdb
          in_order downloads output None world with
  | Val _ w' => store_kept world w'
  | Exc _ w' => store_kept world w'
  | Stuck => True
  end.
Proof.
  apply (dry_run_loses_nothing args_dry one_device idle probe_480p encoder_small no_tmdb
           in_order downloads output None); [reflexivity | intros t fs; reflexivity].
Defined.
